(** * buny: rendering JSX trees to plain objects

    A shallow embedding of the core of [@x2f/buny-core] (depends.ts,
    render.ts, error.ts, jsx-runtime) and of the batch driver
    renderFile.ts, together with the properties of the resolver, the
    renderer, the deep merge and the driver. *)

From Stdlib Require Import ZArith String Ascii SpecFloat.
From stdpp Require Import gmap strings list pretty sorting.

Local Open Scope string_scope.
Local Open Scope nat_scope.
Local Open Scope list_scope.

#[local] Set Warnings "-register-all,-clear-no-such-hyp".

(** ** Host values *)

(** JavaScript numbers are IEEE-754 doubles; only their data is needed here,
    no arithmetic. *)
Definition number : Type := spec_float.

Definition isNaN (n : number) : bool :=
  match n with S754_nan => true | _ => false end.

(** The doubles [1] and [0], the results of [Number(true)] and
    [Number(false)]. *)
Definition one : number := S754_finite false 4503599627370496 (-52).
Definition zero : number := S754_zero false.

(** A rendered value: what [renderToObject] resolves to. Objects are plain
    records whose prototype is [Object.prototype], kept as their own
    properties in the order [Object.keys] lists them: the keys that are
    array indices first, in ascending order, then the other keys in the
    order they were created. *)
#[local] Unset Elimination Schemes.
Inductive value : Type :=
  | VNull
  | VBool (b : bool)
  | VNum (n : number)
  | VStr (s : string)
  | VArr (items : list value)
  | VObj (props : list (string * value)).
#[local] Set Elimination Schemes.

(** ** error.ts *)

(** What a [throw] can carry: an [OriginError], any other [Error] (only its
    message is ever read), or a value that is not an [Error] at all. *)
Inductive exn : Type :=
  | Error (message : string)
  | OriginError (message : string) (callStack : list string)
  | NonError (thrown : value).

Definition result (A : Type) : Type := exn + A.

Definition ok {A} (a : A) : result A := inr a.
Definition throw {A} (e : exn) : result A := inl e.

(** The outcome is a rejection. *)
Definition throws {A} (r : result A) : Prop :=
  match r with inl _ => True | inr _ => False end.

#[export] Instance throws_dec {A} (r : result A) : Decision (throws r).
Proof. destruct r; simpl; apply _. Defined.

#[export] Instance result_ret : MRet result := λ A, ok.

#[export] Instance result_bind : MBind result := λ A B k r,
  match r with
  | inl e => inl e
  | inr a => k a
  end.

(** [Array.prototype.join]. *)
Fixpoint join (sep : string) (parts : list string) : string :=
  match parts with
  | [] => ""
  | [p] => p
  | p :: rest => p +:+ sep +:+ join sep rest
  end.

(** [OriginError.prototype.toString]: the call stack joined by [" > "], a
    line break and two blanks, then the message. *)
Definition OriginError_toString (message : string) (callStack : list string)
  : string :=
  join " > " callStack +:+ String "010" "  " +:+ message.

(** ** jsx-runtime: virtual nodes *)

Inductive symbol : Type :=
  | FragmentSymbol
  | ListSymbol
  | OtherSymbol (description : string).

Inductive primitive : Type :=
  | PString (s : string)
  | PNumber (n : number)
  | PBoolean (b : bool).

(** A child of a node: [null]/[undefined], a primitive, or a [VNode] object
    [{type, props, children}]. A function component is called exactly once,
    with props fixed by the node, so it is represented by its name and by
    what that call (awaited when it is a promise) produces: a node or a
    thrown value. [props] are read by components only and are not kept.
    [Malformed] is an object without a [type] field; the [console.warn]
    that precedes its failure is not kept. A [type] is a string, a
    function or a symbol, as [VNode] declares it. *)
#[local] Unset Elimination Schemes.
Inductive vnode : Type :=
  | Nullish
  | Prim (p : primitive)
  | Malformed
  | VNode (type : vtype) (children : list vnode)
with vtype : Type :=
  | TString (tag : string)
  | TFunction (name : string) (call : exn + vnode)
  | TSymbol (sym : symbol).
#[local] Set Elimination Schemes.

(** The [children] field of a node. *)
Definition node_children (v : vnode) : list vnode :=
  match v with VNode _ children => children | _ => [] end.

(** What JSX hands over as [props.children]: one child, or an array whose
    items are children or arrays in turn. *)
#[local] Unset Elimination Schemes.
Inductive jsx_child : Type :=
  | One (c : vnode)
  | Many (items : list jsx_child).
#[local] Set Elimination Schemes.

(** [Array.prototype.flat()]: the items of the arrays among [items] take
    the place of those arrays, one level deep. *)
Definition flat (items : list jsx_child) : list jsx_child :=
  items ≫= λ item, match item with Many inner => inner | One _ => [item] end.

(** An item of [children] as [renderToObject] meets it: an array is an
    object without a [type] field. *)
Definition as_child (item : jsx_child) : vnode :=
  match item with One c => c | Many _ => Malformed end.

(** The [type] given to [jsx]: a tag, a function component under its
    name, or a symbol. [P] is what the props other than [children] are;
    a component is a function of them and of [children]. *)
Inductive jsx_type (P : Type) : Type :=
  | Tag (tag : string)
  | Component (name : string) (f : P → list vnode → exn + vnode)
  | Sym (sym : symbol).
Arguments Tag {P} tag.
Arguments Component {P} name f.
Arguments Sym {P} sym.

(** [jsx(type, props)], [props] being [{...rest, children}], with [None]
    for a [children] that is [undefined]. A component is entered as what
    [renderToObject] gets when it calls it, with [{...rest, children}]
    again, [children] being those of the node. *)
Definition jsx {P} (type : jsx_type P) (rest : P) (children : option jsx_child)
  : vnode :=
  let childrenArray :=
    match children with
    | None => []
    | Some (Many items) => items
    | Some (One c) => [One c]
    end in
  let children := as_child <$> flat childrenArray in
  VNode match type with
        | Tag tag => TString tag
        | Component name f => TFunction name (f rest children)
        | Sym sym => TSymbol sym
        end
    children.

(** The components [Fragment] and [List]: the node under their symbol
    that holds the children they are given. *)
Definition Fragment {P} (rest : P) (children : list vnode) : exn + vnode :=
  inr (VNode (TSymbol FragmentSymbol) children).

Definition List {P} (rest : P) (children : list vnode) : exn + vnode :=
  inr (VNode (TSymbol ListSymbol) children).

(** ** render.ts *)

(** *** Plain objects: own properties and inherited names *)

(** The number a string of decimal digits writes. *)
Fixpoint numeral (s : string) (acc : N) : option N :=
  match s with
  | "" => Some acc
  | String c s =>
      let d := N_of_ascii c in
      if bool_decide (48 ≤ d ≤ 57)%N then numeral s (10 * acc + (d - 48))%N
      else None
  end.

(** The array index a key writes, if it writes one: a decimal numeral
    without a leading zero, below [2^32 - 1]. *)
Definition array_index (key : string) : option N :=
  match key with
  | "" => None
  | String "0" "" => Some 0%N
  | String "0" _ => None
  | _ =>
      match numeral key 0 with
      | Some i => if bool_decide (i < 4294967295)%N then Some i else None
      | None => None
      end
  end.

(** The names every object inherits from [Object.prototype]. All but
    [__proto__] are functions there. [__proto__] is an accessor: a read
    gives the prototype and an assignment changes it; this is not
    modelled, and the name is read and assigned like the others. *)
Definition Object_prototype : list string :=
  ["constructor"; "__defineGetter__"; "__defineSetter__"; "hasOwnProperty";
   "__lookupGetter__"; "__lookupSetter__"; "isPrototypeOf";
   "propertyIsEnumerable"; "toString"; "valueOf"; "__proto__";
   "toLocaleString"].

Definition inherited (key : string) : bool :=
  bool_decide (key ∈ Object_prototype).

Section Props.
Context {V : Type}.

(** [o[key]] for an own property, [None] when [key] is none. *)
Fixpoint lookup_key (key : string) (o : list (string * V)) : option V :=
  match o with
  | [] => None
  | (k, v) :: o => if decide (k = key) then Some v else lookup_key key o
  end.

(** [Object.hasOwn(o, key)]. *)
Definition has_own (key : string) (o : list (string * V)) : bool :=
  bool_decide (key ∈ o.*1).

(** [key in o]: an own property, or a name inherited from
    [Object.prototype]. *)
Definition key_in (key : string) (o : list (string * V)) : bool :=
  has_own key o || inherited key.

(** [o[key] = v] for a property that exists: it keeps its place. *)
Fixpoint update (key : string) (v : V) (o : list (string * V))
  : list (string * V) :=
  match o with
  | [] => []
  | (k, w) :: o =>
      if decide (k = key) then (k, v) :: o else (k, w) :: update key v o
  end.

(** The place of a new property whose key is the array index [i]: after
    the smaller indices, before everything else. *)
Fixpoint insert_index (i : N) (key : string) (v : V) (o : list (string * V))
  : list (string * V) :=
  match o with
  | [] => [(key, v)]
  | (k, w) :: o' =>
      match array_index k with
      | Some j =>
          if (j <? i)%N then (k, w) :: insert_index i key v o'
          else (key, v) :: o
      | None => (key, v) :: o
      end
  end.

(** [o[key] = v], for a key other than the accessor [__proto__]: an
    existing property keeps its place; a new one goes among the array
    indices when its key is one, and last otherwise. *)
Definition assign (key : string) (v : V) (o : list (string * V))
  : list (string * V) :=
  if has_own key o then update key v o
  else
    match array_index key with
    | Some i => insert_index i key v o
    | None => o ++ [(key, v)]
    end.

End Props.

Definition isObject (item : value) : bool :=
  match item with VObj _ => true | _ => false end.

(** The properties [{...v}] copies: those of an object, the indices of an
    array or of a string, nothing for the other values. *)
Definition spread (v : value) : list (string * value) :=
  match v with
  | VObj props => props
  | VArr items => imap (λ i x, (pretty i, x)) items
  | VStr s =>
      imap (λ i c, (pretty i, VStr (String c ""))) (list_ascii_of_string s)
  | _ => []
  end.

(** The double quote character. *)
Definition quote : string := String "034" EmptyString.

Definition merge_conflict (key : string) : exn :=
  Error ("The key " +:+ quote +:+ key +:+ quote +:+
         " cannot be merged as it isn't itself an object and already exists in the target object.").

(** [deepMerge(f, source)] for a function [f], which is what [target[key]]
    is when [key] is no property of [target] but a name it inherits: a
    function has no own property for [{...f}] to copy, and [isObject(f)] is
    false. *)
Definition deepMerge_function : result value := ok (VObj []).

(** The body of [Object.keys(source).forEach(key => ...)], run over the
    properties of [source] in order, [output] being the object under
    construction and [merge] the recursive call. *)
Fixpoint forEach (merge : value → value → result value)
    (tprops entries output : list (string * value))
  : result (list (string * value)) :=
  match entries with
  | [] => ok output
  | (key, sv) :: entries =>
      match sv with
      | VObj _ =>
          if negb (key_in key tprops)
          then forEach merge tprops entries (assign key sv output)
          else
            merged ← match lookup_key key tprops with
                     | Some tv => merge tv sv
                     | None => deepMerge_function
                     end;
            forEach merge tprops entries (assign key merged output)
      | VArr sitems =>
          let items :=
            match lookup_key key tprops with
            | Some (VArr titems) => titems ++ sitems
            | _ => sitems
            end in
          forEach merge tprops entries (assign key (VArr items) output)
      | _ =>
          if key_in key output then throw (merge_conflict key)
          else forEach merge tprops entries (assign key sv output)
      end
  end.

Fixpoint deepMerge (target source : value) {struct source} : result value :=
  let output := spread target in
  match target, source with
  | VObj tprops, VObj sprops =>
      output ← forEach (λ tv sv, deepMerge tv sv) tprops sprops output;
      ok (VObj output)
  | _, _ => ok (VObj output)
  end.

(** [results.reduce((acc, result) => deepMerge(acc, result), acc)]. *)
Fixpoint reduce_deepMerge (acc : value) (results : list value) : result value :=
  match results with
  | [] => ok acc
  | r :: results => acc ← deepMerge acc r; reduce_deepMerge acc results
  end.

(** The [catch] clause of [renderToObject]. *)
Definition rethrow (callStack : list string) (e : exn) : exn :=
  match e with
  | OriginError _ _ => e
  | Error message => OriginError message callStack
  | NonError _ => Error "Unknown error"
  end.

Definition try_catch {A} (callStack : list string) (body : result A) : result A :=
  match body with
  | inl e => throw (rethrow callStack e)
  | inr a => ok a
  end.

Definition value_of (p : primitive) : value :=
  match p with
  | PString s => VStr s
  | PNumber n => VNum n
  | PBoolean b => VBool b
  end.

(** [typeof p === 'string']. *)
Definition is_string (p : primitive) : bool :=
  match p with PString _ => true | _ => false end.

(** The characters of a primitive known to be a string. *)
Definition to_string (p : primitive) : string :=
  match p with PString s => s | _ => "" end.

(** [p === s] for a string literal [s]. *)
Definition strict_equals (p : primitive) (s : string) : bool :=
  match p with PString s' => bool_decide (s' = s) | _ => false end.

Definition rejections {A} (rs : list (result A)) : list exn :=
  omap (λ r, match r with inl e => Some e | inr _ => None end) rs.

Definition fulfilments {A} (rs : list (result A)) : list A :=
  omap (λ r, match r with inl _ => None | inr a => Some a end) rs.

Section Host.

(** What the host decides: [Number] on strings, and, when several of the
    promises given to [Promise.all] reject, the position among the
    rejections of the one that rejects first. *)
Variable StringToNumber : string → number.
Variable race : list exn → nat.

(** [Number(p)]. *)
Definition Number (p : primitive) : number :=
  match p with
  | PString s => StringToNumber s
  | PNumber n => n
  | PBoolean b => if b then one else zero
  end.

(** The branch of [renderToObject] for primitives. The [callStack.push] of
    that branch is not kept: nothing after it throws. *)
Definition coerce (p : primitive) : value :=
  if is_string p && bool_decide (String.length (to_string p) = 0) then VStr ""
  else if negb (isNaN (Number p)) then VNum (Number p)
  else if strict_equals p "true" || strict_equals p "false"
       then VBool (strict_equals p "true")
  else value_of p.

(** [await Promise.all(promises)]: every result in order, or the rejection
    that came first. *)
Definition Promise_all {A} (settled : list (result A)) : result (list A) :=
  match rejections settled with
  | [] => ok (fulfilments settled)
  | e :: es => throw (nth (race (e :: es)) (e :: es) e)
  end.

(** [renderToObject(vnode, callStack)], the promise it returns read as its
    outcome. Recursive calls get [[...callStack]], so the pushes of one call
    are seen by its own [catch] and by the calls below it only. *)
Fixpoint renderToObject (vnode : vnode) (callStack : list string)
  : result value :=
  match vnode with
  | Nullish => ok VNull
  | Prim p => ok (coerce p)
  | Malformed =>
      try_catch callStack (throw (Error "Object is not a valid VNode"))
  | VNode type children =>
      let callStack :=
        match type with
        | TFunction name _ => callStack ++ [name]
        | TString tag => callStack ++ [tag]
        | TSymbol _ => callStack
        end in
      let rendered := (λ child, renderToObject child callStack) <$> children in
      try_catch callStack
        match type with
        | TFunction _ call =>
            match call with
            | inl e => throw e
            | inr returned => renderToObject returned callStack
            end
        | TString tag =>
            match children with
            | [child] =>
                v ← renderToObject child callStack; ok (VObj [(tag, v)])
            | _ =>
                results ← Promise_all rendered;
                merged ← reduce_deepMerge (VObj []) results;
                ok (VObj [(tag, merged)])
            end
        | TSymbol (OtherSymbol description) =>
            throw (Error ("Tried to render symbol Symbol(" +:+ description
                          +:+ ") as a component"))
        | TSymbol ListSymbol =>
            results ← Promise_all rendered; ok (VArr results)
        | TSymbol FragmentSymbol =>
            results ← Promise_all rendered;
            reduce_deepMerge (VObj []) results
        end
  end.

End Host.

(** *** A host for the examples *)

(** [Number] on the strings the examples use: a string of decimal digits
    is the double nearest to the integer it writes, other strings are not
    numbers. *)
Definition double_of_Z (z : Z) : number := binary_normalize 53 1024 z 0 false.

Fixpoint digits (s : string) (acc : Z) : option Z :=
  match s with
  | "" => Some acc
  | String c s =>
      let d := Z.of_nat (nat_of_ascii c) in
      if bool_decide (48 ≤ d ≤ 57)%Z then digits s (10 * acc + (d - 48))%Z
      else None
  end.

Definition decimal (s : string) : number :=
  match digits s 0 with
  | Some z => double_of_Z z
  | None => S754_nan
  end.

(** The rejection listed first wins every race. *)
Definition first_listed (_ : list exn) : nat := 0.

(** *** Vocabulary for the deep merge's properties *)

(** Neither an object nor an array: what [deepMerge] refuses to overwrite. *)
Definition is_scalar (v : value) : Prop :=
  match v with
  | VObj _ | VArr _ => False
  | _ => True
  end.

(** [{...target, ...source}], the result the specification words for
    arguments that are not both objects. *)
Definition spread_overwrite (target source : value) : value :=
  VObj (foldl (λ output kv, assign kv.1 kv.2 output)
          (spread target) (spread source)).

(** Every object of [v] has each key once. *)
Fixpoint well_formed (v : value) : Prop :=
  match v with
  | VObj props =>
      NoDup props.*1 ∧ foldr (λ kv rest, well_formed kv.2 ∧ rest) True props
  | VArr items => foldr (λ x rest, well_formed x ∧ rest) True items
  | _ => True
  end.

(** No object of [v] has a property named [__proto__], the accessor that
    is left out of the model. *)
Fixpoint no_proto (v : value) : Prop :=
  match v with
  | VObj props =>
      ("__proto__" ∉ props.*1) ∧ foldr (λ kv rest, no_proto kv.2 ∧ rest) True props
  | VArr items => foldr (λ x rest, no_proto x ∧ rest) True items
  | _ => True
  end.

(** [Object.keys(v)] for a rendered value that is an object, nothing for
    the others. *)
Definition object_keys (v : value) : list string :=
  match v with VObj props => props.*1 | _ => [] end.

(** The keys of [results] in the order they are met first, after those of
    [keys]. *)
Definition first_met (keys : list string) (results : list value) : list string :=
  foldl (λ keys r, keys ++ filter (λ key, key ∉ keys) (object_keys r))
    keys results.

(** *** Vocabulary for the renderer's properties *)

(** The call stack a node hands to its own [catch] and to the calls below. *)
Definition stack_of (type : vtype) (callStack : list string) : list string :=
  match type with
  | TFunction name _ => callStack ++ [name]
  | TString tag => callStack ++ [tag]
  | TSymbol _ => callStack
  end.

(** The nodes whose children go through [Promise.all]. *)
Definition fans_out (type : vtype) (children : list vnode) : Prop :=
  match type with
  | TString _ => length children ≠ 1
  | TSymbol FragmentSymbol | TSymbol ListSymbol => True
  | _ => False
  end.

(** No component of the tree throws an [OriginError] of its own making. *)
Fixpoint plain_throws (v : vnode) : bool :=
  match v with
  | VNode type children =>
      match type with
      | TFunction _ (inl (OriginError _ _)) => false
      | TFunction _ (inr returned) => plain_throws returned
      | _ => true
      end && forallb plain_throws children
  | _ => true
  end.

(** The names between a node and the nodes below it, one list for each
    node that has a [catch] of its own to pass through: a tag or a
    component adds its name, a symbol adds none; what is below a component
    is what it returns, not the children written under it. *)
Fixpoint paths (v : vnode) : list (list string) :=
  match v with
  | Nullish | Prim _ => []
  | Malformed => [[]]
  | VNode type children =>
      stack_of type [] ::
        ((stack_of type [] ++.) <$>
           match type with
           | TFunction _ (inl _) => []
           | TFunction _ (inr returned) => paths returned
           | _ => children ≫= paths
           end)
  end.

(** ** render.ts again: [deepMerge] over a store *)

(** [deepMerge] once more, with objects and arrays held by reference in
    a store that assignments update in place, to state what a call leaves
    untouched. *)
Module Heap.

Inductive jsval : Type :=
  | JNull
  | JUndefined
  | JBool (b : bool)
  | JNum (n : number)
  | JStr (s : string)
  | JRef (l : nat)
  | JFunction.

Inductive object : Type :=
  | Obj (props : list (string * jsval))
  | Arr (items : list jsval).

(** How a computation ends. [Diverge] is a recursion deeper than the fuel
    given. *)
Inductive outcome (A : Type) : Type :=
  | Ok (a : A)
  | Throw (e : exn)
  | Diverge.
Arguments Ok {A} a.
Arguments Throw {A} e.
Arguments Diverge {A}.

Definition M (A : Type) : Type := gmap nat object → gmap nat object * outcome A.

#[global] Instance M_ret : MRet M := λ A a h, (h, Ok a).

#[global] Instance M_bind : MBind M := λ A B k m h,
  match m h with
  | (h', Ok a) => k a h'
  | (h', Throw e) => (h', Throw e)
  | (h', Diverge) => (h', Diverge)
  end.

Definition throwM {A} (e : exn) : M A := λ h, (h, Throw e).

(** [{...}] and [[...]] literals: a new object at an unused address. *)
Definition alloc (o : object) : M nat := λ h,
  let l := fresh (dom h) in (<[l := o]> h, Ok l).

Definition deref (h : gmap nat object) (v : jsval) : option object :=
  match v with JRef l => h !! l | _ => None end.

(** [isObject(v)]. *)
Definition isObject (v : jsval) : M bool := λ h,
  (h, Ok match deref h v with Some (Obj _) => true | _ => false end).

(** [Array.isArray(v)]. *)
Definition isArray (v : jsval) : M bool := λ h,
  (h, Ok match deref h v with Some (Arr _) => true | _ => false end).

(** The items [...v] spreads into an array literal, [v] an array. *)
Definition items (v : jsval) : M (list jsval) := λ h,
  (h, Ok match deref h v with Some (Arr xs) => xs | _ => [] end).

(** The own properties [{...v}] copies. *)
Definition own_props (v : jsval) : M (list (string * jsval)) := λ h,
  (h, Ok match v with
         | JStr s =>
             imap (λ i c, (pretty i, JStr (String c ""))) (list_ascii_of_string s)
         | _ =>
             match deref h v with
             | Some (Obj props) => props
             | Some (Arr xs) => imap (λ i x, (pretty i, x)) xs
             | None => []
             end
         end).

(** [Object.keys(v)], [v] an object. *)
Definition keys (v : jsval) : M (list string) := λ h,
  (h, Ok match deref h v with Some (Obj props) => props.*1 | _ => [] end).

(** [key in v], [v] an object. *)
Definition has_prop (v : jsval) (key : string) : M bool := λ h,
  (h, Ok match deref h v with Some (Obj props) => key_in key props | _ => false end).

(** [v[key]], [v] an object: an own property, a function for a name
    inherited from [Object.prototype], [undefined] for any other key. *)
Definition get_prop (v : jsval) (key : string) : M jsval := λ h,
  (h, Ok match deref h v with
         | Some (Obj props) =>
             default (if inherited key then JFunction else JUndefined)
               (lookup_key key props)
         | _ => JUndefined
         end).

(** [output[key] = v]: the object at [l] is updated in place. *)
Definition set_prop (l : nat) (key : string) (v : jsval) : M unit := λ h,
  match h !! l with
  | Some (Obj props) => (<[l := Obj (assign key v props)]> h, Ok tt)
  | _ => (h, Ok tt)
  end.

(** The callback of [Object.keys(source).forEach]. *)
Definition each (merge : jsval → jsval → M jsval) (target source : jsval)
    (output : nat) (key : string) : M unit :=
  sv ← get_prop source key;
  sobj ← isObject sv;
  if sobj : bool then
    known ← has_prop target key;
    if negb known then set_prop output key sv
    else
      tv ← get_prop target key;
      merged ← merge tv sv;
      set_prop output key merged
  else
    sarr ← isArray sv;
    if sarr : bool then
      tv ← get_prop target key;
      tarr ← isArray tv;
      titems ← (if tarr : bool then items tv else mret []);
      sitems ← items sv;
      copy ← alloc (Arr (titems ++ sitems));
      set_prop output key (JRef copy)
    else
      known ← has_prop (JRef output) key;
      if known : bool then throwM (merge_conflict key)
      else set_prop output key sv.

Fixpoint forEach (merge : jsval → jsval → M jsval) (target source : jsval)
    (output : nat) (keys : list string) : M unit :=
  match keys with
  | [] => mret tt
  | key :: keys =>
      _ ← each merge target source output key;
      forEach merge target source output keys
  end.

Fixpoint deepMerge (fuel : nat) (target source : jsval) : M jsval :=
  match fuel with
  | 0 => λ h, (h, Diverge)
  | S fuel =>
      props ← own_props target;
      output ← alloc (Obj props);
      tobj ← isObject target;
      sobj ← isObject source;
      _ ← (if tobj && sobj then
             ks ← keys source;
             forEach (deepMerge fuel) target source output ks
           else mret tt);
      mret (JRef output)
  end.

(** The plain value a stored value stands for, read down to [depth]
    references. *)
Fixpoint reify (depth : nat) (h : gmap nat object) (v : jsval) : option value :=
  match v with
  | JNull | JUndefined => Some VNull
  | JBool b => Some (VBool b)
  | JNum n => Some (VNum n)
  | JStr s => Some (VStr s)
  | JFunction => None
  | JRef l =>
      match depth with
      | 0 => None
      | S depth =>
          match h !! l with
          | Some (Obj props) =>
              VObj <$> mapM (λ kv, pair kv.1 <$> reify depth h kv.2) props
          | Some (Arr xs) => VArr <$> mapM (reify depth h) xs
          | None => None
          end
      end
  end.

(** The stored properties [jprops] stand for the plain properties
    [props]. *)
Definition props_rel (depth : nat) (h : gmap nat object)
    (jprops : list (string * jsval)) (props : list (string * value)) : Prop :=
  Forall2 (λ kj kv, kj.1 = kv.1 ∧ reify depth h kj.2 = Some kv.2) jprops props.

Definition items_rel (depth : nat) (h : gmap nat object)
    (jitems : list jsval) (items : list value) : Prop :=
  Forall2 (λ j v, reify depth h j = Some v) jitems items.

(** The outcome [r] of a store-level computation is the outcome [pure] of
    the plain one. *)
Definition agrees (depth : nat) (h : gmap nat object)
    (r : outcome jsval) (pure : result value) : Prop :=
  match pure with
  | inr w => ∃ j, r = Ok j ∧ reify depth h j = Some w
  | inl e => r = Throw e
  end.

(** [m] neither frees nor changes the objects at the addresses [D]. *)
Definition keeps {A} (D : gset nat) (m : M A) : Prop :=
  ∀ h, D ⊆ dom h →
    dom h ⊆ dom (m h).1 ∧ ∀ l, l ∈ D → (m h).1 !! l = h !! l.

(** [m] leaves an object at [out], with the properties it had under the
    keys that are not in [ks]. *)
Definition writes_only {A} (out : nat) (ks : list string) (m : M A) : Prop :=
  ∀ h o, h !! out = Some (Obj o) →
    ∃ o', (m h).1 !! out = Some (Obj o')
          ∧ ∀ k, k ∉ ks → lookup_key k o' = lookup_key k o.

End Heap.

(** With fuel for [depth] levels of objects, the store-level merge of two
    stored values does what the plain merge does on the values they stand
    for. [hb] is a part of the store that holds both arguments; the part
    [hb'] that holds the result extends it with new objects only. *)
Definition refines (depth : nat) : Prop :=
  ∀ (h hb : gmap nat Heap.object) target source tv sv,
    hb ⊆ h →
    Heap.reify depth hb target = Some tv →
    Heap.reify depth hb source = Some sv →
    well_formed sv →
    ∃ h' hb' r,
      Heap.deepMerge (S depth) target source h = (h', r)
      ∧ hb ⊆ hb' ∧ hb' ⊆ h' ∧ dom hb' ∩ dom h ⊆ dom hb
      ∧ Heap.agrees (S depth) hb' r (deepMerge tv sv).

(** What the loop of the store-level merge has to deliver for the rest [ks]
    of the keys and [es] of the entries, run from the store [hc] whose part
    [hbc] holds what the output at [out] refers to; [lt] and [ls] are the
    addresses of the target and of the source, [tprops] the plain
    properties of the target, [oprops] those of the output so far. *)
Definition loop_post (d lt ls out : nat) (tprops : list (string * value))
    (ks : list string) (es : list (string * value))
    (hc hbc : gmap nat Heap.object) (oprops : list (string * value)) : Prop :=
  ∃ h' hb' r,
    Heap.forEach (Heap.deepMerge (S d)) (Heap.JRef lt) (Heap.JRef ls) out ks hc
    = (h', r)
    ∧ hbc ⊆ hb' ∧ hb' ⊆ h' ∧ dom hb' ∩ dom hc ⊆ dom hbc
    ∧ match forEach deepMerge tprops es oprops with
      | inr final =>
          r = Heap.Ok tt
          ∧ ∃ final_j, h' !! out = Some (Heap.Obj final_j)
                       ∧ Heap.props_rel (S d) hb' final_j final
      | inl e => r = Heap.Throw e
      end.

(** ** depends.ts *)

(** A [VNode] object held by reference: its address and its contents. *)
Record VNodeObj : Type := { addr : nat; shape : vnode }.

(** [VNode | DependantNodeTree]. Wrappers are objects too and carry their
    own address; both kinds are immutable once built. *)
#[local] Unset Elimination Schemes.
Inductive tree : Type :=
  | Raw (v : VNodeObj)
  | DependantNodeTree (self : nat) (deps : list tree) (node : tree).
#[local] Set Elimination Schemes.

(** Object identity, as seen by [===] and by [Set]. *)
Inductive ref : Type :=
  | RVNode (a : nat)
  | RTree (a : nat).

#[export] Instance ref_eq_dec : EqDecision ref.
Proof. solve_decision. Defined.

#[export] Instance ref_countable : Countable ref.
Proof.
  refine (inj_countable'
    (λ r, match r with RVNode a => inl a | RTree a => inr a end)
    (λ s, match s with inl a => RVNode a | inr a => RTree a end) _).
  by intros [].
Defined.

Definition ref_of (t : tree) : ref :=
  match t with
  | Raw v => RVNode (addr v)
  | DependantNodeTree self _ _ => RTree self
  end.

Definition instanceof_DependantNodeTree (t : tree) : bool :=
  match t with
  | Raw _ => false
  | DependantNodeTree _ _ _ => true
  end.

(** [DependantNodeTree.prototype.getVNode], extended to raw nodes the way
    every caller does ([t instanceof DependantNodeTree ? t.getVNode() : t]). *)
Fixpoint getVNode (t : tree) : VNodeObj :=
  match t with
  | Raw v => v
  | DependantNodeTree _ _ node => getVNode node
  end.

(** [a === b] on two [VNode] objects. *)
Definition same_object (a b : VNodeObj) : bool :=
  bool_decide (addr a = addr b).

(** The loop of [depends]: the first wrapped dependency whose underlying
    node is the node being wrapped throws. *)
Fixpoint check_deps (deps : list tree) (node : tree) : result unit :=
  match deps with
  | [] => ok tt
  | dep :: deps =>
      if instanceof_DependantNodeTree dep
         && same_object (getVNode dep) (getVNode node)
      then throw (Error "Circular dependency detected")
      else check_deps deps node
  end.

(** [depends(deps, node)]. [next] is the first free address, the one the
    [new DependantNodeTree] gets; the free address after the call is
    returned with the wrapper. *)
Definition depends (deps : list tree) (node : tree) (next : nat)
  : result (tree * nat) :=
  _ ← check_deps deps node;
  ok (DependantNodeTree next deps node, S next).

(** The two variables the closure [dfs] captures. *)
Record dfs_state : Type := { visited : gset ref; order : list tree }.

Definition visit (r : ref) (st : dfs_state) : dfs_state :=
  {| visited := {[r]} ∪ visited st; order := order st |}.

Definition push (t : tree) (st : dfs_state) : dfs_state :=
  {| visited := visited st; order := order st ++ [t] |}.

Fixpoint dfs (node : tree) (st : dfs_state) : dfs_state :=
  if decide (ref_of node ∈ visited st) then st
  else
    match node with
    | DependantNodeTree _ deps inner =>
        let st := visit (ref_of node) st in
        let st := foldl (λ st dep, dfs dep st) st deps in
        dfs inner st
    | Raw _ =>
        if decide (ref_of node ∉ visited st)
        then push node (visit (ref_of node) st)
        else st
    end.

Definition unravelOrderOfDependencies (trees : list tree) : list tree :=
  order (foldl (λ st t, dfs t st) {| visited := ∅; order := [] |} trees).

(** *** Vocabulary for the resolver's properties *)

(** Every object reachable from a declaration, itself included. *)
Fixpoint subtrees (t : tree) : list tree :=
  t :: match t with
       | Raw _ => []
       | DependantNodeTree _ deps node =>
           (deps ≫= subtrees) ++ subtrees node
       end.

Definition refs (t : tree) : gset ref := list_to_set (ref_of <$> subtrees t).

(** The raw nodes of a declaration in the order a traversal without any
    visited set would meet them: dependencies first, then the node. *)
Fixpoint flatten (t : tree) : list tree :=
  match t with
  | Raw _ => [t]
  | DependantNodeTree _ deps node => (deps ≫= flatten) ++ flatten node
  end.

(** [l] without the objects already in [seen] and without repetitions, the
    first occurrence of each object kept. *)
Fixpoint keep_first (seen : gset ref) (l : list tree) : list tree :=
  match l with
  | [] => []
  | t :: l =>
      if decide (ref_of t ∈ seen) then keep_first seen l
      else t :: keep_first ({[ref_of t]} ∪ seen) l
  end.

(** One address, one object: two reachable objects with the same identity
    are the same object. Every heap of immutable objects satisfies it. *)
Definition consistent (trees : list tree) : Prop :=
  ∀ s1 s2, s1 ∈ trees ≫= subtrees → s2 ∈ trees ≫= subtrees →
    ref_of s1 = ref_of s2 → s1 = s2.

(** A declaration without dependencies: a raw node, or wrappers whose
    [deps] are all empty. *)
Fixpoint no_deps (t : tree) : Prop :=
  match t with
  | Raw _ => True
  | DependantNodeTree _ deps node => deps = [] ∧ no_deps node
  end.

(** The object [a] comes before the object [b] in [l]. *)
Definition precedes (a b : ref) (l : list tree) : Prop :=
  ∃ i j, i < j ∧ ref_of <$> l !! i = Some a ∧ ref_of <$> l !! j = Some b.

(** The nodes reachable from a sequence of declarations. *)
Definition reach (trees : list tree) : gset ref :=
  list_to_set (ref_of <$> (trees ≫= flatten)).

(** The identity of the node a declaration stands for. *)
Definition node_ref (t : tree) : ref := RVNode (addr (getVNode t)).

(** A chain of declarations: a raw node, then one wrapper after the other,
    each [depends([d], n)] for the declaration [d] before it and a node
    [n] of its own; [links] gives the address and the node of each wrapper,
    the first wrapper first. *)
Definition chain (v0 : VNodeObj) (links : list (nat * VNodeObj)) : tree :=
  foldl (λ d link, DependantNodeTree link.1 [d] (Raw link.2)) (Raw v0) links.

(** What the resolver maintains: only raw nodes are pushed, no object is
    pushed twice, and whatever is pushed is marked visited. *)
Record order_inv (st : dfs_state) : Prop := {
  inv_raw : Forall (λ t, instanceof_DependantNodeTree t = false) (order st);
  inv_nodup : NoDup (ref_of <$> order st);
  inv_visited : ∀ t, t ∈ order st → ref_of t ∈ visited st
}.

(** Among the objects [U] of one call, every visited one is either still
    being traversed (one of [active]) or completely traversed. *)
Definition settled (U : list tree) (active seen : gset ref) : Prop :=
  ∀ s, s ∈ U → ref_of s ∈ seen → ref_of s ∈ active ∨ refs s ⊆ seen.

(** One call of [dfs] as a first-visit filter. *)
Definition dfs_spec (U : list tree) (active : gset ref) (t : tree) : Prop :=
  ∀ st, settled U active (visited st) →
    visited (dfs t st) = visited st ∪ refs t
    ∧ order (dfs t st) = order st ++ keep_first (visited st) (flatten t).

Fixpoint tree_size (t : tree) : nat :=
  match t with
  | Raw _ => 1
  | DependantNodeTree _ deps node =>
      S (sum_list (tree_size <$> deps) + tree_size node)
  end.

(** ** renderFile.ts *)

(** [Array.prototype.sort(cmp)] for a consistent comparator: a stable
    sort. An element goes before the first one that [cmp] puts after it. *)
Fixpoint insert_sorted {A} (cmp : A → A → Z) (a : A) (l : list A) : list A :=
  match l with
  | [] => [a]
  | b :: l' => if (0 <? cmp b a)%Z then a :: l else b :: insert_sorted cmp a l'
  end.

Definition sort {A} (cmp : A → A → Z) (l : list A) : list A :=
  foldl (λ sorted a, insert_sorted cmp a sorted) [] l.

(** [l.indexOf(node)]: the first position holding that very object, [-1]
    when there is none. *)
Fixpoint indexOf_from (i : Z) (l : list VNodeObj) (node : VNodeObj) : Z :=
  match l with
  | [] => -1
  | x :: l => if same_object x node then i else indexOf_from (i + 1) l node
  end.

Definition indexOf (l : list VNodeObj) (node : VNodeObj) : Z :=
  indexOf_from 0 l node.

(** What [renderFile] resolves to. *)
Record batch : Type := {
  fulfilled : list (string * value);
  failures : list (string * exn)
}.

Section Driver.

Variable StringToNumber : string → number.
Variable race : list exn → nat.

(** [renderFile], from the module already imported: [exports] is what
    [Object.entries(mod)] lists. *)
Definition renderFile (exports : list (string * tree)) : batch :=
  let orderOfExecution := getVNode <$> unravelOrderOfDependencies exports.*2 in
  let entries := (λ kv, (kv.1, getVNode kv.2)) <$> exports in
  let sorted :=
    sort (λ a b, indexOf orderOfExecution a.2 - indexOf orderOfExecution b.2)%Z
      entries in
  let promisesMap :=
    foldl (λ acc kn,
             assign kn.1 (renderToObject StringToNumber race (shape kn.2) []) acc)
      [] sorted in
  let keys := promisesMap.*1 in
  let promises := promisesMap.*2 in
  let results := zip keys promises in
  {| failures :=
       omap (λ kr, match kr.2 with inl e => Some (kr.1, e) | inr _ => None end)
         results;
     fulfilled :=
       omap (λ kr, match kr.2 with inl _ => None | inr v => Some (kr.1, v) end)
         results |}.

(** What rendering the declaration exported as [kv.1] settles to. *)
Definition settles (kv : string * tree) : string * result value :=
  (kv.1, renderToObject StringToNumber race (shape (getVNode kv.2)) []).

End Driver.

Definition rejected (kr : string * result value) : option (string * exn) :=
  match kr.2 with inl e => Some (kr.1, e) | inr _ => None end.

Definition resolved (kr : string * result value) : option (string * value) :=
  match kr.2 with inl _ => None | inr v => Some (kr.1, v) end.

(** The place, in the order of execution, of the node that the declaration
    exported as [key] stands for: what [orderOfExecution.indexOf] returns
    for it. *)
Definition position (exports : list (string * tree)) (key : string) : Z :=
  match lookup_key key exports with
  | Some t =>
      indexOf (getVNode <$> unravelOrderOfDependencies exports.*2) (getVNode t)
  | None => -1
  end.

(** * Properties *)

(** *** Reasoning principles for the resolver *)

(** Structural induction on declarations, with the hypothesis available for
    every entry of [deps]. *)
Lemma tree_ind (P : tree → Prop) :
  (∀ v, P (Raw v)) →
  (∀ self deps node, Forall P deps → P node →
     P (DependantNodeTree self deps node)) →
  ∀ t, P t.
Proof.
  intros HRaw HTree. fix IH 1. intros [v | self deps node].
  - apply HRaw.
  - apply HTree; [| apply IH].
    induction deps as [| dep deps IHdeps]; constructor; [apply IH | apply IHdeps].
Qed.

Lemma order_inv_init : order_inv {| visited := ∅; order := [] |}.
Proof. split; simpl; [constructor | constructor | set_solver]. Qed.

Lemma order_inv_visit r st : order_inv st → order_inv (visit r st).
Proof.
  intros [Hraw Hnd Hvis]. split; simpl; auto.
  intros t Ht. apply elem_of_union_r. auto.
Qed.

Lemma order_inv_foldl (f : tree → dfs_state → dfs_state) ts :
  Forall (λ t, ∀ st, order_inv st → order_inv (f t st)) ts →
  ∀ st, order_inv st → order_inv (foldl (λ st t, f t st) st ts).
Proof.
  induction 1 as [| t ts Ht _ IH]; intros st Hst; simpl; auto.
Qed.

Lemma order_inv_dfs t : ∀ st, order_inv st → order_inv (dfs t st).
Proof.
  induction t as [v | self deps node IHdeps IHnode] using tree_ind;
    intros st Hst; simpl.
  - destruct (decide (RVNode (addr v) ∈ visited st)) as [Hin | Hout]; [done |].
    rewrite decide_True by done.
    destruct Hst as [Hraw Hnd Hvis]. split; simpl.
    + apply Forall_app; split; [done | by repeat constructor].
    + rewrite fmap_app. apply NoDup_app. split_and!; [done | | apply NoDup_singleton].
      intros r Hr ->%list_elem_of_singleton.
      apply list_elem_of_fmap in Hr as (t & Heq & Ht).
      apply Hout. simpl in Heq. rewrite Heq. by apply Hvis.
    + intros t [Ht | ->%list_elem_of_singleton]%elem_of_app.
      * apply elem_of_union_r. by apply Hvis.
      * apply elem_of_union_l. by apply elem_of_singleton.
  - destruct (decide (RTree self ∈ visited st)); [done |].
    apply IHnode. apply order_inv_foldl; [done |].
    by apply order_inv_visit.
Qed.

Lemma order_inv_unravel trees :
  order_inv (foldl (λ st t, dfs t st) {| visited := ∅; order := [] |} trees).
Proof.
  apply order_inv_foldl; [| apply order_inv_init].
  apply Forall_forall. intros t _. apply order_inv_dfs.
Qed.


(** *** The resolver as a first-visit filter *)

Lemma subtrees_self t : t ∈ subtrees t.
Proof. destruct t; simpl; left. Qed.

Lemma subtrees_inv s self deps node :
  s ∈ subtrees (DependantNodeTree self deps node) →
  s = DependantNodeTree self deps node
  ∨ (∃ dep, dep ∈ deps ∧ s ∈ subtrees dep)
  ∨ s ∈ subtrees node.
Proof.
  simpl. intros [-> | Hin]%elem_of_cons; [by left | right].
  apply elem_of_app in Hin as [Hin | Hin]; [left | by right].
  apply list_elem_of_bind in Hin as (dep & Hs & Hdep). eauto.
Qed.

Lemma subtrees_dep s self deps node dep :
  dep ∈ deps → s ∈ subtrees dep →
  s ∈ subtrees (DependantNodeTree self deps node).
Proof.
  intros Hdep Hs. simpl. right. apply elem_of_app. left.
  apply list_elem_of_bind. eauto.
Qed.

Lemma subtrees_node s self deps node :
  s ∈ subtrees node → s ∈ subtrees (DependantNodeTree self deps node).
Proof. intros Hs. simpl. right. apply elem_of_app. by right. Qed.

Lemma sum_list_elem (l : list nat) (n : nat) : n ∈ l → (n ≤ sum_list l)%nat.
Proof. induction 1; simpl; lia. Qed.

Lemma subtrees_size t : ∀ s, s ∈ subtrees t → s = t ∨ tree_size s < tree_size t.
Proof.
  induction t as [v | self deps node IHdeps IHnode] using tree_ind; intros s Hs.
  - left. simpl in Hs. by apply list_elem_of_singleton in Hs.
  - apply subtrees_inv in Hs as [-> | [(dep & Hdep & Hs) | Hs]]; [by left | |];
      right; simpl.
    + assert (tree_size dep ≤ sum_list (tree_size <$> deps)).
      { apply sum_list_elem, list_elem_of_fmap. eauto. }
      rewrite Forall_forall in IHdeps.
      destruct (IHdeps dep Hdep s Hs) as [-> | ?]; lia.
    + destruct (IHnode s Hs) as [-> | ?]; lia.
Qed.

Lemma subtrees_trans t : ∀ s u, s ∈ subtrees t → u ∈ subtrees s → u ∈ subtrees t.
Proof.
  induction t as [v | self deps node IHdeps IHnode] using tree_ind;
    intros s u Hs Hu.
  - apply list_elem_of_singleton in Hs as ->. done.
  - apply subtrees_inv in Hs as [-> | [(dep & Hdep & Hs) | Hs]]; [done | |].
    + rewrite Forall_forall in IHdeps. eapply subtrees_dep; eauto.
    + apply subtrees_node. eauto.
Qed.

Lemma refs_spec r t : r ∈ refs t ↔ ∃ s, s ∈ subtrees t ∧ ref_of s = r.
Proof.
  unfold refs. rewrite elem_of_list_to_set, list_elem_of_fmap. naive_solver.
Qed.

Lemma refs_raw v : refs (Raw v) = {[RVNode (addr v)]}.
Proof. unfold refs. simpl. set_solver. Qed.

Lemma refs_tree self deps node :
  refs (DependantNodeTree self deps node)
  = {[RTree self]} ∪ ⋃ (refs <$> deps) ∪ refs node.
Proof.
  apply set_eq. intros r. rewrite !elem_of_union, elem_of_union_list, !refs_spec.
  rewrite elem_of_singleton. split.
  - intros (s & Hs & <-).
    apply subtrees_inv in Hs as [-> | [(dep & Hdep & Hs) | Hs]]; [by left; left | |].
    + left; right. exists (refs dep). split; [apply list_elem_of_fmap; eauto |].
      apply refs_spec. eauto.
    + right. eauto.
  - intros [[-> | (X & HX & Hr)] | (s & Hs & <-)].
    + exists (DependantNodeTree self deps node). split; [apply subtrees_self | done].
    + apply list_elem_of_fmap in HX as (dep & -> & Hdep).
      apply refs_spec in Hr as (s & Hs & <-).
      exists s. split; [by eapply subtrees_dep | done].
    + exists s. split; [by apply subtrees_node | done].
Qed.

Lemma flatten_raw t :
  Forall (λ s, instanceof_DependantNodeTree s = false) (flatten t).
Proof.
  induction t as [v | self deps node IHdeps IHnode] using tree_ind; simpl.
  - by repeat constructor.
  - apply Forall_app. split; [| done].
    apply Forall_bind. eapply Forall_impl; [exact IHdeps | done].
Qed.

Lemma flatten_subtrees t : ∀ s, s ∈ flatten t → s ∈ subtrees t.
Proof.
  induction t as [v | self deps node IHdeps IHnode] using tree_ind;
    intros s Hs; simpl in Hs.
  - done.
  - apply elem_of_app in Hs as [Hs | Hs].
    + apply list_elem_of_bind in Hs as (dep & Hs & Hdep).
      rewrite Forall_forall in IHdeps. eapply subtrees_dep; eauto.
    + apply subtrees_node; auto.
Qed.

(** A raw node reachable from [t] is met by the plain traversal of [t]. *)
Lemma subtrees_flatten t :
  ∀ v, Raw v ∈ subtrees t → Raw v ∈ flatten t.
Proof.
  induction t as [w | self deps node IHdeps IHnode] using tree_ind; intros v Hv.
  - done.
  - apply subtrees_inv in Hv as [? | [(dep & Hdep & Hv) | Hv]]; [done | |];
      simpl; apply elem_of_app.
    + left. apply list_elem_of_bind. exists dep.
      rewrite Forall_forall in IHdeps. split; [by apply IHdeps | done].
    + right. auto.
Qed.

Lemma refs_flatten a t :
  RVNode a ∈ refs t ↔ RVNode a ∈ ref_of <$> flatten t.
Proof.
  rewrite refs_spec, list_elem_of_fmap. split.
  - intros ([v |] & Hs & Heq); [| done].
    exists (Raw v). split; [done | by apply subtrees_flatten].
  - intros (s & Heq & Hs). exists s. split; [by apply flatten_subtrees | done].
Qed.

Lemma keep_first_seen seen l :
  (∀ t, t ∈ l → ref_of t ∈ seen) → keep_first seen l = [].
Proof.
  induction l as [| t l IH]; intros Hl; simpl; [done |].
  rewrite decide_True by (apply Hl; left).
  apply IH. intros s Hs. apply Hl. by right.
Qed.

Lemma keep_first_ext l : ∀ s1 s2,
  (∀ t, t ∈ l → ref_of t ∈ s1 ↔ ref_of t ∈ s2) →
  keep_first s1 l = keep_first s2 l.
Proof.
  induction l as [| t l IH]; intros s1 s2 Hl; simpl; [done |].
  assert (Ht : ref_of t ∈ s1 ↔ ref_of t ∈ s2) by (apply Hl; left).
  destruct (decide (ref_of t ∈ s1)) as [H1 | H1];
    destruct (decide (ref_of t ∈ s2)) as [H2 | H2]; try tauto.
  - apply IH. intros s Hs. apply Hl. by right.
  - f_equal. apply IH. intros s Hs.
    rewrite !elem_of_union, !elem_of_singleton.
    assert (ref_of s ∈ s1 ↔ ref_of s ∈ s2) by (apply Hl; by right). tauto.
Qed.

Lemma keep_first_app l1 : ∀ seen l2,
  keep_first seen (l1 ++ l2)
  = keep_first seen l1 ++ keep_first (list_to_set (ref_of <$> l1) ∪ seen) l2.
Proof.
  induction l1 as [| t l1 IH]; intros seen l2; simpl.
  - f_equal. set_solver.
  - destruct (decide (ref_of t ∈ seen)) as [Hin | Hout].
    + rewrite IH. f_equal. f_equal. set_solver.
    + simpl. rewrite IH. f_equal. f_equal. f_equal. set_solver.
Qed.

(** Past the plain traversal of [t], what has been seen is [seen] and
    everything reachable from [t], as far as raw nodes can tell. *)
Lemma keep_first_flatten seen t l :
  Forall (λ s, instanceof_DependantNodeTree s = false) l →
  keep_first seen (flatten t ++ l)
  = keep_first seen (flatten t) ++ keep_first (seen ∪ refs t) l.
Proof.
  intros Hl. rewrite keep_first_app. f_equal. apply keep_first_ext.
  intros s Hs. rewrite Forall_forall in Hl. specialize (Hl s Hs).
  destruct s as [v |]; [| done]. simpl.
  rewrite !elem_of_union, elem_of_list_to_set, refs_flatten. tauto.
Qed.

Section FirstVisit.

(** [U] is the set of objects of one call: everything reachable from the
    declarations supplied, one object per address. *)
Variable U : list tree.
Hypothesis U_closed : ∀ t s, t ∈ U → s ∈ subtrees t → s ∈ U.
Hypothesis U_consistent : ∀ s1 s2, s1 ∈ U → s2 ∈ U → ref_of s1 = ref_of s2 → s1 = s2.

Lemma settled_grow active seen t :
  t ∈ U → settled U active seen → settled U active (seen ∪ refs t).
Proof.
  intros Ht Hset s Hs [Hin | Hin]%elem_of_union.
  - destruct (Hset s Hs Hin) as [? | Hsub]; [by left | right].
    intros r Hr. apply elem_of_union_l. by apply Hsub.
  - right. apply refs_spec in Hin as (s' & Hs' & Heq).
    assert (s' = s) as ->.
    { apply U_consistent; [exact (U_closed t s' Ht Hs') | done | done]. }
    intros r (u & Hu & <-)%refs_spec. apply elem_of_union_r, refs_spec.
    exists u. split; [by eapply subtrees_trans | done].
Qed.

Lemma dfs_spec_foldl active ts :
  Forall (dfs_spec U active) ts → (∀ t, t ∈ ts → t ∈ U) →
  ∀ st, settled U active (visited st) →
    let st' := foldl (λ st t, dfs t st) st ts in
    visited st' = visited st ∪ ⋃ (refs <$> ts)
    ∧ order st' = order st ++ keep_first (visited st) (ts ≫= flatten)
    ∧ settled U active (visited st').
Proof.
  induction 1 as [| t ts Ht _ IH]; intros HU st Hst; csimpl.
  - split_and!; [set_solver | by rewrite app_nil_r | done].
  - destruct (Ht st Hst) as [Hvis Hord].
    assert (Hst' : settled U active (visited (dfs t st))).
    { rewrite Hvis. apply settled_grow; [apply HU; left | done]. }
    destruct (IH (λ s Hs, HU s (list_elem_of_further _ _ _ Hs)) _ Hst')
      as (Hvis' & Hord' & Hset').
    split_and!; [| | done].
    + rewrite Hvis', Hvis. set_solver.
    + rewrite Hord', Hord, Hvis, <-app_assoc. f_equal.
      symmetry. apply keep_first_flatten.
      apply Forall_bind, Forall_forall. intros s _. apply flatten_raw.
Qed.

Lemma dfs_first_visit t :
  ∀ active, t ∈ U → (∀ s, s ∈ subtrees t → ref_of s ∉ active) →
    dfs_spec U active t.
Proof.
  induction t as [v | self deps node IHdeps IHnode] using tree_ind;
    intros active HU Hact st Hst; simpl.
  - rewrite refs_raw.
    destruct (decide (RVNode (addr v) ∈ visited st)) as [Hin | Hout].
    + split; [set_solver | by rewrite app_nil_r].
    + rewrite decide_True by done. split; [set_solver | done].
  - set (t := DependantNodeTree self deps node) in *.
    destruct (decide (RTree self ∈ visited st)) as [Hin | Hout].
    + destruct (Hst t HU Hin) as [Hbad | Hsub].
      { by destruct (Hact t (subtrees_self t)). }
      split; [set_solver |].
      change ((deps ≫= flatten) ++ flatten node) with (flatten t).
      rewrite keep_first_seen; [by rewrite app_nil_r |].
      intros s Hs%flatten_subtrees. apply Hsub, refs_spec. eauto.
    + (* the wrapper is marked, then stays active while below it *)
      assert (Hstrict : ∀ s, s ∈ subtrees t → s ≠ t → ref_of s ≠ RTree self).
      { intros s Hs Hne Heq. apply Hne, U_consistent; [by eapply U_closed | done..]. }
      assert (Hbelow : ∀ d, (d ∈ deps ∨ d = node) →
                d ∈ U ∧ ∀ s, s ∈ subtrees d → ref_of s ∉ {[RTree self]} ∪ active).
      { intros d Hd.
        assert (Hsub : ∀ s, s ∈ subtrees d → s ∈ subtrees t).
        { intros s Hs. destruct Hd as [Hd | ->];
            [by eapply subtrees_dep | by apply subtrees_node]. }
        assert (Hlt : tree_size d < tree_size t).
        { destruct Hd as [Hd | ->]; simpl; [| lia].
          pose proof (sum_list_elem (tree_size <$> deps) (tree_size d)) as Hle.
          cut (tree_size d ≤ sum_list (tree_size <$> deps)); [lia |].
          apply Hle, list_elem_of_fmap. eauto. }
        split; [apply (U_closed t); [done | apply Hsub, subtrees_self] |].
        intros s Hs [Heq%elem_of_singleton | Hin]%elem_of_union.
        - apply (Hstrict s); [by apply Hsub | | done].
          intros ->. apply subtrees_size in Hs as [-> | ?]; lia.
        - by apply (Hact s (Hsub s Hs)). }
      set (active' := {[RTree self]} ∪ active).
      assert (Hst1 : settled U active' (visited (visit (RTree self) st))).
      { intros s Hs [->%elem_of_singleton | Hv]%elem_of_union.
        - left. apply elem_of_union_l. by apply elem_of_singleton.
        - destruct (Hst s Hs Hv) as [? | Hsub]; [left; by apply elem_of_union_r |].
          right. intros r Hr. apply elem_of_union_r. by apply Hsub. }
      assert (Hdeps : Forall (dfs_spec U active') deps).
      { rewrite Forall_forall in IHdeps |- *. intros d Hd.
        destruct (Hbelow d (or_introl Hd)). by apply IHdeps. }
      destruct (dfs_spec_foldl active' deps Hdeps
                  (λ d Hd, proj1 (Hbelow d (or_introl Hd))) _ Hst1)
        as (Hvis1 & Hord1 & Hst2).
      destruct (Hbelow node (or_intror eq_refl)) as [HUn Hactn].
      destruct (IHnode active' HUn Hactn _ Hst2) as [Hvis2 Hord2].
      split.
      * rewrite Hvis2, Hvis1. unfold t. rewrite refs_tree. simpl. set_solver.
      * rewrite Hord2, Hord1, Hvis1. simpl. rewrite <-app_assoc. f_equal.
        rewrite keep_first_app.
        rewrite (keep_first_ext (deps ≫= flatten) ({[RTree self]} ∪ visited st) (visited st)).
        2:{ intros s Hs. rewrite elem_of_union, elem_of_singleton.
            assert (Hraw : instanceof_DependantNodeTree s = false).
            { revert s Hs. apply Forall_forall, Forall_bind, Forall_forall.
              intros d _. apply flatten_raw. }
            destruct s; [| done]. simpl. split; [intros [? | ?]; done | auto]. }
        f_equal. apply keep_first_ext.
        intros s Hs.
        assert (Hraw : instanceof_DependantNodeTree s = false).
        { revert s Hs. apply Forall_forall, flatten_raw. }
        destruct s as [v |]; [| done]. simpl.
        rewrite !elem_of_union, elem_of_singleton, elem_of_list_to_set.
        rewrite elem_of_union_list.
        split.
        -- intros [[? | ?] | (X & HX & Hr)]; [done | by right |].
           apply list_elem_of_fmap in HX as (d & -> & Hd).
           left. apply list_elem_of_fmap.
           apply refs_flatten, list_elem_of_fmap in Hr as (s & Heq & Hs').
           exists s. split; [done |]. apply list_elem_of_bind. eauto.
        -- intros [Hl | ?]; [| left; by right].
           apply list_elem_of_fmap in Hl as (s & Heq & Hs').
           apply list_elem_of_bind in Hs' as (d & Hs' & Hd).
           right. exists (refs d). split; [apply list_elem_of_fmap; eauto |].
           apply refs_flatten, list_elem_of_fmap. eauto.
Qed.

End FirstVisit.

Lemma unravel_first_visit trees :
  consistent trees →
  unravelOrderOfDependencies trees = keep_first ∅ (trees ≫= flatten).
Proof.
  intros Hcons. set (U := trees ≫= subtrees).
  assert (Hclosed : ∀ t s, t ∈ U → s ∈ subtrees t → s ∈ U).
  { intros t s (t0 & Ht & Ht0)%list_elem_of_bind Hs.
    apply list_elem_of_bind. exists t0. split; [by eapply subtrees_trans | done]. }
  assert (Hall : Forall (dfs_spec U ∅) trees).
  { apply Forall_forall. intros t Ht.
    apply dfs_first_visit; [done | done | | set_solver].
    apply list_elem_of_bind. exists t. split; [apply subtrees_self | done]. }
  destruct (dfs_spec_foldl U Hclosed Hcons ∅ trees Hall) with
    (st := {| visited := ∅; order := [] |}) as (_ & Hord & _).
  - intros t Ht. apply list_elem_of_bind. exists t.
    split; [apply subtrees_self | done].
  - intros s _ Hin. set_solver.
  - exact Hord.
Qed.

Lemma keep_first_elem l : ∀ seen r,
  r ∈ ref_of <$> keep_first seen l ↔ r ∈ ref_of <$> l ∧ r ∉ seen.
Proof.
  induction l as [| t l IH]; intros seen r; simpl.
  - rewrite elem_of_nil. tauto.
  - destruct (decide (ref_of t ∈ seen)) as [Hin | Hout].
    + rewrite IH, elem_of_cons. split; [tauto |].
      intros [[-> | ?] ?]; tauto.
    + rewrite fmap_cons, !elem_of_cons, IH, elem_of_union, elem_of_singleton.
      destruct (decide (r = ref_of t)) as [-> | Hne]; tauto.
Qed.

Lemma precedes_app a b l1 l2 :
  a ∈ ref_of <$> l1 → b ∈ ref_of <$> l2 → precedes a b (l1 ++ l2).
Proof.
  intros (i & Hi)%list_elem_of_lookup (j & Hj)%list_elem_of_lookup.
  rewrite list_lookup_fmap in Hi, Hj.
  assert (i < length l1).
  { apply lookup_lt_is_Some. destruct (l1 !! i); [eauto | done]. }
  exists i, (length l1 + j). split_and!; [lia | |].
  - by rewrite lookup_app_l.
  - by rewrite lookup_app_r, Nat.add_comm, Nat.add_sub by lia.
Qed.

(** In a first-visit filter, what is met first comes out first. *)
Lemma first_visit_precedes a b l1 l2 :
  a ∈ ref_of <$> l1 → b ∈ ref_of <$> l2 → b ∉ ref_of <$> l1 →
  precedes a b (keep_first ∅ (l1 ++ l2)).
Proof.
  intros Ha Hb Hnb. rewrite keep_first_app. apply precedes_app.
  - apply keep_first_elem. split; [done | set_solver].
  - apply keep_first_elem. split; [done |].
    rewrite elem_of_union, elem_of_list_to_set. set_solver.
Qed.

Lemma flatten_getVNode t : Raw (getVNode t) ∈ flatten t.
Proof.
  induction t as [v | self deps node _ IHnode] using tree_ind; simpl.
  - left.
  - apply elem_of_app. by right.
Qed.

Lemma flatten_no_deps t : no_deps t → flatten t = [Raw (getVNode t)].
Proof.
  induction t as [v | self deps node _ IHnode] using tree_ind; simpl; [done |].
  intros [-> Hnode]. by rewrite IHnode.
Qed.

(** Closes [r ∉ s] for a visited set written out in full. *)
Ltac fresh_ref :=
  simpl; rewrite ?not_elem_of_union, ?not_elem_of_singleton;
  repeat split; first [apply not_elem_of_empty | congruence | intros [= ?]; lia].

(** The three ways through one call of [dfs]. *)
Lemma dfs_seen t st : ref_of t ∈ visited st → dfs t st = st.
Proof. intros Hin. destruct t; simpl; by rewrite decide_True. Qed.

Lemma dfs_raw_new v st :
  RVNode (addr v) ∉ visited st →
  dfs (Raw v) st = push (Raw v) (visit (RVNode (addr v)) st).
Proof. intros Hout. simpl. rewrite decide_False by done. by rewrite decide_True. Qed.

Lemma dfs_tree_new self deps node st :
  RTree self ∉ visited st →
  dfs (DependantNodeTree self deps node) st
  = dfs node (foldl (λ st dep, dfs dep st) (visit (RTree self) st) deps).
Proof. intros Hout. simpl. by rewrite decide_False. Qed.

Lemma check_deps_throws deps node :
  check_deps deps node = throw (Error "Circular dependency detected")
  ↔ Exists (λ dep, instanceof_DependantNodeTree dep = true
                   ∧ addr (getVNode dep) = addr (getVNode node)) deps.
Proof.
  induction deps as [| dep deps IH]; simpl.
  - split; [done | by inversion 1].
  - rewrite Exists_cons, <-IH. unfold same_object.
    destruct (instanceof_DependantNodeTree dep); simpl; [| naive_solver].
    case_bool_decide; naive_solver.
Qed.

Lemma check_deps_ok deps node :
  check_deps deps node = ok tt
  ↔ Forall (λ dep, instanceof_DependantNodeTree dep = false
                   ∨ addr (getVNode dep) ≠ addr (getVNode node)) deps.
Proof.
  induction deps as [| dep deps IH]; simpl.
  - split; [constructor | done].
  - rewrite Forall_cons, <-IH. unfold same_object.
    destruct (instanceof_DependantNodeTree dep); simpl; [| naive_solver].
    case_bool_decide; naive_solver.
Qed.

(** C3: wrapping [X] with a dependency that itself wraps [X] throws at
    construction; a cycle through an intermediate declaration (the
    declaration of [x] depends on one of [y], which depends on one of [x])
    is accepted at construction, and the resolver returns normally, the
    second visit of [x] being a no-op. In general [depends] throws exactly
    when one of [deps] is a wrapper standing for the node being wrapped;
    what lies deeper in [deps] is not looked at. *)
Theorem depends_one_hop_cycle_check (X : tree) (x y : VNodeObj) (next : nat) :
  addr x ≠ addr y →
  (∃ d next',
     depends [] X next = ok (d, next')
     ∧ depends [d] X next' = throw (Error "Circular dependency detected"))
  ∧ (∃ a b c n1 n2 n3,
       depends [] (Raw x) next = ok (a, n1)
       ∧ depends [a] (Raw y) n1 = ok (b, n2)
       ∧ depends [b] (Raw x) n2 = ok (c, n3)
       ∧ unravelOrderOfDependencies [c] = [Raw x; Raw y])
  ∧ (∀ deps node,
       Exists (λ dep, instanceof_DependantNodeTree dep = true
                      ∧ addr (getVNode dep) = addr (getVNode node)) deps →
       depends deps node next = throw (Error "Circular dependency detected"))
  ∧ (∀ deps node,
       Forall (λ dep, instanceof_DependantNodeTree dep = false
                      ∨ addr (getVNode dep) ≠ addr (getVNode node)) deps →
       depends deps node next = ok (DependantNodeTree next deps node, S next)).
Proof.
  intros Hxy. split_and!.
  - exists (DependantNodeTree next [] X), (S next). split; [done |].
    unfold depends. simpl. unfold same_object.
    by rewrite bool_decide_eq_true_2.
  - eexists _, _, _, _, _, _. split_and!.
    + reflexivity.
    + unfold depends. simpl. unfold same_object. simpl.
      rewrite bool_decide_eq_false_2 by done. reflexivity.
    + unfold depends. simpl. unfold same_object. simpl.
      rewrite bool_decide_eq_false_2 by done. reflexivity.
    + unfold unravelOrderOfDependencies. cbn [foldl].
      rewrite dfs_tree_new by set_solver. cbn [foldl].
      rewrite dfs_tree_new by fresh_ref. cbn [foldl].
      rewrite dfs_tree_new by fresh_ref. cbn [foldl].
      rewrite (dfs_raw_new x (visit _ _)) by fresh_ref.
      rewrite (dfs_raw_new y (push _ _)) by fresh_ref.
      rewrite dfs_seen by (simpl; set_solver).
      reflexivity.
  - intros deps node Hdeps%check_deps_throws. unfold depends. by rewrite Hdeps.
  - intros deps node Hdeps%check_deps_ok. unfold depends. by rewrite Hdeps.
Qed.

Lemma depends_one_hop_cycle_check_witness :
  let x := {| addr := 1; shape := Nullish |} in
  let y := {| addr := 2; shape := Nullish |} in
  addr x ≠ addr y
  ∧ depends [DependantNodeTree 3 [] (Raw x)] (Raw x) 4
    = throw (Error "Circular dependency detected")
  ∧ unravelOrderOfDependencies
      [DependantNodeTree 5
         [DependantNodeTree 4 [DependantNodeTree 3 [] (Raw x)] (Raw y)]
         (Raw x)]
    = [Raw x; Raw y].
Proof.
  intros x y.
  assert (Hne : addr x ≠ addr y) by (simpl; lia).
  destruct (depends_one_hop_cycle_check (Raw x) x y 3 Hne)
    as ((d & n' & Hd & Hthrow)
        & (a & b & c & n1 & n2 & n3 & Ha & Hb & Hc & Hout) & _).
  split; [exact Hne |].
  injection Hd as <- <-. injection Ha as <- <-.
  injection Hb as <- <-. injection Hc as <- <-.
  split; [exact Hthrow | exact Hout].
Defined.

(** C10: the resolver's output holds raw nodes only, never a wrapper, and
    no object twice, whatever is supplied. *)
Theorem unravel_raw_nodes_once (trees : list tree) :
  Forall (λ t, instanceof_DependantNodeTree t = false)
    (unravelOrderOfDependencies trees)
  ∧ NoDup (ref_of <$> unravelOrderOfDependencies trees).
Proof.
  destruct (order_inv_unravel trees) as [Hraw Hnd _]. by split.
Qed.

Lemma reach_flatten r trees :
  r ∈ reach trees ↔ r ∈ ref_of <$> (trees ≫= flatten).
Proof. unfold reach. by rewrite elem_of_list_to_set. Qed.

(** The output is the dependencies-first walk of the supplied declarations
    with every object kept at its first visit. So the dependency of a
    declaration comes before its node when that node was not reached
    earlier; and of two declarations the one supplied first comes first
    unless the other was reached ahead of it as a dependency: the order
    in which the nodes are first seen. *)
Lemma unravel_first_visit_order (trees : list tree) :
  consistent trees →
  unravelOrderOfDependencies trees = keep_first ∅ (trees ≫= flatten)
  ∧ (∀ pre self D1 N post,
       trees = pre ++ DependantNodeTree self [D1] N :: post →
       no_deps D1 → no_deps N → node_ref D1 ≠ node_ref N →
       node_ref N ∉ reach pre →
       precedes (node_ref D1) (node_ref N) (unravelOrderOfDependencies trees))
  ∧ (∀ pre t1 mid t2 post,
       trees = pre ++ t1 :: mid ++ t2 :: post →
       node_ref t2 ∉ reach (pre ++ [t1]) →
       precedes (node_ref t1) (node_ref t2) (unravelOrderOfDependencies trees)).
Proof.
  intros Hcons. pose proof (unravel_first_visit trees Hcons) as Hout.
  split_and!; [done | |].
  - intros pre self D1 N post -> HD1 HN Hne Hpre. rewrite Hout.
    rewrite bind_app, bind_cons. simpl.
    rewrite (flatten_no_deps D1 HD1), (flatten_no_deps N HN). simpl.
    change (?a :: ?b :: ?l) with ([a] ++ b :: l). rewrite app_assoc.
    apply first_visit_precedes.
    + rewrite fmap_app. apply elem_of_app. right. by left.
    + by left.
    + rewrite fmap_app, elem_of_app. intros [Hin | Hin].
      * by apply Hpre, reach_flatten.
      * apply list_elem_of_singleton in Hin. by apply Hne.
  - intros pre t1 mid t2 post -> Hpre. rewrite Hout.
    rewrite bind_app, bind_cons, app_assoc, bind_app, bind_cons.
    apply first_visit_precedes.
    + rewrite fmap_app. apply elem_of_app. right.
      apply list_elem_of_fmap. exists (Raw (getVNode t1)).
      split; [done | apply flatten_getVNode].
    + rewrite fmap_app. apply elem_of_app. right.
      rewrite fmap_app. apply elem_of_app. left.
      apply list_elem_of_fmap. exists (Raw (getVNode t2)).
      split; [done | apply flatten_getVNode].
    + intros Hin. apply Hpre, reach_flatten.
      by rewrite bind_app, bind_singleton.
Qed.

(** Closes [consistent l] for a sequence written out in full. *)
Ltac solve_consistent :=
  let H1 := fresh in let H2 := fresh in let Heq := fresh in
  intros ? ? H1 H2 Heq; cbn in H1, H2;
  repeat match type of H1 with
         | _ ∈ _ :: _ => apply elem_of_cons in H1 as [-> | H1]
         | _ ∈ [] => by apply elem_of_nil in H1
         end;
  repeat match type of H2 with
         | _ ∈ _ :: _ => apply elem_of_cons in H2 as [-> | H2]
         | _ ∈ [] => by apply elem_of_nil in H2
         end;
  first [reflexivity | discriminate Heq].

Example unravel_first_visit_order_example :
  let web := Raw {| addr := 1; shape := VNode (TString "kind") [Prim (PString "web")] |} in
  let app := Raw {| addr := 2; shape := VNode (TString "kind") [Prim (PString "app")] |} in
  let trees := [DependantNodeTree 3 [web] app; web] in
  consistent trees
  ∧ unravelOrderOfDependencies trees = [web; app]
  ∧ precedes (node_ref web) (node_ref app) (unravelOrderOfDependencies trees).
Proof.
  intros web app trees.
  assert (Hcons : consistent trees) by solve_consistent.
  destruct (unravel_first_visit_order trees Hcons) as (Hout & Hdep & _).
  split_and!; [exact Hcons | rewrite Hout; reflexivity |].
  apply (Hdep [] 3 web app [web]); [reflexivity | exact I | exact I | |].
  - intros [= ?].
  - apply not_elem_of_empty.
Defined.

(** C4: a declared dependency does not always come out first. A node is
    marked visited where the walk first reaches it, as a dependency of
    another declaration or as a raw node supplied by itself; when the
    wrapper that declares the dependencies of that node is reached
    later, they are walked with the node already in the output. With
    [D2 = depends([D1], n)] supplied after [depends([n], m)], or after [n]
    itself, [n] comes out before [D1]. *)
Theorem unravel_dependent_before_dependency (d1 n m : VNodeObj) (a b : nat) :
  addr d1 ≠ addr n → addr d1 ≠ addr m → addr n ≠ addr m → a ≠ b →
  let D1 := Raw d1 in
  let D2 := DependantNodeTree b [D1] (Raw n) in
  let trees := [DependantNodeTree a [Raw n] (Raw m); D2] in
  no_deps D1
  ∧ unravelOrderOfDependencies trees = [Raw n; Raw m; Raw d1]
  ∧ precedes (node_ref D2) (node_ref D1) (unravelOrderOfDependencies trees)
  ∧ ¬ precedes (node_ref D1) (node_ref D2) (unravelOrderOfDependencies trees)
  ∧ unravelOrderOfDependencies [Raw n; D2] = [Raw n; Raw d1]
  ∧ ¬ precedes (node_ref D1) (node_ref D2) (unravelOrderOfDependencies [Raw n; D2]).
Proof.
  intros Hdn Hdm Hnm Hab D1 D2 trees.
  assert (Hout : unravelOrderOfDependencies trees = [Raw n; Raw m; Raw d1]).
  { unfold unravelOrderOfDependencies, trees, D2, D1. cbn [foldl].
    rewrite (dfs_tree_new a) by set_solver. cbn [foldl].
    rewrite (dfs_raw_new n (visit _ _)) by fresh_ref.
    rewrite (dfs_raw_new m (push _ _)) by fresh_ref.
    rewrite dfs_tree_new by fresh_ref. cbn [foldl].
    rewrite (dfs_raw_new d1 (visit _ _)) by fresh_ref.
    rewrite dfs_seen by (simpl; set_solver).
    reflexivity. }
  assert (Hout' : unravelOrderOfDependencies [Raw n; D2] = [Raw n; Raw d1]).
  { unfold unravelOrderOfDependencies, D2, D1. cbn [foldl].
    rewrite (dfs_raw_new n) by set_solver.
    rewrite dfs_tree_new by fresh_ref. cbn [foldl].
    rewrite (dfs_raw_new d1 (visit _ _)) by fresh_ref.
    rewrite dfs_seen by (simpl; set_solver).
    reflexivity. }
  split_and!; [exact I | exact Hout | | | exact Hout' |].
  - rewrite Hout. exists 0, 2. split; [lia | by split].
  - rewrite Hout. intros (i & j & Hlt & _ & Hj). unfold node_ref in Hj.
    destruct j as [| [| [|]]]; [lia | | |]; simplify_eq/=; congruence.
  - rewrite Hout'. intros (i & j & Hlt & _ & Hj). unfold node_ref in Hj.
    destruct j as [| [|]]; [lia | |]; simplify_eq/=; congruence.
Qed.

Lemma unravel_dependent_before_dependency_witness :
  let d1 := {| addr := 1; shape := VNode (TString "kind") [Prim (PString "Namespace")] |} in
  let n := {| addr := 2; shape := VNode (TString "kind") [Prim (PString "Deployment")] |} in
  let m := {| addr := 3; shape := VNode (TString "kind") [Prim (PString "Service")] |} in
  let D2 := DependantNodeTree 5 [Raw d1] (Raw n) in
  let trees := [DependantNodeTree 4 [Raw n] (Raw m); D2] in
  consistent trees
  ∧ unravelOrderOfDependencies trees = [Raw n; Raw m; Raw d1]
  ∧ ¬ precedes (node_ref (Raw d1)) (node_ref D2) (unravelOrderOfDependencies trees).
Proof.
  intros d1 n m D2 trees.
  assert (H1 : addr d1 ≠ addr n) by (simpl; lia).
  assert (H2 : addr d1 ≠ addr m) by (simpl; lia).
  assert (H3 : addr n ≠ addr m) by (simpl; lia).
  assert (H4 : 4 ≠ 5) by lia.
  destruct (unravel_dependent_before_dependency d1 n m 4 5 H1 H2 H3 H4)
    as (_ & Hout & _ & Hnot & _).
  split_and!; [solve_consistent | exact Hout | exact Hnot].
Defined.

(** ** The renderer *)

Example render_end_to_end :
  renderToObject decimal first_listed
    (VNode (TString "x") [Prim (PString "hello")]) []
  = ok (VObj [("x", VStr "hello")])
  ∧ renderToObject decimal first_listed
      (VNode (TString "y") [VNode (TString "x") [Prim (PString "5")]]) []
    = ok (VObj [("y", VObj [("x", VNum (double_of_Z 5))])]).
Proof. split; reflexivity. Qed.

Lemma vnode_ind (P : vnode → Prop) :
  P Nullish → (∀ p, P (Prim p)) → P Malformed →
  (∀ tag children, Forall P children → P (VNode (TString tag) children)) →
  (∀ name e children, Forall P children →
     P (VNode (TFunction name (inl e)) children)) →
  (∀ name returned children, P returned → Forall P children →
     P (VNode (TFunction name (inr returned)) children)) →
  (∀ sym children, Forall P children → P (VNode (TSymbol sym) children)) →
  ∀ v, P v.
Proof.
  intros HNull HPrim HMal HStr HThrow HRet HSym. fix IH 1.
  intros [| p | | type children]; [exact HNull | apply HPrim | exact HMal |].
  assert (Hall : Forall P children).
  { induction children as [| c children IHc]; constructor; [apply IH | apply IHc]. }
  destruct type as [tag | name [e | returned] | sym].
  - by apply HStr.
  - by apply HThrow.
  - apply HRet; [apply IH | exact Hall].
  - by apply HSym.
Qed.

Lemma rejections_fmap {A B} (f : A → result B) (l : list A) (e : exn) :
  e ∈ rejections (f <$> l) → ∃ a, a ∈ l ∧ f a = throw e.
Proof.
  unfold rejections. intros (r & Hr & Heq)%list_elem_of_omap.
  apply list_elem_of_fmap in Hr as (a & -> & Ha).
  exists a. split; [done |]. destruct (f a); by simplify_eq.
Qed.

Lemma rejections_nil {A} (rs : list (result A)) :
  rejections rs = [] → rs = ok <$> fulfilments rs.
Proof.
  unfold rejections, fulfilments.
  induction rs as [| [e | a] rs IH]; simpl; [done | done |].
  intros Hnil. f_equal. by apply IH.
Qed.

Lemma fulfilments_ok {A} (l : list A) : fulfilments (ok <$> l) = l.
Proof. unfold fulfilments. induction l; simpl; by f_equal. Qed.

Lemma rejections_ok {A} (l : list A) : rejections (ok <$> l) = [].
Proof. unfold rejections. by induction l. Qed.

Lemma value_ind (P : value → Prop) :
  P VNull → (∀ b, P (VBool b)) → (∀ n, P (VNum n)) → (∀ s, P (VStr s)) →
  (∀ items, Forall P items → P (VArr items)) →
  (∀ props, Forall (λ kv, P kv.2) props → P (VObj props)) →
  ∀ v, P v.
Proof.
  intros HNull HBool HNum HStr HArr HObj. fix IH 1.
  intros [| b | n | s | items | props];
    [exact HNull | apply HBool | apply HNum | apply HStr | |].
  - apply HArr. induction items as [| v items IHi]; constructor; [apply IH | apply IHi].
  - apply HObj. induction props as [| [k v] props IHp]; constructor;
      [apply IH | apply IHp].
Qed.

Lemma Forall2_impl_Forall {A B} (P Q : A → B → Prop) l k :
  Forall2 P l k → Forall (λ a, ∀ b, P a b → Q a b) l → Forall2 Q l k.
Proof.
  induction 1 as [| a b l k Hab _ IH]; [constructor |].
  intros [Ha Hl]%Forall_cons. constructor; auto.
Qed.

Lemma bind_throw {A B} (r : result A) (k : A → result B) e :
  r ≫= k = throw e → r = throw e ∨ ∃ a, r = ok a ∧ k a = throw e.
Proof. destruct r as [e' | a]; [intros [= ->]; by left | right; eauto]. Qed.

Lemma bind_ok {A B} (r : result A) (k : A → result B) b :
  r ≫= k = ok b ↔ ∃ a, r = ok a ∧ k a = ok b.
Proof.
  destruct r as [e | a]; split; try done.
  - by intros (a & [=] & _).
  - eauto.
  - by intros (a' & [= <-] & Hk).
Qed.

(** *** The deep merge throws nothing but merge conflicts *)

Lemma forEach_throws merge tprops entries : ∀ output e,
  Forall (λ kv, ∀ tv e, merge tv kv.2 = throw e → ∃ key, e = merge_conflict key)
    entries →
  forEach merge tprops entries output = throw e → ∃ key, e = merge_conflict key.
Proof.
  induction entries as [| [key sv] entries IH]; intros output e Hall; [done |].
  apply Forall_cons in Hall as [Hsv Hall]. simpl in *.
  destruct sv; try (case_match; [intros [= <-] | ]); eauto.
  destruct (key_in key tprops); simpl; [| eauto].
  intros [Hm | (merged & _ & Hrest)]%bind_throw; [| eauto].
  destruct (lookup_key key tprops) as [tv |]; [eauto | done].
Qed.

Lemma deepMerge_throws source : ∀ target e,
  deepMerge target source = throw e → ∃ key, e = merge_conflict key.
Proof.
  induction source as [| | | | | sprops IH] using value_ind;
    intros target e; try by destruct target.
  destruct target as [| | | | | tprops]; try done. simpl.
  intros [Hthrow | (o & _ & [=])]%bind_throw.
  eapply forEach_throws; [| exact Hthrow].
  eapply Forall_impl; [exact IH |]. simpl. eauto.
Qed.

Lemma reduce_deepMerge_throws results : ∀ acc e,
  reduce_deepMerge acc results = throw e → ∃ key, e = merge_conflict key.
Proof.
  induction results as [| r results IH]; intros acc e; [done |]. simpl.
  intros [Hm | (acc' & _ & Hrest)]%bind_throw; [by eapply deepMerge_throws | eauto].
Qed.

Section Renderer.

Variable StringToNumber : string → number.
Variable race : list exn → nat.

#[local] Abbreviation render := (renderToObject StringToNumber race).
#[local] Abbreviation all := (Promise_all race).

Lemma Promise_all_throws {A} (rs : list (result A)) e :
  all rs = throw e → e ∈ rejections rs.
Proof.
  unfold Promise_all. destruct (rejections rs) as [| e0 es]; [done |].
  intros [= <-]. apply list_elem_of_In.
  destruct (nth_in_or_default (race (e0 :: es)) (e0 :: es) e0) as [Hin | Heq];
    [exact Hin | simpl in Heq; rewrite Heq; by left].
Qed.

Lemma Promise_all_rejects {A} (rs : list (result A)) :
  rejections rs ≠ [] → ∃ e, e ∈ rejections rs ∧ all rs = throw e.
Proof.
  intros Hne. destruct (all rs) as [e | vs] eqn:Hall.
  - exists e. split; [by apply Promise_all_throws | done].
  - unfold Promise_all in Hall. by destruct (rejections rs).
Qed.

Lemma Promise_all_ok {A} (vs : list A) : all (ok <$> vs) = ok vs.
Proof. unfold Promise_all. by rewrite rejections_ok, fulfilments_ok. Qed.

(** *** Primitive leaves *)

Lemma coerce_numeric_string s :
  s ≠ "" → isNaN (StringToNumber s) = false →
  coerce StringToNumber (PString s) = VNum (StringToNumber s).
Proof.
  intros Hs Hnum. unfold coerce. simpl.
  rewrite bool_decide_eq_false_2 by (by destruct s).
  by rewrite Hnum.
Qed.

Lemma coerce_boolean_string (b : bool) :
  let s := if b then "true" else "false" in
  isNaN (StringToNumber s) = true →
  coerce StringToNumber (PString s) = VBool b.
Proof. intros s Hnan. unfold coerce. subst s. destruct b; simpl; by rewrite Hnan. Qed.

Lemma coerce_other_string s :
  s = "" ∨ (isNaN (StringToNumber s) = true ∧ s ≠ "true" ∧ s ≠ "false") →
  coerce StringToNumber (PString s) = VStr s.
Proof.
  intros [-> | (Hnan & Ht & Hf)]; [reflexivity |]. unfold coerce. simpl.
  case_bool_decide as Hlen; [by destruct s |].
  rewrite Hnan. simpl. by rewrite !bool_decide_eq_false_2.
Qed.

Lemma coerce_number n : coerce StringToNumber (PNumber n) = VNum n.
Proof. unfold coerce. simpl. by destruct (isNaN n). Qed.

Lemma coerce_boolean b :
  coerce StringToNumber (PBoolean b) = VNum (if b then one else zero).
Proof. by destruct b. Qed.

(** C1: a boolean leaf does not pass through unchanged: [Number(true)] is
    [1], which is not NaN, so the test meant for numeric strings turns
    [true] into [1] and [false] into [0]. *)
Theorem render_boolean_leaf (b : bool) (callStack : list string) :
  render (Prim (PBoolean b)) callStack = ok (VNum (if b then one else zero))
  ∧ render (Prim (PBoolean b)) callStack ≠ ok (VBool b).
Proof. simpl. rewrite coerce_boolean. split; [done | by intros [=]]. Qed.

(** The rest of C1 holds: strings and numbers are coerced as specified. *)
Lemma render_string_number_leaf (callStack : list string) :
  (∀ s, s ≠ "" → isNaN (StringToNumber s) = false →
     render (Prim (PString s)) callStack = ok (VNum (StringToNumber s)))
  ∧ (∀ b : bool, isNaN (StringToNumber (if b then "true" else "false")) = true →
       render (Prim (PString (if b then "true" else "false"))) callStack
       = ok (VBool b))
  ∧ (∀ s, s = "" ∨ (isNaN (StringToNumber s) = true ∧ s ≠ "true" ∧ s ≠ "false") →
       render (Prim (PString s)) callStack = ok (VStr s))
  ∧ (∀ n, render (Prim (PNumber n)) callStack = ok (VNum n)).
Proof.
  simpl. split_and!.
  - intros s ? ?. by rewrite coerce_numeric_string.
  - intros b ?. by rewrite (coerce_boolean_string b).
  - intros s ?. by rewrite coerce_other_string.
  - intros n. by rewrite coerce_number.
Qed.

(** *** The branches of [renderToObject] under a string tag *)

Lemma render_single tag child callStack :
  render (VNode (TString tag) [child]) callStack
  = try_catch (callStack ++ [tag])
      (render child (callStack ++ [tag]) ≫= λ v, ok (VObj [(tag, v)])).
Proof. reflexivity. Qed.

Lemma render_many tag children callStack :
  length children ≠ 1 →
  render (VNode (TString tag) children) callStack
  = try_catch (callStack ++ [tag])
      (all ((λ c, render c (callStack ++ [tag])) <$> children)
       ≫= λ results, reduce_deepMerge (VObj []) results
       ≫= λ merged, ok (VObj [(tag, merged)])).
Proof. by destruct children as [| child [| child' children]]. Qed.

(** *** Failures *)

Lemma try_catch_throws {A} callStack (body : result A) e :
  try_catch callStack body = throw e →
  ∃ e0, body = throw e0 ∧ e = rethrow callStack e0.
Proof. destruct body as [e0 | a]; [intros [= <-]; eauto | done]. Qed.

Lemma rethrow_shape callStack e :
  (∃ m p, rethrow callStack e = OriginError m p)
  ∨ rethrow callStack e = Error "Unknown error".
Proof. destruct e; simpl; eauto. Qed.

Lemma stack_of_prefix type callStack : callStack `prefix_of` stack_of type callStack.
Proof. destruct type; simpl; [by eexists | by eexists | done]. Qed.

Lemma render_origin_prefix v : ∀ callStack m p,
  plain_throws v = true →
  render v callStack = throw (OriginError m p) → callStack `prefix_of` p.
Proof.
  induction v as [| p0 | | tag children IHc | name e children IHc
                 | name returned children IHr IHc | sym children IHc]
    using vnode_ind; intros callStack m p Hplain; try done.
  - intros [= _ <-]. reflexivity.
  - (* string tag *)
    simpl. intros (e0 & Hbody & Heq)%try_catch_throws.
    assert (Hchild : ∀ e, e ∈ rejections ((λ c, render c (callStack ++ [tag])) <$> children) →
              rethrow (callStack ++ [tag]) e = OriginError m p →
              callStack `prefix_of` p).
    { intros e (c & Hc & Hr)%rejections_fmap Hre.
      destruct e as [m' | m' p' |]; simplify_eq/=.
      - by eexists.
      - rewrite Forall_forall in IHc. etrans; [| eapply (IHc c Hc); [| exact Hr]].
        + by eexists.
        + simpl in Hplain. rewrite forallb_forall in Hplain.
          apply Hplain. by apply list_elem_of_In. }
    destruct children as [| child [| child' children]].
    + apply bind_throw in Hbody as [Hall | (rs & _ & Hbody)].
      * apply Promise_all_throws in Hall. by apply (Hchild e0).
      * apply bind_throw in Hbody as [Hm | (? & _ & [=])].
        apply reduce_deepMerge_throws in Hm as (key & ->). simplify_eq/=. by eexists.
    + apply bind_throw in Hbody as [Hr | (? & _ & [=])].
      apply (Hchild e0); [| done]. simpl. unfold rejections. simpl.
      rewrite Hr. by left.
    + apply bind_throw in Hbody as [Hall | (rs & _ & Hbody)].
      * apply Promise_all_throws in Hall. by apply (Hchild e0).
      * apply bind_throw in Hbody as [Hm | (? & _ & [=])].
        apply reduce_deepMerge_throws in Hm as (key & ->). simplify_eq/=. by eexists.
  - (* a component that throws *)
    simpl. intros [= Heq]. destruct e; simplify_eq/=. by eexists.
  - (* a component that returns *)
    simpl. intros (e0 & Hbody & Heq)%try_catch_throws.
    simpl in Hplain. apply andb_prop in Hplain as [Hplain _].
    destruct e0 as [m' | m' p' |]; simplify_eq/=; [by eexists |].
    etrans; [| by eapply IHr]. by eexists.
  - (* a symbol *)
    simpl. intros (e0 & Hbody & Heq)%try_catch_throws.
    assert (Hchild : ∀ e, e ∈ rejections ((λ c, render c callStack) <$> children) →
              rethrow callStack e = OriginError m p → callStack `prefix_of` p).
    { intros e (c & Hc & Hr)%rejections_fmap Hre.
      destruct e as [m' | m' p' |]; simplify_eq/=; [done |].
      rewrite Forall_forall in IHc. eapply (IHc c Hc); [| exact Hr].
      simpl in Hplain. rewrite forallb_forall in Hplain.
      apply Hplain. by apply list_elem_of_In. }
    destruct sym as [| | description].
    + apply bind_throw in Hbody as [Hall | (rs & _ & Hm)].
      * apply Promise_all_throws in Hall. by apply (Hchild e0).
      * apply reduce_deepMerge_throws in Hm as (key & ->). by simplify_eq/=.
    + apply bind_throw in Hbody as [Hall | (rs & _ & [=])].
      apply Promise_all_throws in Hall. by apply (Hchild e0).
    + by simplify_eq/=.
Qed.

(** What a node throws is what its [catch] makes of what was thrown
    inside its [try]: by the component, by what the component returned, by
    a child, by the merge of the children's results, or for a symbol that
    is no component. *)
Lemma render_throws_origin type children callStack e :
  render (VNode type children) callStack = throw e →
  ∃ e0, e = rethrow (stack_of type callStack) e0
    ∧ ((∃ name, type = TFunction name (inl e0))
       ∨ (∃ name returned, type = TFunction name (inr returned)
            ∧ render returned (stack_of type callStack) = throw e0)
       ∨ ((∃ tag, type = TString tag) ∧ ∃ child, children = [child]
            ∧ render child (stack_of type callStack) = throw e0)
       ∨ (fans_out type children
            ∧ e0 ∈ rejections ((λ c, render c (stack_of type callStack)) <$> children))
       ∨ (fans_out type children ∧ ∃ key, e0 = merge_conflict key)
       ∨ (∃ description, type = TSymbol (OtherSymbol description)
            ∧ e0 = Error ("Tried to render symbol Symbol(" +:+ description
                          +:+ ") as a component"))).
Proof.
  simpl. intros (e0 & Hbody & ->)%try_catch_throws. exists e0.
  split; [by destruct type |].
  destruct type as [tag | name [e | returned] | [| | description]].
  - destruct (decide (length children = 1)) as [Hone | Hmany].
    + destruct children as [| child [| child' children]]; try done.
      apply bind_throw in Hbody as [Hr | (? & _ & [=])].
      right; right; left. eauto.
    + assert (Hbody' : (all ((λ c, render c (callStack ++ [tag])) <$> children)
                        ≫= λ results, reduce_deepMerge (VObj []) results
                        ≫= λ merged, ok (VObj [(tag, merged)])) = throw e0).
      { by destruct children as [| child [| child' children]]. }
      apply bind_throw in Hbody' as [Hall | (rs & _ & Hbody')].
      * right; right; right; left. split; [done |].
        by apply Promise_all_throws.
      * apply bind_throw in Hbody' as [Hm | (? & _ & [=])].
        right; right; right; right; left. split; [done |].
        by eapply reduce_deepMerge_throws.
  - injection Hbody as <-. left. eauto.
  - right; left. eauto.
  - apply bind_throw in Hbody as [Hall | (rs & _ & Hm)].
    + right; right; right; left. split; [done |]. by apply Promise_all_throws.
    + right; right; right; right; left. split; [done |].
      by eapply reduce_deepMerge_throws.
  - apply bind_throw in Hbody as [Hall | (rs & _ & [=])].
    right; right; right; left. split; [done |]. by apply Promise_all_throws.
  - injection Hbody as <-. do 5 right. eauto.
Qed.

(** C8: every node has a [catch] around all it does, and what leaves a
    node is what that [catch] makes of what was thrown inside: an
    [OriginError] leaves as it entered; any other [Error] leaves as an
    [OriginError] with the message it had and the call stack of the node
    that caught it, whose text is that stack joined by [" > "] and then
    the message; a thrown value that is not an [Error] leaves as the plain
    [Error] "Unknown error", which the node above, for which it is an
    [Error] like any other, turns into an [OriginError] with its own call
    stack. This holds on every way through a node: a component that
    throws, what a component returns, the only child of a tag, the
    children that go through [Promise.all], the merge of their results, a
    symbol that is no component, an object that is no node. *)
Theorem render_error_context (callStack : list string) :
  (∀ tag child m p,
     render child (callStack ++ [tag]) = throw (OriginError m p) →
     render (VNode (TString tag) [child]) callStack = throw (OriginError m p))
  ∧ (∀ name returned children m p,
       render returned (callStack ++ [name]) = throw (OriginError m p) →
       render (VNode (TFunction name (inr returned)) children) callStack
       = throw (OriginError m p))
  ∧ (∀ type children,
       fans_out type children →
       let rendered := (λ c, render c (stack_of type callStack)) <$> children in
       rejections rendered ≠ [] →
       ∃ e, e ∈ rejections rendered
            ∧ render (VNode type children) callStack
              = throw (rethrow (stack_of type callStack) e)
            ∧ ∀ m p, e = OriginError m p →
                render (VNode type children) callStack = throw (OriginError m p))
  ∧ (∀ name children m,
       render (VNode (TFunction name (inl (Error m))) children) callStack
       = throw (OriginError m (callStack ++ [name]))
       ∧ OriginError_toString m (callStack ++ [name])
         = join " > " (callStack ++ [name]) +:+ String "010" "  " +:+ m)
  ∧ render Malformed callStack
    = throw (OriginError "Object is not a valid VNode" callStack)
  ∧ (∀ tag children results m,
       length children ≠ 1 →
       all ((λ c, render c (callStack ++ [tag])) <$> children) = ok results →
       reduce_deepMerge (VObj []) results = throw (Error m) →
       render (VNode (TString tag) children) callStack
       = throw (OriginError m (callStack ++ [tag])))
  ∧ (∀ name children thrown,
       render (VNode (TFunction name (inl (NonError thrown))) children) callStack
       = throw (Error "Unknown error"))
  ∧ (∀ v e, render v callStack = throw e →
       (∃ m p, e = OriginError m p) ∨ e = Error "Unknown error")
  ∧ (∀ v m p, plain_throws v = true →
       render v callStack = throw (OriginError m p) → callStack `prefix_of` p)
  ∧ (∀ tag child m,
       render child (callStack ++ [tag]) = throw (Error m) →
       render (VNode (TString tag) [child]) callStack
       = throw (OriginError m (callStack ++ [tag])))
  ∧ (∀ name returned children m,
       render returned (callStack ++ [name]) = throw (Error m) →
       render (VNode (TFunction name (inr returned)) children) callStack
       = throw (OriginError m (callStack ++ [name])))
  ∧ (∀ tag name children thrown,
       render (VNode (TString tag)
                 [VNode (TFunction name (inl (NonError thrown))) children])
         callStack
       = throw (OriginError "Unknown error" (callStack ++ [tag])))
  ∧ (∀ name name' children children' thrown,
       render (VNode (TFunction name
                        (inr (VNode (TFunction name' (inl (NonError thrown)))
                                children')))
                 children)
         callStack
       = throw (OriginError "Unknown error" (callStack ++ [name])))
  ∧ (∀ name children m p,
       render (VNode (TFunction name (inl (OriginError m p))) children) callStack
       = throw (OriginError m p))
  ∧ (∀ type children,
       fans_out type children →
       let rendered := (λ c, render c (stack_of type callStack)) <$> children in
       rejections rendered ≠ [] →
       ∃ e, e ∈ rejections rendered
            ∧ ∀ m, e = Error m →
                render (VNode type children) callStack
                = throw (OriginError m (stack_of type callStack)))
  ∧ (∀ children results m,
       all ((λ c, render c callStack) <$> children) = ok results →
       reduce_deepMerge (VObj []) results = throw (Error m) →
       render (VNode (TSymbol FragmentSymbol) children) callStack
       = throw (OriginError m callStack))
  ∧ (∀ description children,
       render (VNode (TSymbol (OtherSymbol description)) children) callStack
       = throw (OriginError ("Tried to render symbol Symbol(" +:+ description
                             +:+ ") as a component") callStack))
  ∧ (∀ type children e,
       render (VNode type children) callStack = throw e →
       ∃ e0,
         match e0 with
         | OriginError m p => e = OriginError m p
         | Error m => e = OriginError m (stack_of type callStack)
         | NonError _ => e = Error "Unknown error"
         end
         ∧ ((∃ name, type = TFunction name (inl e0))
            ∨ (∃ name returned, type = TFunction name (inr returned)
                 ∧ render returned (stack_of type callStack) = throw e0)
            ∨ ((∃ tag, type = TString tag) ∧ ∃ child, children = [child]
                 ∧ render child (stack_of type callStack) = throw e0)
            ∨ (fans_out type children
                 ∧ e0 ∈ rejections
                          ((λ c, render c (stack_of type callStack)) <$> children))
            ∨ (fans_out type children ∧ ∃ key, e0 = merge_conflict key)
            ∨ (∃ description, type = TSymbol (OtherSymbol description)
                 ∧ e0 = Error ("Tried to render symbol Symbol(" +:+ description
                               +:+ ") as a component")))).
Proof.
  assert (Hfan : ∀ type children,
            fans_out type children →
            let rendered := (λ c, render c (stack_of type callStack)) <$> children in
            rejections rendered ≠ [] →
            ∃ e, e ∈ rejections rendered
                 ∧ render (VNode type children) callStack
                   = throw (rethrow (stack_of type callStack) e)).
  { intros type children Hfan rendered Hrej.
    destruct (Promise_all_rejects rendered Hrej) as (e & He & Hall).
    exists e. split; [done |]. subst rendered.
    destruct type as [tag | name call | [| | description]]; try done.
    - destruct children as [| child [| child' children]];
        [by destruct Hrej | done |].
      simpl in Hall |- *. by rewrite Hall.
    - simpl in Hall |- *. by rewrite Hall.
    - simpl in Hall |- *. by rewrite Hall. }
  split_and!.
  - intros tag child m p Hchild. simpl. by rewrite Hchild.
  - intros name returned children m p Hret. simpl. by rewrite Hret.
  - intros type children Hf rendered Hrej.
    destruct (Hfan type children Hf Hrej) as (e & He & Hnode).
    exists e. split; [done |]. split; [done |]. intros m p ->. by rewrite Hnode.
  - done.
  - done.
  - intros tag children results m Hlen Hall Hmerge. simpl.
    destruct children as [| child [| child' children]]; [| done |];
      by rewrite Hall; simpl; rewrite Hmerge.
  - done.
  - intros [| p0 | | type children] e; try done.
    + intros [= <-]. left. eauto.
    + simpl. intros (e0 & _ & ->)%try_catch_throws. apply rethrow_shape.
  - intros v m p. apply render_origin_prefix.
  - intros tag child m Hchild. simpl. by rewrite Hchild.
  - intros name returned children m Hret. simpl. by rewrite Hret.
  - done.
  - done.
  - done.
  - intros type children Hf rendered Hrej.
    destruct (Hfan type children Hf Hrej) as (e & He & Hnode).
    exists e. split; [done |]. intros m ->. by rewrite Hnode.
  - intros children results m Hall Hmerge. simpl.
    by rewrite Hall; simpl; rewrite Hmerge.
  - done.
  - intros type children e (e0 & -> & Hfrom)%render_throws_origin.
    exists e0. split; [by destruct e0 | done].
Qed.

(** *** Successful results do not depend on the call stack *)

Lemma Promise_all_ok_inv {A} (rs : list (result A)) vs :
  all rs = ok vs ↔ rs = ok <$> vs.
Proof.
  split; [| intros ->; apply Promise_all_ok].
  unfold Promise_all. destruct (rejections rs) eqn:Hrej; [| done].
  intros [= <-]. by apply rejections_nil.
Qed.

Lemma rendered_all_ok (children : list vnode) callStack results :
  (λ c, render c callStack) <$> children = ok <$> results
  ↔ Forall2 (λ c v, render c callStack = ok v) children results.
Proof.
  revert results. induction children as [| c children IH]; intros [| v results];
    simpl; split; try done; try by inversion 1.
  - intros [= Hc Hrest]. constructor; [done | by apply IH].
  - inversion 1; subst. f_equal; [done | by apply IH].
Qed.

Lemma render_stack_irrelevant v : ∀ callStack callStack' w,
  render v callStack = ok w → render v callStack' = ok w.
Proof.
  induction v as [| p0 | | tag children IHc | name e children IHc
                 | name returned children IHr IHc | sym children IHc]
    using vnode_ind; intros callStack callStack' w; try done.
  - (* string tag *)
    assert (Hall : ∀ cs cs' results,
              all ((λ c, render c cs) <$> children) = ok results →
              all ((λ c, render c cs') <$> children) = ok results).
    { intros cs cs' results. rewrite !Promise_all_ok_inv, !rendered_all_ok.
      intros Hall. eapply Forall2_impl_Forall; [exact Hall |].
      eapply Forall_impl; [exact IHc |]. simpl. eauto. }
    destruct (decide (length children = 1)) as [Hone | Hmany].
    + destruct children as [| child [| child' children]]; try done.
      apply Forall_cons in IHc as [IHchild _]. rewrite !render_single.
      destruct (render child (callStack ++ [tag])) as [e | v] eqn:Hchild; [done |].
      by rewrite (IHchild _ (callStack' ++ [tag]) _ Hchild).
    + rewrite !render_many by done.
      destruct (all ((λ c, render c (callStack ++ [tag])) <$> children))
        as [e | results] eqn:Hres; [done |].
      rewrite (Hall _ (callStack' ++ [tag]) _ Hres). unfold try_catch. simpl.
      by destruct (reduce_deepMerge (VObj []) results).
  - (* a component that returns *)
    simpl. unfold try_catch.
    destruct (render returned (callStack ++ [name])) as [e | v] eqn:Hret; [done |].
    by rewrite (IHr _ (callStack' ++ [name]) _ Hret).
  - (* a symbol *)
    assert (Hall : ∀ results,
              all ((λ c, render c callStack) <$> children) = ok results →
              all ((λ c, render c callStack') <$> children) = ok results).
    { intros results. rewrite !Promise_all_ok_inv, !rendered_all_ok.
      intros Hall. eapply Forall2_impl_Forall; [exact Hall |].
      eapply Forall_impl; [exact IHc |]. simpl. eauto. }
    simpl. unfold try_catch. destruct sym as [| | description]; [| | done].
    + destruct (all ((λ c, render c callStack) <$> children))
        as [e | results] eqn:Hres; [done |].
      rewrite (Hall results eq_refl). simpl.
      by destruct (reduce_deepMerge (VObj []) results).
    + destruct (all ((λ c, render c callStack) <$> children))
        as [e | results] eqn:Hres; [done |].
      by rewrite (Hall results eq_refl).
Qed.

Lemma reduce_deepMerge_snoc results : ∀ acc r,
  reduce_deepMerge acc (results ++ [r])
  = reduce_deepMerge acc results ≫= λ acc, deepMerge acc r.
Proof.
  induction results as [| r0 results IH]; intros acc r; simpl.
  - by destruct (deepMerge acc r).
  - destruct (deepMerge acc r0) as [e | acc']; [done |]. apply IH.
Qed.

(** C5: under a string tag, one child gives [{tag: render(child)}] as it
    is; any other number of children gives [{tag: m}], [m] being their
    results merged one after the other, in the order of the children,
    into an object that starts empty. *)
Theorem render_string_tag (tag : string) (callStack : list string) :
  (∀ child callStack' v,
     render child callStack' = ok v →
     render (VNode (TString tag) [child]) callStack = ok (VObj [(tag, v)]))
  ∧ (∀ child w,
       render (VNode (TString tag) [child]) callStack = ok w →
       ∃ v, render child (callStack ++ [tag]) = ok v ∧ w = VObj [(tag, v)])
  ∧ (∀ children results merged,
       length children ≠ 1 →
       Forall2 (λ c v, ∃ callStack', render c callStack' = ok v) children results →
       reduce_deepMerge (VObj []) results = ok merged →
       render (VNode (TString tag) children) callStack = ok (VObj [(tag, merged)]))
  ∧ (∀ children w,
       length children ≠ 1 →
       render (VNode (TString tag) children) callStack = ok w →
       ∃ results merged,
         Forall2 (λ c v, render c (callStack ++ [tag]) = ok v) children results
         ∧ reduce_deepMerge (VObj []) results = ok merged
         ∧ w = VObj [(tag, merged)])
  ∧ (∀ acc, reduce_deepMerge acc [] = ok acc)
  ∧ (∀ acc results r,
       reduce_deepMerge acc (results ++ [r])
       = reduce_deepMerge acc results ≫= λ acc, deepMerge acc r).
Proof.
  split_and!.
  - intros child callStack' v Hchild. simpl.
    by rewrite (render_stack_irrelevant child _ (callStack ++ [tag]) _ Hchild).
  - intros child w. simpl.
    destruct (render child (callStack ++ [tag])) as [e | v]; [done |].
    intros [= <-]. eauto.
  - intros children results merged Hlen Hall Hmerge.
    assert (Hres : all ((λ c, render c (callStack ++ [tag])) <$> children) = ok results).
    { apply Promise_all_ok_inv, rendered_all_ok.
      eapply Forall2_impl; [exact Hall |]. intros c v (callStack' & Hc).
      by eapply render_stack_irrelevant. }
    rewrite render_many by done. by rewrite Hres; simpl; rewrite Hmerge.
  - intros children w Hlen Hw.
    assert (Hbody : (all ((λ c, render c (callStack ++ [tag])) <$> children)
                     ≫= λ results, reduce_deepMerge (VObj []) results
                     ≫= λ merged, ok (VObj [(tag, merged)])) = ok w).
    { rewrite render_many in Hw by done. unfold try_catch in Hw.
      by case_match. }
    apply bind_ok in Hbody as (results & Hres & Hbody).
    apply bind_ok in Hbody as (merged & Hmerge & [= <-]).
    exists results, merged. split_and!; [| done | done].
    by apply rendered_all_ok, Promise_all_ok_inv.
  - done.
  - intros acc results r. apply reduce_deepMerge_snoc.
Qed.

End Renderer.

Lemma render_error_context_witness :
  let failing := VNode (TFunction "Containers" (inl (Error "boom"))) [] in
  let spec := VNode (TString "spec") [failing] in
  let odd := VNode (TFunction "Containers" (inl (NonError (VStr "boom")))) [] in
  renderToObject decimal first_listed failing ["Deployment"; "spec"]
  = throw (OriginError "boom" ["Deployment"; "spec"; "Containers"])
  ∧ renderToObject decimal first_listed spec ["Deployment"]
    = throw (OriginError "boom" ["Deployment"; "spec"; "Containers"])
  ∧ OriginError_toString "boom" ["Deployment"; "spec"; "Containers"]
    = "Deployment > spec > Containers" +:+ String "010" "  boom"
  ∧ renderToObject decimal first_listed odd ["Deployment"; "spec"]
    = throw (Error "Unknown error")
  ∧ renderToObject decimal first_listed (VNode (TString "spec") [odd])
      ["Deployment"]
    = throw (OriginError "Unknown error" ["Deployment"; "spec"]).
Proof.
  intros failing spec odd.
  destruct (render_error_context decimal first_listed ["Deployment"])
    as (Hone & _ & _ & _ & _ & _ & _ & _ & _ & _ & _ & Hodd & _).
  destruct (render_error_context decimal first_listed ["Deployment"; "spec"])
    as (_ & _ & _ & _ & _ & _ & Hnon & _).
  split_and!; [reflexivity | | reflexivity | | ].
  - apply (Hone "spec" failing "boom" ["Deployment"; "spec"; "Containers"]).
    reflexivity.
  - apply (Hnon "Containers" [] (VStr "boom")).
  - apply (Hodd "spec" "Containers" [] (VStr "boom")).
Defined.

Lemma render_string_tag_witness :
  let one_child := VNode (TString "replicas") [Prim (PString "3")] in
  let two_children :=
    VNode (TString "metadata")
      [VNode (TString "name") [Prim (PString "web")];
       VNode (TString "namespace") [Prim (PString "testing")]] in
  renderToObject decimal first_listed one_child []
  = ok (VObj [("replicas", VNum (double_of_Z 3))])
  ∧ renderToObject decimal first_listed two_children []
    = ok (VObj [("metadata",
                 VObj [("name", VStr "web"); ("namespace", VStr "testing")])]).
Proof.
  intros one_child two_children.
  destruct (render_string_tag decimal first_listed "replicas" [])
    as (Hone & _).
  destruct (render_string_tag decimal first_listed "metadata" [])
    as (_ & _ & Hmany & _).
  split.
  - apply (Hone (Prim (PString "3")) []). reflexivity.
  - apply (Hmany _ [VObj [("name", VStr "web")]; VObj [("namespace", VStr "testing")]]).
    + simpl. lia.
    + repeat constructor; by exists [].
    + reflexivity.
Defined.

(** ** The deep merge *)

Section Props.
Context {V : Type}.
Implicit Types (o : list (string * V)) (key : string) (v : V).

Lemma lookup_key_None key o : lookup_key key o = None ↔ key ∉ o.*1.
Proof.
  induction o as [| [k w] o IH]; simpl.
  - split; [intros _; apply not_elem_of_nil | done].
  - rewrite not_elem_of_cons. case_decide; [split; [done | naive_solver] |].
    rewrite IH. naive_solver.
Qed.

Lemma lookup_key_elem key v o :
  NoDup o.*1 → (key, v) ∈ o → lookup_key key o = Some v.
Proof.
  induction o as [| [k w] o IH]; simpl; [by intros _ ?%elem_of_nil |].
  intros [Hk Hnd]%NoDup_cons [[= <- <-] | Hin]%elem_of_cons.
  - by rewrite decide_True.
  - rewrite decide_False; [by apply IH |].
    intros ->. apply Hk. apply list_elem_of_fmap. by exists (key, v).
Qed.

Lemma lookup_key_Some key v o : lookup_key key o = Some v → (key, v) ∈ o.
Proof.
  induction o as [| [k w] o IH]; simpl; [done |].
  case_decide as Hk; [intros [= ->]; subst; left | right; auto].
Qed.

Lemma has_own_true key o : has_own key o = true ↔ key ∈ o.*1.
Proof. unfold has_own. by rewrite bool_decide_eq_true. Qed.

Lemma has_own_false key o : has_own key o = false ↔ key ∉ o.*1.
Proof. unfold has_own. by rewrite bool_decide_eq_false. Qed.

Lemma key_in_own key o : key ∈ o.*1 → key_in key o = true.
Proof. intros Hin. unfold key_in. by rewrite (proj2 (has_own_true _ _) Hin). Qed.

Lemma key_in_inherited key o : inherited key = true → key_in key o = true.
Proof. intros Hin. unfold key_in. rewrite Hin. apply orb_true_r. Qed.

Lemma key_in_true key o :
  key_in key o = true ↔ (key ∈ o.*1) ∨ inherited key = true.
Proof. unfold key_in. by rewrite orb_true_iff, has_own_true. Qed.

Lemma key_in_false key o :
  key_in key o = false ↔ (key ∉ o.*1) ∧ inherited key = false.
Proof. unfold key_in. by rewrite orb_false_iff, has_own_false. Qed.

Lemma lookup_key_key_in key v o : lookup_key key o = Some v → key_in key o = true.
Proof.
  intros Hv. apply key_in_own. apply lookup_key_Some in Hv.
  apply list_elem_of_fmap. by exists (key, v).
Qed.

Lemma update_keys key v o : (update key v o).*1 = o.*1.
Proof.
  induction o as [| [k w] o IH]; simpl; [done |].
  case_decide; simpl; [done | by f_equal].
Qed.

Lemma lookup_update_eq key v o :
  key ∈ o.*1 → lookup_key key (update key v o) = Some v.
Proof.
  induction o as [| [k w] o IH]; simpl; [by intros ?%elem_of_nil |].
  case_decide as Hk; simpl; [by rewrite decide_True |].
  intros [? | Hin]%elem_of_cons; [done |]. rewrite decide_False by done. auto.
Qed.

Lemma lookup_update_ne key key' v o :
  key ≠ key' → lookup_key key' (update key v o) = lookup_key key' o.
Proof.
  intros Hne. induction o as [| [k w] o IH]; simpl; [done |].
  case_decide as Hk; simpl; [subst; by rewrite !decide_False |].
  by rewrite IH.
Qed.

Lemma insert_index_Permutation i key v o : insert_index i key v o ≡ₚ (key, v) :: o.
Proof.
  induction o as [| [k w] o IH]; simpl; [done |].
  destruct (array_index k) as [j |]; [| done].
  destruct (j <? i)%N; [| done]. rewrite IH. apply Permutation_swap.
Qed.

Lemma lookup_insert_index_eq i key v o :
  key ∉ o.*1 → lookup_key key (insert_index i key v o) = Some v.
Proof.
  induction o as [| [k w] o IH]; simpl; [by rewrite decide_True |].
  intros [Hne Hout]%not_elem_of_cons.
  destruct (array_index k) as [j |]; [| simpl; by rewrite decide_True].
  destruct (j <? i)%N; simpl; [| by rewrite decide_True].
  rewrite decide_False by done. auto.
Qed.

Lemma lookup_insert_index_ne i key key' v o :
  key ≠ key' → lookup_key key' (insert_index i key v o) = lookup_key key' o.
Proof.
  intros Hne. induction o as [| [k w] o IH]; simpl; [by rewrite decide_False |].
  destruct (array_index k) as [j |]; [| simpl; by rewrite decide_False].
  destruct (j <? i)%N; simpl; [| by rewrite decide_False].
  by rewrite IH.
Qed.

Lemma assign_old key v o : key ∈ o.*1 → assign key v o = update key v o.
Proof. intros Hin. unfold assign. by rewrite (proj2 (has_own_true _ _) Hin). Qed.

Lemma assign_new key v o :
  key ∉ o.*1 → array_index key = None → assign key v o = o ++ [(key, v)].
Proof.
  intros Hout Hkey. unfold assign.
  by rewrite (proj2 (has_own_false _ _) Hout), Hkey.
Qed.

Lemma assign_keys_old key v o : key ∈ o.*1 → (assign key v o).*1 = o.*1.
Proof. intros Hin. rewrite assign_old by done. apply update_keys. Qed.

Lemma assign_keys key v o :
  array_index key = None →
  (assign key v o).*1 = if decide (key ∈ o.*1) then o.*1 else o.*1 ++ [key].
Proof.
  intros Hkey. case_decide as Hin; [by apply assign_keys_old |].
  by rewrite assign_new, fmap_app.
Qed.

(** A new property is one property more, wherever it goes. *)
Lemma assign_Permutation key v o :
  key ∉ o.*1 → assign key v o ≡ₚ (key, v) :: o.
Proof.
  intros Hout. unfold assign. rewrite (proj2 (has_own_false _ _) Hout).
  destruct (array_index key) as [i |]; [apply insert_index_Permutation |].
  by rewrite Permutation_app_comm.
Qed.

Lemma elem_of_assign_keys k key v o :
  k ∈ (assign key v o).*1 ↔ k = key ∨ k ∈ o.*1.
Proof.
  destruct (decide (key ∈ o.*1)) as [Hin | Hout].
  - rewrite assign_keys_old by done. naive_solver.
  - rewrite (assign_Permutation key v o Hout). simpl. apply elem_of_cons.
Qed.

Lemma NoDup_assign key v o : NoDup o.*1 → NoDup (assign key v o).*1.
Proof.
  intros Hnd. destruct (decide (key ∈ o.*1)) as [Hin | Hout].
  - by rewrite assign_keys_old.
  - rewrite (assign_Permutation key v o Hout). simpl. by apply NoDup_cons.
Qed.

Lemma key_in_assign k key v o :
  key_in k (assign key v o) = bool_decide (k = key) || key_in k o.
Proof.
  apply eq_true_iff_eq. rewrite orb_true_iff, !key_in_true, bool_decide_eq_true.
  rewrite elem_of_assign_keys. tauto.
Qed.

Lemma lookup_assign_eq key v o : lookup_key key (assign key v o) = Some v.
Proof.
  unfold assign. destruct (has_own key o) eqn:Hown.
  - apply lookup_update_eq. by apply has_own_true.
  - apply has_own_false in Hown.
    destruct (array_index key) as [i |]; [by apply lookup_insert_index_eq |].
    induction o as [| [k w] o IH]; simpl; [by rewrite decide_True |].
    apply not_elem_of_cons in Hown as [Hne Hown].
    rewrite decide_False by done. auto.
Qed.

Lemma lookup_assign_ne key key' v o :
  key ≠ key' → lookup_key key' (assign key v o) = lookup_key key' o.
Proof.
  intros Hne. unfold assign. destruct (has_own key o).
  - by apply lookup_update_ne.
  - destruct (array_index key) as [i |]; [by apply lookup_insert_index_ne |].
    induction o as [| [k w] o IH]; simpl; [by rewrite decide_False |].
    case_decide; [done | apply IH].
Qed.

End Props.

Lemma filter_ext_elem {A} (P Q : A → Prop)
    `{!∀ x, Decision (P x)} `{!∀ x, Decision (Q x)} (l : list A) :
  (∀ x, x ∈ l → P x ↔ Q x) → filter P l = filter Q l.
Proof.
  induction l as [| a l IH]; intros Hl; [done |].
  rewrite !filter_cons. rewrite IH by (intros x Hx; apply Hl; by right).
  assert (P a ↔ Q a) by (apply Hl; left).
  destruct (decide (P a)), (decide (Q a)); tauto.
Qed.

Lemma deepMerge_objects_unfold tprops sprops :
  deepMerge (VObj tprops) (VObj sprops)
  = forEach deepMerge tprops sprops tprops ≫= λ output, ok (VObj output).
Proof. reflexivity. Qed.

(** One round of the loop either throws or goes on with [output] extended
    at [key]. *)
Lemma forEach_step merge tprops key sv entries output r :
  forEach merge tprops ((key, sv) :: entries) output = ok r →
  ∃ v, forEach merge tprops entries (assign key v output) = ok r
       ∧ match sv with
         | VObj _ =>
             match lookup_key key tprops with
             | Some tv => merge tv sv = ok v
             | None => v = if inherited key then VObj [] else sv
             end
         | VArr sitems =>
             v = VArr match lookup_key key tprops with
                      | Some (VArr titems) => titems ++ sitems
                      | _ => sitems
                      end
         | _ => v = sv ∧ key_in key output = false
         end.
Proof.
  simpl. destruct sv; try (destruct (key_in key output); [done | by eauto]).
  - eauto.
  - destruct (lookup_key key tprops) as [tv |] eqn:Ht.
    + rewrite (lookup_key_key_in _ _ _ Ht). simpl.
      intros (merged & Hm & Hrest)%bind_ok. eauto.
    + apply lookup_key_None in Ht. unfold key_in.
      rewrite (proj2 (has_own_false _ _) Ht). simpl.
      destruct (inherited key); simpl; eauto.
Qed.

Lemma forEach_keys merge tprops entries : ∀ output r,
  NoDup entries.*1 →
  Forall (λ key, array_index key = None) entries.*1 →
  forEach merge tprops entries output = ok r →
  r.*1 = output.*1 ++ filter (λ k, k ∉ output.*1) entries.*1.
Proof.
  induction entries as [| [key sv] entries IH]; intros output r Hnd Hplain.
  - intros [= <-]. by rewrite app_nil_r.
  - apply NoDup_cons in Hnd as [Hkey Hnd].
    apply Forall_cons in Hplain as [Hk Hplain].
    intros (v & Hrest & _)%forEach_step. rewrite (IH _ _ Hnd Hplain Hrest).
    rewrite assign_keys by done. simpl. rewrite filter_cons.
    destruct (decide (key ∈ output.*1)) as [Hin | Hout].
    + by rewrite decide_False by tauto.
    + rewrite decide_True by done. rewrite <-app_assoc. simpl. do 2 f_equal.
      apply filter_ext_elem. intros k Hk'.
      rewrite not_elem_of_app, not_elem_of_cons. split; [tauto |].
      intros ?. split_and!; [done | | apply not_elem_of_nil]. by intros ->.
Qed.

Lemma forEach_lookup_other merge tprops key entries : ∀ output r,
  key ∉ entries.*1 →
  forEach merge tprops entries output = ok r →
  lookup_key key r = lookup_key key output.
Proof.
  induction entries as [| [k sv] entries IH]; intros output r Hkey.
  - by intros [= <-].
  - apply not_elem_of_cons in Hkey as [Hne Hkey].
    intros (v & Hrest & _)%forEach_step.
    rewrite (IH _ _ Hkey Hrest). by apply lookup_assign_ne.
Qed.

Lemma forEach_disjoint merge tprops entries : ∀ output,
  NoDup entries.*1 →
  (∀ k, k ∈ entries.*1 →
     (k ∉ tprops.*1) ∧ (k ∉ output.*1)
     ∧ inherited k = false ∧ array_index k = None) →
  forEach merge tprops entries output = ok (output ++ entries).
Proof.
  induction entries as [| [key sv] entries IH]; intros output Hnd Hdis.
  - simpl. by rewrite app_nil_r.
  - apply NoDup_cons in Hnd as [Hkey Hnd].
    destruct (Hdis key) as (Ht & Ho & Hinh & Hidx); [left |].
    assert (Hkt : key_in key tprops = false) by by apply key_in_false.
    assert (Hko : key_in key output = false) by by apply key_in_false.
    apply lookup_key_None in Ht.
    assert (Hnext : ∀ v, forEach merge tprops entries (assign key v output)
                         = ok (output ++ (key, v) :: entries)).
    { intros v. rewrite assign_new by done. rewrite IH; [| done |].
      - by rewrite <-app_assoc.
      - intros k Hk. destruct (Hdis k) as (? & ? & ? & ?); [by right |].
        split_and!; [done | | done | done].
        rewrite fmap_app, not_elem_of_app. split; [done |].
        simpl. rewrite not_elem_of_cons. split; [by intros -> | apply not_elem_of_nil]. }
    simpl. rewrite Ht, Hkt, Hko. simpl. destruct sv; apply Hnext.
Qed.

Lemma forEach_concat merge tprops key titems sitems entries : ∀ output r,
  NoDup entries.*1 →
  lookup_key key tprops = Some (VArr titems) →
  (key, VArr sitems) ∈ entries →
  forEach merge tprops entries output = ok r →
  lookup_key key r = Some (VArr (titems ++ sitems)).
Proof.
  induction entries as [| [k sv] entries IH]; intros output r Hnd Ht Hin;
    [by apply elem_of_nil in Hin |].
  apply NoDup_cons in Hnd as [Hk Hnd].
  intros (v & Hrest & Hv)%forEach_step.
  apply elem_of_cons in Hin as [[= <- <-] | Hin].
  - rewrite Ht in Hv. subst v.
    rewrite (forEach_lookup_other _ _ key _ _ _ Hk Hrest).
    apply lookup_assign_eq.
  - by eapply IH.
Qed.

(** A scalar of the source under a key that [key in output] finds stops
    the loop. *)
Lemma forEach_conflict merge tprops key sv entries : ∀ output r,
  (key, sv) ∈ entries → is_scalar sv → key_in key output = true →
  forEach merge tprops entries output ≠ ok r.
Proof.
  induction entries as [| [k sv'] entries IH]; intros output r Hin Hsv Hkey;
    [by apply elem_of_nil in Hin |].
  intros (v & Hrest & Hv)%forEach_step.
  apply elem_of_cons in Hin as [[= <- <-] | Hin].
  - destruct sv; try done; destruct Hv as [_ Hv]; congruence.
  - eapply IH; [done | done | | exact Hrest].
    rewrite key_in_assign, Hkey. apply orb_true_r.
Qed.

(** The parts of C2 that speak of keys of the source that are neither
    inherited names nor array indices hold, [sprops] holding each key
    once: with no key in common the result is the properties of the
    target followed by those of the source; a key holding an array on
    both sides ends up holding the target's items followed by the
    source's; a key of the target that the source gives a scalar makes
    the merge throw a merge conflict; and the keys of a result are the
    target's, in their order, followed by the keys only the source has,
    in its order. *)
Lemma deepMerge_objects (tprops sprops : list (string * value)) :
  NoDup sprops.*1 →
  ((∀ key, key ∈ sprops.*1 →
      (key ∉ tprops.*1) ∧ inherited key = false ∧ array_index key = None) →
     deepMerge (VObj tprops) (VObj sprops) = ok (VObj (tprops ++ sprops)))
  ∧ (∀ key titems sitems merged,
       lookup_key key tprops = Some (VArr titems) →
       lookup_key key sprops = Some (VArr sitems) →
       deepMerge (VObj tprops) (VObj sprops) = ok merged →
       ∃ props, merged = VObj props
                ∧ lookup_key key props = Some (VArr (titems ++ sitems)))
  ∧ (∀ key sv,
       lookup_key key sprops = Some sv → is_scalar sv → key ∈ tprops.*1 →
       ∃ key', deepMerge (VObj tprops) (VObj sprops) = throw (merge_conflict key'))
  ∧ (∀ merged,
       Forall (λ key, array_index key = None) sprops.*1 →
       deepMerge (VObj tprops) (VObj sprops) = ok merged →
       ∃ props, merged = VObj props
                ∧ props.*1 = tprops.*1 ++ filter (λ key, key ∉ tprops.*1) sprops.*1).
Proof.
  intros Hnd. rewrite deepMerge_objects_unfold. split_and!.
  - intros Hdis. rewrite forEach_disjoint; [done | done |].
    intros key Hkey. destruct (Hdis key Hkey) as (? & ? & ?). by split_and!.
  - intros key titems sitems merged Ht Hs (props & Hloop & [= <-])%bind_ok.
    exists props. split; [done |].
    eapply forEach_concat; [done | done | | exact Hloop].
    by apply lookup_key_Some.
  - intros key sv Hs Hsv Hkey.
    destruct (forEach deepMerge tprops sprops tprops) as [e | props] eqn:Hloop.
    + apply forEach_throws in Hloop as (key' & ->); [by exists key' |].
      apply Forall_forall. intros kv _ tv e'. apply deepMerge_throws.
    + exfalso. eapply forEach_conflict; [| done | | exact Hloop].
      * by apply lookup_key_Some.
      * by apply key_in_own.
  - intros merged Hplain (props & Hloop & [= <-])%bind_ok.
    exists props. split; [done |]. by apply forEach_keys in Hloop.
Qed.

Example deepMerge_objects_example :
  let target := [("kind", VStr "Deployment"); ("ports", VArr [VStr "80"])] in
  let source := [("ports", VArr [VStr "53"]); ("replicas", VStr "3")] in
  deepMerge (VObj target) (VObj [("replicas", VStr "3")])
  = ok (VObj (target ++ [("replicas", VStr "3")]))
  ∧ deepMerge (VObj target) (VObj source)
    = ok (VObj [("kind", VStr "Deployment");
                ("ports", VArr [VStr "80"; VStr "53"]);
                ("replicas", VStr "3")])
  ∧ deepMerge (VObj target) (VObj [("kind", VStr "Service")])
    = throw (merge_conflict "kind").
Proof. split_and!; reflexivity. Qed.

(** An array index among the new keys does not go last: [Object.keys]
    lists the array indices first, in ascending order. *)
Lemma deepMerge_array_index_first (tprops : list (string * value))
    (key : string) (i : N) (sv : value) :
  array_index key = Some i →
  Forall (λ k, array_index k = None) tprops.*1 →
  is_scalar sv →
  deepMerge (VObj tprops) (VObj [(key, sv)]) = ok (VObj ((key, sv) :: tprops)).
Proof.
  intros Hkey Hplain Hsv.
  assert (Hout : key ∉ tprops.*1).
  { intros Hin. rewrite Forall_forall in Hplain. apply Hplain in Hin. congruence. }
  assert (Hinh : inherited key = false).
  { unfold inherited. apply bool_decide_eq_false. unfold Object_prototype.
    intros Hin. repeat (apply elem_of_cons in Hin as [-> | Hin]; [done |]).
    by apply elem_of_nil in Hin. }
  assert (Hput : assign key sv tprops = (key, sv) :: tprops).
  { unfold assign. rewrite (proj2 (has_own_false _ _) Hout), Hkey.
    destruct tprops as [| [k w] tprops]; [done |]. simpl.
    apply Forall_cons in Hplain as [Hk _]. simpl in Hk. by rewrite Hk. }
  rewrite deepMerge_objects_unfold. simpl.
  rewrite (proj2 (key_in_false _ _) (conj Hout Hinh)).
  destruct sv; try done; by rewrite Hput.
Qed.

(** C2: the merge asks [key in output] and [key in target], and [in] finds
    the names every object inherits from [Object.prototype] as it finds
    own properties. So a scalar that the source holds under such a name
    makes the merge throw a merge conflict although the target has no
    such property, the two objects having no key in common included;
    and an object that the source holds under such a name is merged with
    the inherited function instead of being taken over, which leaves an
    empty object under that name. *)
Theorem deepMerge_inherited_names (tprops : list (string * value)) (key : string) :
  inherited key = true → key ∉ tprops.*1 →
  (∀ sv, is_scalar sv →
     deepMerge (VObj tprops) (VObj [(key, sv)]) = throw (merge_conflict key)
     ∧ deepMerge (VObj tprops) (VObj [(key, sv)])
       ≠ ok (VObj (tprops ++ [(key, sv)])))
  ∧ (∀ sprops sv,
       (key, sv) ∈ sprops → is_scalar sv →
       ∃ key', deepMerge (VObj tprops) (VObj sprops) = throw (merge_conflict key'))
  ∧ (∀ sps,
       key ≠ "__proto__" →
       deepMerge (VObj tprops) (VObj [(key, VObj sps)])
       = ok (VObj (tprops ++ [(key, VObj [])]))).
Proof.
  intros Hinh Hout.
  assert (Hidx : array_index key = None).
  { unfold inherited in Hinh. apply bool_decide_eq_true in Hinh.
    unfold Object_prototype in Hinh.
    repeat (apply elem_of_cons in Hinh as [-> | Hinh]; [done |]).
    by apply elem_of_nil in Hinh. }
  split_and!.
  - intros sv Hsv.
    assert (Hthrow : deepMerge (VObj tprops) (VObj [(key, sv)])
                     = throw (merge_conflict key)).
    { rewrite deepMerge_objects_unfold. simpl.
      rewrite (key_in_inherited key tprops Hinh). by destruct sv. }
    split; [done |]. by rewrite Hthrow.
  - intros sprops sv Hin Hsv.
    rewrite deepMerge_objects_unfold.
    destruct (forEach deepMerge tprops sprops tprops) as [e | props] eqn:Hloop.
    + apply forEach_throws in Hloop as (key' & ->); [by exists key' |].
      apply Forall_forall. intros kv _ tv e'. apply deepMerge_throws.
    + exfalso. eapply forEach_conflict; [exact Hin | done | | exact Hloop].
      by apply key_in_inherited.
  - intros sps _. rewrite deepMerge_objects_unfold. simpl.
    rewrite (key_in_inherited key tprops Hinh). simpl.
    rewrite (proj2 (lookup_key_None key tprops) Hout). simpl.
    by rewrite assign_new.
Qed.

Lemma deepMerge_inherited_names_witness :
  inherited "constructor" = true
  ∧ ("constructor" ∉ [("name", VStr "web")].*1)
  ∧ deepMerge (VObj [("name", VStr "web")]) (VObj [("constructor", VStr "x")])
    = throw (merge_conflict "constructor")
  ∧ deepMerge (VObj []) (VObj [("constructor", VObj [("a", VNum one)])])
    = ok (VObj [("constructor", VObj [])]).
Proof.
  assert (Hinh : inherited "constructor" = true) by reflexivity.
  assert (Hout : "constructor" ∉ [("name", VStr "web")].*1).
  { intros [[=] | []%elem_of_nil]%elem_of_cons. }
  assert (Hout' : "constructor" ∉ ([] : list (string * value)).*1).
  { apply not_elem_of_nil. }
  destruct (deepMerge_inherited_names [("name", VStr "web")] "constructor" Hinh Hout)
    as (Hscalar & _).
  destruct (deepMerge_inherited_names [] "constructor" Hinh Hout')
    as (_ & _ & Hobject).
  split_and!; [exact Hinh | exact Hout | |].
  - by apply (Hscalar (VStr "x")).
  - by apply (Hobject [("a", VNum one)]).
Defined.

(** ** Arguments that are not both objects *)

Lemma deepMerge_not_objects_eq (target source : value) :
  isObject target && isObject source = false →
  deepMerge target source = ok (VObj (spread target)).
Proof. destruct target, source; simpl; try done. Qed.

(** C6 as worded fails: the merge of an object with a string is a copy of
    the object; what [{...target, ...source}] would add, the characters of
    the string under their indices, is not there. *)
Lemma deepMerge_ignores_non_object_source :
  let target := VObj [("a", VNum one)] in
  let source := VStr "hi" in
  deepMerge target source = ok target
  ∧ spread_overwrite target source
    = VObj [("0", VStr "h"); ("1", VStr "i"); ("a", VNum one)]
  ∧ deepMerge target source ≠ ok (spread_overwrite target source).
Proof. split_and!; [reflexivity | reflexivity | by intros [=]]. Qed.

(** C6, as the code has it: when the arguments are not both objects the
    result is a copy of the target's own properties alone, whatever the
    source is. *)
Theorem deepMerge_not_objects (target source : value) :
  isObject target && isObject source = false →
  deepMerge target source = ok (VObj (spread target)).
Proof. apply deepMerge_not_objects_eq. Qed.

Lemma deepMerge_not_objects_witness :
  isObject (VObj [("a", VNum one)]) && isObject (VArr [VStr "x"]) = false
  ∧ deepMerge (VObj [("a", VNum one)]) (VArr [VStr "x"])
    = ok (VObj [("a", VNum one)]).
Proof.
  split; [reflexivity |].
  apply (deepMerge_not_objects (VObj [("a", VNum one)]) (VArr [VStr "x"])).
  reflexivity.
Defined.

(** ** The batch driver *)

Lemma insert_sorted_Permutation {A} (cmp : A → A → Z) a l :
  insert_sorted cmp a l ≡ₚ a :: l.
Proof.
  induction l as [| b l IH]; simpl; [done |].
  case_match; [done |]. rewrite IH. apply Permutation_swap.
Qed.

Lemma sort_Permutation {A} (cmp : A → A → Z) (l : list A) : sort cmp l ≡ₚ l.
Proof.
  unfold sort. cut (∀ acc, foldl (λ sorted a, insert_sorted cmp a sorted) acc l ≡ₚ acc ++ l).
  { intros H. by rewrite H. }
  induction l as [| a l IH]; intros acc; simpl.
  - by rewrite app_nil_r.
  - rewrite IH, insert_sorted_Permutation. simpl. apply Permutation_middle.
Qed.

(** Filling an object from entries with distinct keys keeps every entry;
    the entries stay in their order when no key is an array index. *)
Lemma foldl_assign_Permutation {A V} (f : A → V) (l : list (string * A)) : ∀ acc,
  NoDup l.*1 → (∀ k, k ∈ l.*1 → k ∉ acc.*1) →
  foldl (λ acc kn, assign kn.1 (f kn.2) acc) acc l
  ≡ₚ acc ++ ((λ kn, (kn.1, f kn.2)) <$> l).
Proof.
  induction l as [| [k a] l IH]; intros acc Hnd Hfresh; simpl.
  - by rewrite app_nil_r.
  - apply NoDup_cons in Hnd as [Hk Hnd].
    rewrite IH; [| done |].
    + rewrite assign_Permutation by (apply Hfresh; left).
      by rewrite <-Permutation_middle.
    + intros k' Hk'. rewrite elem_of_assign_keys. intros [-> | Hin]; [done |].
      revert Hin. apply Hfresh. by right.
Qed.

Lemma foldl_assign_fresh {A V} (f : A → V) (l : list (string * A)) : ∀ acc,
  NoDup l.*1 → Forall (λ k, array_index k = None) l.*1 →
  (∀ k, k ∈ l.*1 → k ∉ acc.*1) →
  foldl (λ acc kn, assign kn.1 (f kn.2) acc) acc l
  = acc ++ ((λ kn, (kn.1, f kn.2)) <$> l).
Proof.
  induction l as [| [k a] l IH]; intros acc Hnd Hplain Hfresh; simpl.
  - by rewrite app_nil_r.
  - apply NoDup_cons in Hnd as [Hk Hnd].
    apply Forall_cons in Hplain as [Hidx Hplain].
    rewrite assign_new by (done || apply Hfresh; left).
    rewrite IH; [by rewrite <-app_assoc | done | done |].
    intros k' Hk'. rewrite fmap_app, not_elem_of_app. split.
    + apply Hfresh. by right.
    + simpl. rewrite not_elem_of_cons. split; [by intros -> | apply not_elem_of_nil].
Qed.

Section DriverFacts.

Variable StringToNumber : string → number.
Variable race : list exn → nat.

#[local] Abbreviation render := (renderToObject StringToNumber race).

Lemma renderFile_results exports :
  NoDup exports.*1 →
  ∃ results, results ≡ₚ settles StringToNumber race <$> exports
    ∧ failures (renderFile StringToNumber race exports) = omap rejected results
    ∧ fulfilled (renderFile StringToNumber race exports) = omap resolved results.
Proof.
  intros Hnd. unfold renderFile.
  set (cmp := λ a b : string * VNodeObj, (_ - _)%Z).
  set (entries := (λ kv, (kv.1, getVNode kv.2)) <$> exports).
  pose proof (sort_Permutation cmp entries) as Hperm.
  assert (Hkeys : NoDup (sort cmp entries).*1).
  { rewrite Hperm. unfold entries. rewrite <-list_fmap_compose.
    by rewrite (list_fmap_ext _ fst exports) by done. }
  pose proof (foldl_assign_Permutation (λ n, render (shape n) [])
                (sort cmp entries) [] Hkeys) as Hmap.
  rewrite app_nil_l in Hmap.
  rewrite zip_fst_snd.
  eexists. split_and!; [| reflexivity | reflexivity].
  rewrite Hmap by (intros; apply not_elem_of_nil).
  rewrite Hperm. unfold entries. by rewrite <-list_fmap_compose.
Qed.




End DriverFacts.


(** ** The deep merge over a store *)

Section Keeps.

Import Heap.
Context (D : gset nat).

Lemma keeps_pure {A} (m : M A) : (∀ h, (m h).1 = h) → keeps D m.
Proof. intros Hm h _. by rewrite Hm. Qed.

Lemma keeps_bind {A B} (m : M A) (k : A → M B) :
  keeps D m → (∀ a, keeps D (k a)) → keeps D (m ≫= k).
Proof.
  intros Hm Hk h HD. destruct (Hm h HD) as [Hdom Hsame].
  unfold mbind, M_bind. destruct (m h) as [h' [a | e |]]; simpl in *; [| done..].
  destruct (Hk a h') as [Hdom' Hsame']; [set_solver |].
  split; [set_solver |]. intros l Hl. by rewrite Hsame', Hsame.
Qed.

Lemma keeps_alloc_bind {B} (o : object) (k : nat → M B) :
  (∀ l, l ∉ D → keeps D (k l)) → keeps D (alloc o ≫= k).
Proof.
  intros Hk h HD. unfold mbind, M_bind, alloc.
  pose proof (is_fresh (dom h)) as Hfresh.
  set (l := fresh (dom h)) in *.
  destruct (Hk l) with (h := <[l := o]> h) as [Hdom Hsame].
  - set_solver.
  - rewrite dom_insert_L. set_solver.
  - rewrite dom_insert_L in Hdom. split; [set_solver |].
    intros l' Hl'. rewrite Hsame by done.
    apply lookup_insert_ne. set_solver.
Qed.

Lemma keeps_set_prop (l : nat) key v : l ∉ D → keeps D (set_prop l key v).
Proof.
  intros Hl h HD. unfold set_prop.
  destruct (h !! l) as [[props | xs] |] eqn:Hhl; simpl; [| done..].
  split.
  - rewrite dom_insert_L. set_solver.
  - intros l' Hl'. apply lookup_insert_ne. set_solver.
Qed.

Lemma keeps_each merge target source output key :
  (∀ tv sv, keeps D (merge tv sv)) → output ∉ D →
  keeps D (each merge target source output key).
Proof.
  intros Hmerge Hout. unfold each.
  apply keeps_bind; [by apply keeps_pure |]. intros sv.
  apply keeps_bind; [by apply keeps_pure |]. intros [|].
  - apply keeps_bind; [by apply keeps_pure |]. intros [|]; simpl.
    + apply keeps_bind; [by apply keeps_pure |]. intros tv.
      apply keeps_bind; [apply Hmerge |]. intros merged.
      by apply keeps_set_prop.
    + by apply keeps_set_prop.
  - apply keeps_bind; [by apply keeps_pure |]. intros [|].
    + apply keeps_bind; [by apply keeps_pure |]. intros tv.
      apply keeps_bind; [by apply keeps_pure |]. intros tarr.
      apply keeps_bind; [by destruct tarr; apply keeps_pure |]. intros titems.
      apply keeps_bind; [by apply keeps_pure |]. intros sitems.
      apply keeps_alloc_bind. intros copy _. by apply keeps_set_prop.
    + apply keeps_bind; [by apply keeps_pure |]. intros [|].
      * by apply keeps_pure.
      * by apply keeps_set_prop.
Qed.

Lemma keeps_forEach merge target source output ks :
  (∀ tv sv, keeps D (merge tv sv)) → output ∉ D →
  keeps D (forEach merge target source output ks).
Proof.
  intros Hmerge Hout. induction ks as [| key ks IH]; simpl.
  - by apply keeps_pure.
  - apply keeps_bind; [by apply keeps_each | done].
Qed.

End Keeps.

Lemma keeps_deepMerge fuel : ∀ D target source,
  Heap.keeps D (Heap.deepMerge fuel target source).
Proof.
  induction fuel as [| fuel IH]; intros D target source; simpl.
  - by apply keeps_pure.
  - apply keeps_bind; [by apply keeps_pure |]. intros props.
    apply keeps_alloc_bind. intros output Hout.
    apply keeps_bind; [by apply keeps_pure |]. intros tobj.
    apply keeps_bind; [by apply keeps_pure |]. intros sobj.
    apply keeps_bind; [| intros _; by apply keeps_pure].
    destruct (tobj && sobj); [| by apply keeps_pure].
    apply keeps_bind; [by apply keeps_pure |]. intros ks.
    by apply keeps_forEach.
Qed.

Lemma reify_mono depth : ∀ (h h' : gmap nat Heap.object) v tv,
  h ⊆ h' → Heap.reify depth h v = Some tv → Heap.reify depth h' v = Some tv.
Proof.
  induction depth as [| depth IH]; intros h h' v tv Hsub; destruct v; try done.
  simpl. destruct (h !! l) as [o |] eqn:Hl; [| done].
  rewrite (lookup_weaken _ _ _ _ Hl Hsub).
  destruct o as [props | xs].
  - intros (ps & Hps & ->)%fmap_Some. apply fmap_Some. exists ps. split; [| done].
    apply mapM_Some in Hps. apply mapM_Some.
    eapply Forall2_impl; [exact Hps |]. intros [k jv] kv; simpl.
    intros (w & Hw & ->)%fmap_Some. by rewrite (IH _ _ _ _ Hsub Hw).
  - intros (ws & Hws & ->)%fmap_Some. apply fmap_Some. exists ws. split; [| done].
    apply mapM_Some in Hws. apply mapM_Some.
    eapply Forall2_impl; [exact Hws |]. intros jv w. by apply IH.
Qed.

(** C9: whatever a call of [deepMerge] does, returning, throwing or
    recursing without end, every object of the store it started from is
    still there with the same contents afterwards; so its two arguments,
    and all that can be reached from them, read the same before and
    after. *)
Theorem deepMerge_leaves_inputs fuel target source (h : gmap nat Heap.object) :
  let h' := (Heap.deepMerge fuel target source h).1 in
  h ⊆ h'
  ∧ ∀ depth v tv,
      Heap.reify depth h v = Some tv → Heap.reify depth h' v = Some tv.
Proof.
  intros h'.
  assert (Hsub : h ⊆ h').
  { destruct (keeps_deepMerge fuel (dom h) target source h) as [_ Hsame]; [done |].
    apply map_subseteq_spec. intros l o Hl. fold h' in Hsame.
    rewrite Hsame; [done |]. apply elem_of_dom. eauto. }
  split; [done |]. intros depth v tv. by apply reify_mono.
Qed.

(** The store-level merge at work: [{kind: "web", ports: [80]}] merged
    with [{ports: [53], name: "dns"}]. *)
Example heap_deepMerge_example :
  let h : gmap nat Heap.object :=
    {[ 0 := Heap.Arr [Heap.JStr "80"];
       1 := Heap.Obj [("kind", Heap.JStr "web"); ("ports", Heap.JRef 0)];
       2 := Heap.Arr [Heap.JStr "53"];
       3 := Heap.Obj [("ports", Heap.JRef 2); ("name", Heap.JStr "dns")] ]} in
  let '(h', r) := Heap.deepMerge 2 (Heap.JRef 1) (Heap.JRef 3) h in
  (v ← match r with Heap.Ok v => Some v | _ => None end; Heap.reify 3 h' v)
  = Some (VObj [("kind", VStr "web");
                ("ports", VArr [VStr "80"; VStr "53"]);
                ("name", VStr "dns")])
  ∧ Heap.reify 3 h' (Heap.JRef 1)
    = Some (VObj [("kind", VStr "web"); ("ports", VArr [VStr "80"])]).
Proof. vm_compute. done. Qed.

(** *** The store-level merge computes the plain merge *)

Section Reify.

Import Heap.
Implicit Types (h : gmap nat object) (v : jsval).

Lemma reify_obj depth h v props :
  reify depth h v = Some (VObj props) ↔
  ∃ d l jprops, depth = S d ∧ v = JRef l ∧ h !! l = Some (Obj jprops)
                ∧ props_rel d h jprops props.
Proof.
  split.
  - destruct v, depth as [| d]; try done. simpl.
    destruct (h !! l) as [[jprops | xs] |] eqn:Hl; try done.
    + intros (ps & Hps & [= ->])%fmap_Some. exists d, l, jprops.
      split_and!; try done. apply mapM_Some in Hps.
      eapply Forall2_impl; [exact Hps |]. intros [k j] kv; simpl.
      by intros (w & Hw & ->)%fmap_Some.
    + by intros (ps & Hps & [=])%fmap_Some.
  - intros (d & l & jprops & -> & -> & Hl & Hrel). simpl. rewrite Hl.
    apply fmap_Some. exists props. split; [| done]. apply mapM_Some.
    eapply Forall2_impl; [exact Hrel |]. intros [k j] [k' w]; simpl.
    intros [-> Hw]. by rewrite Hw.
Qed.

Lemma reify_arr depth h v items :
  reify depth h v = Some (VArr items) ↔
  ∃ d l jitems, depth = S d ∧ v = JRef l ∧ h !! l = Some (Arr jitems)
                ∧ items_rel d h jitems items.
Proof.
  split.
  - destruct v, depth as [| d]; try done. simpl.
    destruct (h !! l) as [[jprops | xs] |] eqn:Hl; try done.
    + by intros (ps & Hps & [=])%fmap_Some.
    + intros (ws & Hws & [= ->])%fmap_Some. exists d, l, xs.
      split_and!; try done. by apply mapM_Some in Hws.
  - intros (d & l & jitems & -> & -> & Hl & Hrel). simpl. rewrite Hl.
    apply fmap_Some. exists items. split; [| done]. by apply mapM_Some.
Qed.

(** A stored value that stands for a scalar is not a reference. *)
Lemma reify_scalar depth h v w :
  reify depth h v = Some w → is_scalar w → ∀ h', deref h' v = None.
Proof.
  destruct v; try done. destruct depth as [| d]; [done |]. simpl.
  destruct (h !! l) as [[jprops | xs] |]; [| | done].
  - by intros (ps & _ & ->)%fmap_Some.
  - by intros (ws & _ & ->)%fmap_Some.
Qed.

Lemma reify_deeper depth : ∀ h v w,
  reify depth h v = Some w → reify (S depth) h v = Some w.
Proof.
  induction depth as [| d IH]; intros h v w; destruct v; try done.
  remember (S d) as depth eqn:Hd. simpl. rewrite Hd at 1. simpl.
  destruct (h !! l) as [[jprops | xs] |]; [| | done].
  - intros (ps & Hps & ->)%fmap_Some. apply fmap_Some. exists ps. split; [| done].
    apply mapM_Some in Hps. apply mapM_Some.
    eapply Forall2_impl; [exact Hps |]. intros [k j] kv; simpl.
    intros (w & Hw & ->)%fmap_Some. subst depth. by rewrite (IH _ _ _ Hw).
  - intros (ws & Hws & ->)%fmap_Some. apply fmap_Some. exists ws. split; [| done].
    apply mapM_Some in Hws. apply mapM_Some.
    eapply Forall2_impl; [exact Hws |]. intros j w. subst depth. apply IH.
Qed.

Lemma reify_weaken depth h h' v w :
  h ⊆ h' → reify depth h v = Some w → reify (S depth) h' v = Some w.
Proof. intros Hsub Hw. by eapply reify_deeper, reify_mono. Qed.

Lemma props_rel_mono depth h h' jprops props :
  h ⊆ h' → props_rel depth h jprops props → props_rel depth h' jprops props.
Proof.
  intros Hsub Hrel. eapply Forall2_impl; [exact Hrel |]. simpl.
  intros kj kv [Hk Hv]. split; [done | by eapply reify_mono].
Qed.

Lemma props_rel_weaken depth h h' jprops props :
  h ⊆ h' → props_rel depth h jprops props → props_rel (S depth) h' jprops props.
Proof.
  intros Hsub Hrel. eapply Forall2_impl; [exact Hrel |]. simpl.
  intros kj kv [Hk Hv]. split; [done | by eapply reify_weaken].
Qed.

Lemma items_rel_weaken depth h h' jitems items :
  h ⊆ h' → items_rel depth h jitems items → items_rel (S depth) h' jitems items.
Proof.
  intros Hsub Hrel. eapply Forall2_impl; [exact Hrel |]. simpl.
  intros j w. by apply reify_weaken.
Qed.

Lemma props_rel_keys depth h jprops props :
  props_rel depth h jprops props → jprops.*1 = props.*1.
Proof. induction 1 as [| kj kv ? ? [Hk _]]; simpl; [done | by f_equal]. Qed.

Lemma props_rel_key_in depth h jprops props key :
  props_rel depth h jprops props → key_in key jprops = key_in key props.
Proof.
  intros Hrel. unfold key_in, has_own. by rewrite (props_rel_keys _ _ _ _ Hrel).
Qed.

Lemma props_rel_lookup depth h jprops props key :
  props_rel depth h jprops props →
  match lookup_key key jprops, lookup_key key props with
  | Some j, Some w => reify depth h j = Some w
  | None, None => True
  | _, _ => False
  end.
Proof.
  induction 1 as [| [k j] [k' w] ? ? [Hk Hw]]; simpl in *; [done |]. subst k'.
  by case_decide.
Qed.

Lemma props_rel_assign depth h jprops props key j w :
  props_rel depth h jprops props → reify depth h j = Some w →
  props_rel depth h (assign key j jprops) (assign key w props).
Proof.
  intros Hrel Hw. unfold assign, has_own.
  rewrite (props_rel_keys _ _ _ _ Hrel).
  case_bool_decide as Hown.
  - clear Hown. induction Hrel as [| [k j'] [k' w'] ? ? [Hk Hw']]; simpl in *.
    + constructor.
    + subst k'. case_decide; constructor; try done.
  - clear Hown. destruct (array_index key) as [i |].
    + induction Hrel as [| [k j'] [k' w'] ? ? [Hk Hw']]; simpl in *.
      * by repeat constructor.
      * subst k'. destruct (array_index k) as [i' |];
          [destruct (i' <? i)%N |]; repeat constructor; try done.
    + apply Forall2_app; [done | by repeat constructor].
Qed.

End Reify.

Section Each.

Implicit Types (h : gmap nat Heap.object) (v : Heap.jsval).

Lemma set_prop_run h out key v ojprops :
  h !! out = Some (Heap.Obj ojprops) →
  Heap.set_prop out key v h
  = (<[out := Heap.Obj (assign key v ojprops)]> h, Heap.Ok tt).
Proof. intros Hout. unfold Heap.set_prop. by rewrite Hout. Qed.

Variables (merge : Heap.jsval → Heap.jsval → Heap.M Heap.jsval).
Variables (lt ls out : nat) (tjprops sjprops : list (string * Heap.jsval)).
Variables (key : string) (sj : Heap.jsval) (h : gmap nat Heap.object).
Hypothesis Ht : h !! lt = Some (Heap.Obj tjprops).
Hypothesis Hs : h !! ls = Some (Heap.Obj sjprops).
Hypothesis Hkey : lookup_key key sjprops = Some sj.

(** An object of the source under a key that is neither a property of the
    target nor a name it inherits is adopted. *)
Lemma each_adopt o :
  Heap.deref h sj = Some (Heap.Obj o) → lookup_key key tjprops = None →
  inherited key = false →
  Heap.each merge (Heap.JRef lt) (Heap.JRef ls) out key h
  = Heap.set_prop out key sj h.
Proof.
  intros Hsj Hnone Hinh. unfold Heap.each, mbind, Heap.M_bind. simpl.
  rewrite Hs, Hkey. simpl. rewrite Hsj, Ht.
  apply lookup_key_None in Hnone.
  by rewrite (proj2 (key_in_false key tjprops) (conj Hnone Hinh)).
Qed.

(** An object of the source under a key of the target is merged with what
    the target has there. *)
Lemma each_recurse o tj :
  Heap.deref h sj = Some (Heap.Obj o) → lookup_key key tjprops = Some tj →
  Heap.each merge (Heap.JRef lt) (Heap.JRef ls) out key h
  = (merge tj sj ≫= Heap.set_prop out key) h.
Proof.
  intros Hsj Hsome. unfold Heap.each, mbind, Heap.M_bind. simpl.
  rewrite Hs, Hkey. simpl. rewrite Hsj, Ht.
  rewrite (lookup_key_key_in _ _ _ Hsome). simpl. by rewrite Ht, Hsome.
Qed.

(** An object of the source under a name the target inherits is merged
    with the inherited function. *)
Lemma each_inherited o :
  Heap.deref h sj = Some (Heap.Obj o) → lookup_key key tjprops = None →
  inherited key = true →
  Heap.each merge (Heap.JRef lt) (Heap.JRef ls) out key h
  = (merge Heap.JFunction sj ≫= Heap.set_prop out key) h.
Proof.
  intros Hsj Hnone Hinh. unfold Heap.each, mbind, Heap.M_bind. simpl.
  rewrite Hs, Hkey. simpl. rewrite Hsj, Ht.
  rewrite (key_in_inherited key tjprops Hinh). simpl.
  by rewrite Ht, Hnone, Hinh.
Qed.

(** An array of the source is copied, after the target's items when the
    target has an array there. *)
Lemma each_concat sitems :
  Heap.deref h sj = Some (Heap.Arr sitems) →
  let titems :=
    match lookup_key key tjprops ≫= Heap.deref h with
    | Some (Heap.Arr xs) => xs
    | _ => []
    end in
  let copy := fresh (dom h) in
  Heap.each merge (Heap.JRef lt) (Heap.JRef ls) out key h
  = Heap.set_prop out key (Heap.JRef copy)
      (<[copy := Heap.Arr (titems ++ sitems)]> h).
Proof.
  intros Hsj titems copy. unfold Heap.each, mbind, Heap.M_bind. simpl.
  rewrite Hs, Hkey. simpl. rewrite Hsj. simpl. rewrite Hsj. simpl. rewrite Ht.
  subst titems copy. unfold mret, Heap.M_ret, Heap.items.
  destruct (lookup_key key tjprops) as [tj |]; simpl;
    [destruct (Heap.deref h tj) as [[|] |] eqn:Htj; simpl
    | destruct (inherited key); simpl];
    by rewrite ?Htj, ?Hsj.
Qed.

(** A scalar of the source is set, unless the output has the key. *)
Lemma each_scalar ojprops :
  Heap.deref h sj = None → h !! out = Some (Heap.Obj ojprops) →
  Heap.each merge (Heap.JRef lt) (Heap.JRef ls) out key h
  = if key_in key ojprops then (h, Heap.Throw (merge_conflict key))
    else Heap.set_prop out key sj h.
Proof.
  intros Hsj Hout. unfold Heap.each, mbind, Heap.M_bind. simpl.
  rewrite Hs, Hkey. simpl. rewrite Hsj. simpl. rewrite Hsj. simpl. rewrite Hout.
  by destruct (key_in key ojprops).
Qed.

End Each.

Lemma M_bind_run {A B} (m : Heap.M A) (k : A → Heap.M B) h :
  (m ≫= k) h
  = match m h with
    | (h', Heap.Ok a) => k a h'
    | (h', Heap.Throw e) => (h', Heap.Throw e)
    | (h', Heap.Diverge) => (h', Heap.Diverge)
    end.
Proof. reflexivity. Qed.

Lemma forEach_cons merge tprops key sv entries output :
  forEach merge tprops ((key, sv) :: entries) output
  = match sv with
    | VObj _ =>
        if negb (key_in key tprops)
        then forEach merge tprops entries (assign key sv output)
        else
          merged ← match lookup_key key tprops with
                   | Some tv => merge tv sv
                   | None => deepMerge_function
                   end;
          forEach merge tprops entries (assign key merged output)
    | VArr sitems =>
        let items :=
          match lookup_key key tprops with
          | Some (VArr titems) => titems ++ sitems
          | _ => sitems
          end in
        forEach merge tprops entries (assign key (VArr items) output)
    | _ =>
        if key_in key output then throw (merge_conflict key)
        else forEach merge tprops entries (assign key sv output)
    end.
Proof. reflexivity. Qed.

Section Loop.

Variable d : nat.
Hypothesis Hsim : refines d.

Variables (lt ls out : nat).
Variables (tjprops sjprops : list (string * Heap.jsval)).
Variable tprops : list (string * value).
Variable hb0 : gmap nat Heap.object.
Hypothesis Ht : hb0 !! lt = Some (Heap.Obj tjprops).
Hypothesis Hs : hb0 !! ls = Some (Heap.Obj sjprops).
Hypothesis Htrel : Heap.props_rel d hb0 tjprops tprops.

Lemma loop_refines es_j es :
  Heap.props_rel d hb0 es_j es →
  (∀ kj, kj ∈ es_j → lookup_key kj.1 sjprops = Some kj.2) →
  Forall (λ kv, well_formed kv.2) es →
  ∀ hc hbc ojprops oprops,
    hb0 ⊆ hbc → hbc ⊆ hc → out ∉ dom hbc →
    hc !! out = Some (Heap.Obj ojprops) →
    Heap.props_rel (S d) hbc ojprops oprops →
    loop_post d lt ls out tprops es_j.*1 es hc hbc oprops.
Proof.
  induction 1 as [| [key sj] [key' sv] es_j es [Hk Hsv] Hrel IH];
    intros Hfirst Hwf hc hbc ojprops oprops Hb0 Hbc Hout Hobj Horel.
  { exists hc, hbc, (Heap.Ok tt). split_and!; try done; [set_solver |].
    simpl. split; [done |]. eauto. }
  simpl in Hk, Hsv. subst key'.
  apply Forall_cons in Hwf as [Hwf_sv Hwf].
  assert (Hkey : lookup_key key sjprops = Some sj) by (apply (Hfirst (key, sj)); left).
  assert (Hrest : ∀ kj, kj ∈ es_j → lookup_key kj.1 sjprops = Some kj.2).
  { intros kj Hkj. apply Hfirst. by right. }
  specialize (IH Hrest Hwf).
  assert (Hb0c : hb0 ⊆ hc) by (etrans; [exact Hb0 | exact Hbc]).
  pose proof (lookup_weaken _ _ _ _ Ht Hb0c) as Htc.
  pose proof (lookup_weaken _ _ _ _ Hs Hb0c) as Hsc.
  assert (Hsv' : Heap.reify (S d) hbc sj = Some sv) by (by eapply reify_weaken).
  (* the assignment that ends a round, and the rounds after it *)
  assert (Hset : ∀ j w hc' hbc',
            hbc ⊆ hbc' → hbc' ⊆ hc' → out ∉ dom hbc' →
            hc' !! out = Some (Heap.Obj ojprops) →
            dom hc ⊆ dom hc' → dom hbc' ∩ dom hc ⊆ dom hbc →
            Heap.reify (S d) hbc' j = Some w →
            ∃ h' hb' r,
              Heap.forEach (Heap.deepMerge (S d)) (Heap.JRef lt) (Heap.JRef ls)
                out es_j.*1 (<[out := Heap.Obj (assign key j ojprops)]> hc')
              = (h', r)
              ∧ hbc ⊆ hb' ∧ hb' ⊆ h' ∧ dom hb' ∩ dom hc ⊆ dom hbc
              ∧ match forEach deepMerge tprops es (assign key w oprops) with
                | inr final =>
                    r = Heap.Ok tt
                    ∧ ∃ final_j, h' !! out = Some (Heap.Obj final_j)
                                 ∧ Heap.props_rel (S d) hb' final_j final
                | inl e => r = Heap.Throw e
                end).
  { intros j w hc' hbc' Hbb Hbc' Hout' Hobj' Hdomc Hdomb Hj.
    destruct (IH (<[out := Heap.Obj (assign key j ojprops)]> hc') hbc'
                (assign key j ojprops) (assign key w oprops))
      as (h' & hb' & r & Hrun & Hb1 & Hb2 & Hdom & Hpost).
    - etrans; [exact Hb0 | exact Hbb].
    - apply insert_subseteq_r; [by apply not_elem_of_dom | done].
    - done.
    - apply lookup_insert_eq.
    - apply props_rel_assign; [| done]. by eapply props_rel_mono.
    - exists h', hb', r. split_and!; try done.
      + etrans; [exact Hbb | exact Hb1].
      + rewrite dom_insert_L in Hdom. set_solver. }
  unfold loop_post. rewrite fmap_cons. cbn [Heap.forEach fst].
  rewrite M_bind_run, forEach_cons.
  destruct sv as [| b | n | str | sitems | sps].
  5:{ (* an array *)
    apply reify_arr in Hsv as (d' & l' & sjitems & -> & -> & Hl' & Hitems).
    assert (Hsjc : Heap.deref hc (Heap.JRef l') = Some (Heap.Arr sjitems)).
    { simpl. by eapply lookup_weaken. }
    rewrite (each_concat _ lt ls out tjprops sjprops key _ hc Htc Hsc Hkey _ Hsjc).
    set (titems_j := match lookup_key key tjprops ≫= Heap.deref hc with
                     | Some (Heap.Arr xs) => xs | _ => [] end).
    set (copy := fresh (dom hc)).
    assert (Hcopy : copy ∉ dom hc) by apply is_fresh.
    assert (Hne : copy ≠ out).
    { intros ->. apply Hcopy. apply elem_of_dom. eauto. }
    set (arr := Heap.Arr (titems_j ++ sjitems)).
    cbv beta iota zeta.
    set (titems := match lookup_key key tprops with
                   | Some (VArr xs) => xs | _ => [] end).
    assert (Htitems : Heap.items_rel (S d') hb0 titems_j titems).
    { subst titems_j titems.
      pose proof (props_rel_lookup _ _ _ _ key Htrel) as Hlk.
      destruct (lookup_key key tjprops) as [tj |], (lookup_key key tprops) as [tv |];
        try done; [| constructor]. simpl.
      destruct tv as [| | | | xs | ps].
      5:{ apply reify_arr in Hlk as (d0 & l0 & xs_j & [= <-] & -> & Hl0 & Hxs).
          simpl. rewrite (lookup_weaken _ _ _ _ Hl0 Hb0c).
          eapply Forall2_impl; [exact Hxs |]. intros j w. apply reify_deeper. }
      5:{ apply reify_obj in Hlk as (d0 & l0 & ps_j & _ & -> & Hl0 & _).
          simpl. rewrite (lookup_weaken _ _ _ _ Hl0 Hb0c). constructor. }
      all: rewrite (reify_scalar _ _ _ _ Hlk I hc); constructor. }
    replace (match lookup_key key tprops with
             | Some (VArr titems0) => titems0 ++ sitems
             | _ => sitems end) with (titems ++ sitems)
      by (subst titems; by repeat case_match).
    assert (Hobj1 : (<[copy := arr]> hc) !! out = Some (Heap.Obj ojprops)).
    { by rewrite lookup_insert_ne. }
    assert (Hfresh : hbc !! copy = None).
    { apply not_elem_of_dom. intros Hin. apply Hcopy.
      apply (subseteq_dom _ _ Hbc), Hin. }
    rewrite (set_prop_run _ _ _ _ _ Hobj1).
    destruct (Hset (Heap.JRef copy) (VArr (titems ++ sitems))
                (<[copy := arr]> hc) (<[copy := arr]> hbc))
      as (h' & hb' & r & Hrun & Hrest'); try done.
    - by apply insert_subseteq.
    - by apply insert_mono.
    - rewrite dom_insert_L. set_solver.
    - rewrite dom_insert_L. set_solver.
    - rewrite dom_insert_L. set_solver.
    - apply reify_arr. exists (S d'), copy, (titems_j ++ sjitems).
      split_and!; try done; [apply lookup_insert_eq |].
      assert (Hext : hb0 ⊆ <[copy := arr]> hbc).
      { etrans; [exact Hb0 |]. by apply insert_subseteq. }
      apply Forall2_app.
      + eapply Forall2_impl; [exact Htitems |]. intros j w. by apply reify_mono.
      + eapply Forall2_impl; [exact Hitems |]. intros j w. by apply reify_weaken.
    - exists h', hb', r. by split. }
  5:{ (* an object *)
    pose proof Hsv as Hsv0.
    apply reify_obj in Hsv as (d' & l' & sjp & -> & -> & Hl' & Hsps).
    assert (Hsjc : Heap.deref hc (Heap.JRef l') = Some (Heap.Obj sjp)).
    { simpl. by eapply lookup_weaken. }
    pose proof (props_rel_lookup _ _ _ _ key Htrel) as Hlk.
    cbv beta iota zeta.
    destruct (lookup_key key tjprops) as [tj |] eqn:Htj,
             (lookup_key key tprops) as [tv |] eqn:Htv; try done.
    - (* merged with what the target has *)
      rewrite (lookup_key_key_in _ _ _ Htv). cbn [negb].
      destruct (Hsim hc hbc tj (Heap.JRef l') tv (VObj sps))
        as (h1 & hb1 & r1 & Hrun1 & Hb1 & Hb2 & Hdom1 & Hagree); try done.
      { by eapply reify_mono. }
      { by eapply reify_mono. }
      destruct (keeps_deepMerge (S (S d')) (dom hc) tj (Heap.JRef l') hc)
        as [Hdomh Hsame]; [done |].
      rewrite Hrun1 in Hdomh, Hsame. simpl in Hdomh, Hsame.
      rewrite (each_recurse _ lt ls out tjprops sjprops key _ hc Htc Hsc Hkey _ _ Hsjc Htj).
      rewrite M_bind_run, Hrun1.
      unfold Heap.agrees in Hagree.
      destruct (deepMerge tv (VObj sps)) as [e | rv].
      + subst r1. exists h1, hb1, (Heap.Throw e). by split_and!.
      + destruct Hagree as (jr & -> & Hjr).
        assert (Hout1 : out ∉ dom hb1).
        { intros Hin. apply Hout. apply Hdom1. apply elem_of_intersection.
          split; [done |]. apply elem_of_dom. eauto. }
        assert (Hobj1 : h1 !! out = Some (Heap.Obj ojprops)).
        { rewrite Hsame; [done |]. apply elem_of_dom. eauto. }
        rewrite (set_prop_run _ _ _ _ _ Hobj1).
        destruct (Hset jr rv h1 hb1) as (h' & hb' & r & Hrun & Hrest');
          try done.
        exists h', hb', r. by split.
    - destruct (inherited key) eqn:Hinh.
      + (* merged with the inherited function *)
        rewrite (key_in_inherited key tprops Hinh). cbn [negb].
        rewrite (each_inherited _ lt ls out tjprops sjprops key _ hc Htc Hsc Hkey
                   _ Hsjc Htj Hinh).
        set (new := fresh (dom hc)).
        assert (Hnew : new ∉ dom hc) by apply is_fresh.
        assert (Hne : new ≠ out).
        { intros ->. apply Hnew. apply elem_of_dom. eauto. }
        assert (Hfresh : hbc !! new = None).
        { apply not_elem_of_dom. intros Hin. apply Hnew.
          apply (subseteq_dom _ _ Hbc), Hin. }
        assert (Hrun1 : Heap.deepMerge (S (S d')) Heap.JFunction (Heap.JRef l') hc
                        = (<[new := Heap.Obj []]> hc, Heap.Ok (Heap.JRef new))).
        { reflexivity. }
        rewrite M_bind_run, Hrun1.
        assert (Hobj1 : (<[new := Heap.Obj []]> hc) !! out = Some (Heap.Obj ojprops)).
        { by rewrite lookup_insert_ne. }
        rewrite (set_prop_run _ _ _ _ _ Hobj1).
        unfold deepMerge_function. cbn [mbind result_bind ok].
        destruct (Hset (Heap.JRef new) (VObj [])
                    (<[new := Heap.Obj []]> hc) (<[new := Heap.Obj []]> hbc))
          as (h' & hb' & r & Hrun & Hrest'); try done.
        * by apply insert_subseteq.
        * by apply insert_mono.
        * rewrite dom_insert_L. set_solver.
        * rewrite dom_insert_L. set_solver.
        * rewrite dom_insert_L. set_solver.
        * apply reify_obj. exists (S d'), new, []. split_and!; try done;
            [apply lookup_insert_eq | constructor].
        * exists h', hb', r. by split.
      + (* adopted *)
        apply lookup_key_None in Htv as Htv'.
        rewrite (proj2 (key_in_false key tprops) (conj Htv' Hinh)). cbn [negb].
        rewrite (each_adopt _ lt ls out tjprops sjprops key _ hc Htc Hsc Hkey
                   _ Hsjc Htj Hinh).
        rewrite (set_prop_run _ _ _ _ _ Hobj).
        destruct (Hset (Heap.JRef l') (VObj sps) hc hbc)
          as (h' & hb' & r & Hrun & Hrest');
          [done | done | done | done | done | set_solver | done |].
        exists h', hb', r. by split. }
  (* a scalar *)
  all: pose proof (reify_scalar _ _ _ _ Hsv I hc) as Hsjc.
  all: rewrite (each_scalar _ lt ls out sjprops key _ hc Hsc Hkey _ Hsjc Hobj).
  all: cbv beta iota zeta.
  all: rewrite (props_rel_key_in _ _ _ _ key Horel).
  all: destruct (key_in key oprops);
    [exists hc, hbc, (Heap.Throw (merge_conflict key)); split_and!; try done; set_solver |].
  all: rewrite (set_prop_run _ _ _ _ _ Hobj).
  all: match type of Hsv' with _ = Some ?w =>
         destruct (Hset sj w hc hbc) as (h' & hb' & r & Hrun & Hrest');
           [done | done | done | done | done | set_solver | done |]
       end.
  all: exists h', hb', r; by split.
Qed.

End Loop.

Lemma Forall2_imap {A B C D} (R : A → B → Prop) (R' : C → D → Prop)
    (f : nat → A → C) (g : nat → B → D) l k :
  (∀ i x y, R x y → R' (f i x) (g i y)) →
  Forall2 R l k → Forall2 R' (imap f l) (imap g k).
Proof.
  intros Hfg Hlk. revert f g Hfg.
  induction Hlk as [| x y l k Hxy _ IH]; intros f g Hfg; simpl; constructor.
  - by apply Hfg.
  - apply IH. intros i. apply Hfg.
Qed.

(** [isObject] tells the same on a stored value and on the plain value it
    stands for. *)
Lemma isObject_reify d (hb h : gmap nat Heap.object) v w :
  hb ⊆ h → Heap.reify d hb v = Some w →
  match Heap.deref h v with Some (Heap.Obj _) => true | _ => false end
  = isObject w.
Proof.
  intros Hsub Hw. destruct w as [| b | n | s | items | props].
  5:{ apply reify_arr in Hw as (d' & l & js & -> & -> & Hl & _).
      simpl. by rewrite (lookup_weaken _ _ _ _ Hl Hsub). }
  5:{ apply reify_obj in Hw as (d' & l & js & -> & -> & Hl & _).
      simpl. by rewrite (lookup_weaken _ _ _ _ Hl Hsub). }
  all: by rewrite (reify_scalar _ _ _ _ Hw I h).
Qed.

(** What [{...v}] copies from a stored value stands for what it copies
    from the plain one. *)
Lemma own_props_reify d (hb h : gmap nat Heap.object) v w :
  hb ⊆ h → Heap.reify d hb v = Some w →
  ∃ props, Heap.own_props v h = (h, Heap.Ok props)
           ∧ Heap.props_rel d hb props (spread w).
Proof.
  intros Hsub Hw. unfold Heap.own_props. eexists. split; [reflexivity |].
  destruct w as [| b | n | s | items | props].
  5:{ apply reify_arr in Hw as (d' & l & js & -> & -> & Hl & Hjs).
      simpl. rewrite (lookup_weaken _ _ _ _ Hl Hsub).
      eapply Forall2_imap; [| exact Hjs]. simpl. intros i j x Hx.
      split; [done | by apply reify_deeper]. }
  5:{ apply reify_obj in Hw as (d' & l & js & -> & -> & Hl & Hjs).
      simpl. rewrite (lookup_weaken _ _ _ _ Hl Hsub).
      eapply Forall2_impl; [exact Hjs |]. simpl. intros kj kv [Hk Hv].
      split; [done | by apply reify_deeper]. }
  4:{ destruct v as [| | | | s' | l |]; try (by destruct d).
      - assert (s' = s) as -> by (destruct d; simpl in Hw; congruence).
        eapply (Forall2_imap eq);
          [| apply Forall_Forall2_diag, Forall_true; reflexivity].
        intros i c ? <-. split; [done | by destruct d].
      - pose proof (reify_scalar _ _ _ _ Hw I hb) as Hnone.
        destruct d; [done |]. simpl in Hw, Hnone. by rewrite Hnone in Hw. }
  all: pose proof (reify_scalar _ _ _ _ Hw I h) as Hnone.
  all: destruct v; try (by destruct d); try constructor.
  all: by rewrite Hnone; constructor.
Qed.

Lemma refines_not_objects d (h hb : gmap nat Heap.object) target source tv sv :
  hb ⊆ h →
  Heap.reify d hb target = Some tv →
  Heap.reify d hb source = Some sv →
  isObject tv && isObject sv = false →
  ∃ h' hb' r,
    Heap.deepMerge (S d) target source h = (h', r)
    ∧ hb ⊆ hb' ∧ hb' ⊆ h' ∧ dom hb' ∩ dom h ⊆ dom hb
    ∧ Heap.agrees (S d) hb' r (deepMerge tv sv).
Proof.
  intros Hsub Ht Hs Hboth.
  destruct (own_props_reify d hb h target tv Hsub Ht) as (props & Hown & Hprops).
  set (out := fresh (dom h)).
  assert (Hout : out ∉ dom h) by apply is_fresh.
  assert (Houtb : hb !! out = None).
  { apply not_elem_of_dom. intros Hin. apply Hout, (subseteq_dom _ _ Hsub), Hin. }
  set (h1 := <[out := Heap.Obj props]> h).
  assert (Hsub1 : hb ⊆ h1) by (by apply insert_subseteq_r).
  exists h1, (<[out := Heap.Obj props]> hb), (Heap.Ok (Heap.JRef out)).
  split_and!.
  - cbn [Heap.deepMerge]. rewrite M_bind_run, Hown.
    unfold Heap.alloc. rewrite M_bind_run. fold out. fold h1.
    rewrite M_bind_run. unfold Heap.isObject at 1.
    rewrite M_bind_run. unfold Heap.isObject at 1.
    rewrite (isObject_reify d hb h1 target tv Hsub1 Ht).
    rewrite (isObject_reify d hb h1 source sv Hsub1 Hs).
    rewrite Hboth. by rewrite M_bind_run.
  - by apply insert_subseteq.
  - by apply insert_mono.
  - rewrite dom_insert_L. set_solver.
  - assert (Hpure : deepMerge tv sv = ok (VObj (spread tv))).
    { by apply deepMerge_not_objects_eq. }
    rewrite Hpure. unfold Heap.agrees, ok. cbv beta iota.
    exists (Heap.JRef out). split; [done |].
    apply reify_obj. exists d, out, props. split_and!; try done.
    + apply lookup_insert_eq.
    + eapply props_rel_mono; [| exact Hprops]. by apply insert_subseteq.
Qed.

Lemma well_formed_obj props :
  well_formed (VObj props)
  ↔ NoDup props.*1 ∧ Forall (λ kv, well_formed kv.2) props.
Proof.
  simpl. apply and_iff_compat_l.
  induction props as [| kv props IH]; simpl.
  - split; [constructor | done].
  - rewrite Forall_cons. by rewrite IH.
Qed.

Lemma well_formed_arr items :
  well_formed (VArr items) ↔ Forall well_formed items.
Proof.
  simpl. induction items as [| x items IH]; simpl.
  - split; [constructor | done].
  - rewrite Forall_cons. by rewrite IH.
Qed.

(** With fuel for one level more than the arguments are deep, the
    store-level merge does what the plain merge does. *)
Lemma deepMerge_refines_at d : refines d.
Proof.
  induction d as [| d IH]; intros h hb target source tv sv Hsub Ht Hs Hwf.
  { apply refines_not_objects; try done.
    destruct target; try done; simpl in Ht; by simplify_eq. }
  destruct (isObject tv && isObject sv) eqn:Hboth;
    [| by apply refines_not_objects].
  apply andb_true_iff in Hboth as [Htobj Hsobj].
  destruct tv as [| | | | | tprops]; try done.
  destruct sv as [| | | | | sprops]; try done. clear Htobj Hsobj.
  apply well_formed_obj in Hwf as [Hnodup Hwf].
  pose proof Ht as Ht0. pose proof Hs as Hs0.
  apply reify_obj in Ht as (d1 & lt & tjprops & [= <-] & -> & Hlt & Htrel).
  apply reify_obj in Hs as (d2 & ls & sjprops & [= <-] & -> & Hls & Hsrel).
  set (out := fresh (dom h)).
  assert (Hout : out ∉ dom h) by apply is_fresh.
  assert (Houtb : out ∉ dom hb).
  { intros Hin. apply Hout, (subseteq_dom _ _ Hsub), Hin. }
  set (h1 := <[out := Heap.Obj tjprops]> h).
  assert (Hsub1 : hb ⊆ h1).
  { apply insert_subseteq_r; [by apply not_elem_of_dom | done]. }
  assert (Hrun0 : Heap.deepMerge (S (S d)) (Heap.JRef lt) (Heap.JRef ls) h
                  = (_ ← Heap.forEach (Heap.deepMerge (S d)) (Heap.JRef lt)
                           (Heap.JRef ls) out sjprops.*1;
                     mret (Heap.JRef out)) h1).
  { cbn [Heap.deepMerge]. rewrite M_bind_run. unfold Heap.own_props at 1.
    cbn [Heap.deref]. rewrite (lookup_weaken _ _ _ _ Hlt Hsub).
    unfold Heap.alloc. rewrite M_bind_run. fold out. fold h1.
    rewrite M_bind_run. unfold Heap.isObject at 1.
    rewrite M_bind_run. unfold Heap.isObject at 1.
    cbn [Heap.deref]. rewrite (lookup_weaken _ _ _ _ Hlt Hsub1).
    rewrite (lookup_weaken _ _ _ _ Hls Hsub1). cbn [andb].
    rewrite !M_bind_run. unfold Heap.keys at 1. cbn [Heap.deref].
    by rewrite (lookup_weaken _ _ _ _ Hls Hsub1). }
  destruct (loop_refines d IH lt ls out tjprops sjprops tprops hb Hlt Hls Htrel
              sjprops sprops Hsrel) with (hc := h1) (hbc := hb)
              (ojprops := tjprops) (oprops := tprops)
    as (h' & hb' & r & Hrun & Hb1 & Hb2 & Hdom & Hpost); try done.
  { intros [k j] Hkj. simpl. apply lookup_key_elem; [| done].
    by rewrite (props_rel_keys _ _ _ _ Hsrel). }
  { apply lookup_insert_eq. }
  { by eapply props_rel_weaken. }
  rewrite Hrun0, M_bind_run, Hrun. rewrite deepMerge_objects_unfold.
  subst h1. rewrite dom_insert_L in Hdom.
  destruct (forEach deepMerge tprops sprops tprops) as [e | final].
  - subst r. exists h', hb', (Heap.Throw e). split_and!; try done. set_solver.
  - destruct Hpost as (-> & final_j & Hfinal & Hrel).
    exists h', (<[out := Heap.Obj final_j]> hb'), (Heap.Ok (Heap.JRef out)).
    assert (Hext : hb' ⊆ <[out := Heap.Obj final_j]> hb').
    { apply map_subseteq_spec. intros l o Hl.
      destruct (decide (l = out)) as [-> |].
      - rewrite lookup_insert_eq, <- Hfinal. by eapply lookup_weaken.
      - by rewrite lookup_insert_ne. }
    split_and!; try done.
    + etrans; [exact Hb1 | exact Hext].
    + by apply insert_subseteq_l.
    + rewrite dom_insert_L. set_solver.
    + unfold Heap.agrees; cbn [mbind result_bind ok]. cbv beta iota.
      exists (Heap.JRef out). split; [done |].
      apply reify_obj. exists (S d), out, final_j. split_and!; try done.
      * apply lookup_insert_eq.
      * by eapply props_rel_mono.
Qed.

(** * Further properties *)

(** ** The two readings of [deepMerge] agree *)

(** X1: run on a store where [target] and [source] stand for the plain
    values [tv] and [sv], every object of [sv] holding each key once and
    none of them [__proto__], and with fuel for one level more than the
    two are deep, the store-level [deepMerge] does not run out of fuel: it
    returns a reference that reads as the result of the plain [deepMerge],
    or it throws the error the plain one throws. *)
Theorem deepMerge_store_computes_plain (d : nat) (h : gmap nat Heap.object)
    (target source : Heap.jsval) (tv sv : value) :
  Heap.reify d h target = Some tv →
  Heap.reify d h source = Some sv →
  well_formed sv → no_proto sv →
  ∃ h' r, Heap.deepMerge (S d) target source h = (h', r)
          ∧ Heap.agrees (S d) h' r (deepMerge tv sv).
Proof.
  intros Ht Hs Hwf _.
  destruct (deepMerge_refines_at d h h target source tv sv)
    as (h' & hb' & r & Hrun & _ & Hsub & _ & Hagree); try done.
  exists h', r. split; [done |]. unfold Heap.agrees in *.
  destruct (deepMerge tv sv) as [e | w]; [done |].
  destruct Hagree as (j & -> & Hj). exists j. split; [done |].
  by eapply reify_mono.
Qed.

Lemma deepMerge_store_computes_plain_witness :
  let h : gmap nat Heap.object :=
    {[ 0 := Heap.Arr [Heap.JStr "80"];
       1 := Heap.Obj [("kind", Heap.JStr "web"); ("ports", Heap.JRef 0)];
       2 := Heap.Arr [Heap.JStr "53"];
       3 := Heap.Obj [("ports", Heap.JRef 2); ("name", Heap.JStr "dns")] ]} in
  let tv := VObj [("kind", VStr "web"); ("ports", VArr [VStr "80"])] in
  let sv := VObj [("ports", VArr [VStr "53"]); ("name", VStr "dns")] in
  ∃ h' r, Heap.deepMerge 3 (Heap.JRef 1) (Heap.JRef 3) h = (h', r)
          ∧ Heap.agrees 3 h' r (deepMerge tv sv).
Proof.
  intros h tv sv.
  apply (deepMerge_store_computes_plain 2 h (Heap.JRef 1) (Heap.JRef 3) tv sv).
  - vm_compute. reflexivity.
  - vm_compute. reflexivity.
  - apply well_formed_obj. split.
    + apply NoDup_cons. split; [| apply NoDup_singleton].
      intros [=]%list_elem_of_singleton.
    + repeat constructor.
  - simpl. split_and!; try done. compute_done.
Defined.

(** ** The deep merge, key by key *)

(** What the key of an entry of the source holds once the loop is over. *)
Lemma forEach_assigned merge tprops key sv entries : ∀ output r,
  NoDup entries.*1 → (key, sv) ∈ entries →
  forEach merge tprops entries output = ok r →
  ∃ v, lookup_key key r = Some v
       ∧ match sv with
         | VObj _ =>
             match lookup_key key tprops with
             | Some tv => merge tv sv = ok v
             | None => v = if inherited key then VObj [] else sv
             end
         | VArr sitems =>
             v = VArr match lookup_key key tprops with
                      | Some (VArr titems) => titems ++ sitems
                      | _ => sitems
                      end
         | _ => v = sv
         end.
Proof.
  induction entries as [| [k sv'] entries IH]; intros output r Hnd Hin;
    [by apply elem_of_nil in Hin |].
  apply NoDup_cons in Hnd as [Hk Hnd].
  intros (v & Hrest & Hv)%forEach_step.
  apply elem_of_cons in Hin as [[= <- <-] | Hin]; [| by eapply IH].
  exists v. split.
  - rewrite (forEach_lookup_other _ _ key _ _ _ Hk Hrest).
    apply lookup_assign_eq.
  - destruct sv; try done; by destruct Hv.
Qed.

Lemma deepMerge_objects_inv tprops sprops merged :
  deepMerge (VObj tprops) (VObj sprops) = ok merged →
  ∃ props, merged = VObj props
           ∧ forEach deepMerge tprops sprops tprops = ok props.
Proof.
  rewrite deepMerge_objects_unfold.
  intros (props & Hprops & [= <-])%bind_ok. eauto.
Qed.

(** X2: the merge is deep. Under a key where the source holds an object
    and the target holds anything at all, a successful merge holds the
    merge of the two; and when that inner merge throws, so does the outer
    one. *)
Theorem deepMerge_recurses (tprops sprops : list (string * value))
    (key : string) (tv : value) (sps : list (string * value)) :
  NoDup sprops.*1 →
  lookup_key key tprops = Some tv →
  lookup_key key sprops = Some (VObj sps) →
  (∀ merged, deepMerge (VObj tprops) (VObj sprops) = ok merged →
     ∃ props m, merged = VObj props
                ∧ deepMerge tv (VObj sps) = ok m
                ∧ lookup_key key props = Some m)
  ∧ (throws (deepMerge tv (VObj sps)) →
     throws (deepMerge (VObj tprops) (VObj sprops))).
Proof.
  intros Hnd Ht Hs.
  assert (Hok : ∀ merged, deepMerge (VObj tprops) (VObj sprops) = ok merged →
            ∃ props m, merged = VObj props
                       ∧ deepMerge tv (VObj sps) = ok m
                       ∧ lookup_key key props = Some m).
  { intros merged (props & -> & Hloop)%deepMerge_objects_inv.
    apply lookup_key_Some in Hs.
    destruct (forEach_assigned _ _ _ _ _ _ _ Hnd Hs Hloop) as (m & Hm & Hv).
    rewrite Ht in Hv. eauto. }
  split; [done |]. intros Hinner.
  destruct (deepMerge (VObj tprops) (VObj sprops)) as [e | merged] eqn:Hout;
    [done |].
  destruct (Hok merged eq_refl) as (props & m & _ & Hm & _).
  by rewrite Hm in Hinner.
Qed.

Lemma deepMerge_recurses_witness :
  let inner_t := VObj [("name", VStr "web")] in
  let inner_s := [("namespace", VStr "testing")] in
  let tprops := [("kind", VStr "Service"); ("metadata", inner_t)] in
  let sprops := [("metadata", VObj inner_s)] in
  (∀ merged, deepMerge (VObj tprops) (VObj sprops) = ok merged →
     ∃ props m, merged = VObj props
                ∧ deepMerge inner_t (VObj inner_s) = ok m
                ∧ lookup_key "metadata" props = Some m)
  ∧ deepMerge (VObj tprops) (VObj sprops)
    = ok (VObj [("kind", VStr "Service");
                ("metadata", VObj [("name", VStr "web");
                                   ("namespace", VStr "testing")])]).
Proof.
  intros inner_t inner_s tprops sprops.
  destruct (deepMerge_recurses tprops sprops "metadata" inner_t inner_s)
    as [Hok _]; [apply NoDup_singleton | reflexivity | reflexivity |].
  split; [exact Hok | reflexivity].
Defined.

(** X3: a successful merge of two objects leaves alone what only one side
    has, the names every object inherits apart: a key the source lacks
    holds what the target held; a key the target lacks, and that is no
    inherited name, holds what the source holds. Under an inherited name
    that the target does not have as a property of its own, an array of
    the source is still taken over, but an object of the source is not:
    an empty object is there instead. *)
Theorem deepMerge_unshared_keys (tprops sprops props : list (string * value)) :
  NoDup sprops.*1 →
  deepMerge (VObj tprops) (VObj sprops) = ok (VObj props) →
  (∀ key, key ∉ sprops.*1 → lookup_key key props = lookup_key key tprops)
  ∧ (∀ key, key ∉ tprops.*1 → inherited key = false →
       lookup_key key props = lookup_key key sprops)
  ∧ (∀ key sps, key ∉ tprops.*1 → inherited key = true → key ≠ "__proto__" →
       lookup_key key sprops = Some (VObj sps) →
       lookup_key key props = Some (VObj []))
  ∧ (∀ key sitems, key ∉ tprops.*1 → key ≠ "__proto__" →
       lookup_key key sprops = Some (VArr sitems) →
       lookup_key key props = Some (VArr sitems)).
Proof.
  intros Hnd (props' & [= <-] & Hloop)%deepMerge_objects_inv. split_and!.
  - intros key Hkey. by eapply forEach_lookup_other.
  - intros key Hkey Hinh.
    destruct (lookup_key key sprops) as [sv |] eqn:Hs.
    + pose proof Hs as Hin. apply lookup_key_Some in Hin.
      destruct (forEach_assigned _ _ _ _ _ _ _ Hnd Hin Hloop) as (v & Hv & Hsv).
      apply lookup_key_None in Hkey. rewrite Hkey, ?Hinh in Hsv. rewrite Hv.
      by destruct sv; subst v.
    + apply lookup_key_None in Hs.
      rewrite (forEach_lookup_other _ _ _ _ _ _ Hs Hloop).
      by apply lookup_key_None.
  - intros key sps Hkey Hinh _ Hin%lookup_key_Some.
    destruct (forEach_assigned _ _ _ _ _ _ _ Hnd Hin Hloop) as (v & Hv & Hsv).
    apply lookup_key_None in Hkey. rewrite Hkey, Hinh in Hsv. by rewrite Hv, Hsv.
  - intros key sitems Hkey _ Hin%lookup_key_Some.
    destruct (forEach_assigned _ _ _ _ _ _ _ Hnd Hin Hloop) as (v & Hv & Hsv).
    apply lookup_key_None in Hkey. rewrite Hkey in Hsv. by rewrite Hv, Hsv.
Qed.

Lemma deepMerge_unshared_keys_witness :
  let tprops := [("kind", VStr "Service"); ("ports", VArr [VStr "80"])] in
  let sprops := [("ports", VArr [VStr "53"]); ("name", VStr "dns");
                 ("toString", VObj [("a", VNum one)])] in
  let props := [("kind", VStr "Service");
                ("ports", VArr [VStr "80"; VStr "53"]);
                ("name", VStr "dns");
                ("toString", VObj [])] in
  deepMerge (VObj tprops) (VObj sprops) = ok (VObj props)
  ∧ lookup_key "kind" props = lookup_key "kind" tprops
  ∧ lookup_key "name" props = lookup_key "name" sprops
  ∧ lookup_key "toString" props = Some (VObj []).
Proof.
  intros tprops sprops props.
  assert (Hnd : NoDup sprops.*1) by compute_done.
  assert (Hrun : deepMerge (VObj tprops) (VObj sprops) = ok (VObj props))
    by reflexivity.
  destruct (deepMerge_unshared_keys tprops sprops props Hnd Hrun)
    as (Ht & Hs & Hinh & _).
  split_and!; [exact Hrun | | |].
  - apply Ht. compute_done.
  - apply Hs; [compute_done | reflexivity].
  - apply (Hinh "toString" [("a", VNum one)]);
      [compute_done | reflexivity | done | reflexivity].
Defined.

(** X4: the two overwrites that raise no conflict. Where the target holds
    something that is not an array, a scalar or an object included, the
    merge with a source that holds an array under that key returns, with
    a copy of the source's array in its place. Where the target holds
    something that is not an object, the merge with a source that holds
    an object under that key returns too, with neither of the two under
    the key but a copy of the own properties of what the target held
    (none at all for a number, a boolean or [null]). Within any merge
    that returns, this is what such a key ends up with. *)
Theorem deepMerge_silent_overwrites (tprops : list (string * value))
    (key : string) (tv : value) :
  lookup_key key tprops = Some tv →
  (∀ sitems, (∀ titems, tv ≠ VArr titems) →
     deepMerge (VObj tprops) (VObj [(key, VArr sitems)])
     = ok (VObj (update key (VArr sitems) tprops)))
  ∧ (∀ sps, isObject tv = false →
       deepMerge (VObj tprops) (VObj [(key, VObj sps)])
       = ok (VObj (update key (VObj (spread tv)) tprops)))
  ∧ (∀ v, lookup_key key (update key v tprops) = Some v
          ∧ (update key v tprops).*1 = tprops.*1)
  ∧ (∀ sprops props sitems,
       NoDup sprops.*1 →
       deepMerge (VObj tprops) (VObj sprops) = ok (VObj props) →
       lookup_key key sprops = Some (VArr sitems) →
       (∀ titems, tv ≠ VArr titems) →
       lookup_key key props = Some (VArr sitems))
  ∧ (∀ sprops props sps,
       NoDup sprops.*1 →
       deepMerge (VObj tprops) (VObj sprops) = ok (VObj props) →
       lookup_key key sprops = Some (VObj sps) → isObject tv = false →
       lookup_key key props = Some (VObj (spread tv))).
Proof.
  intros Ht.
  assert (Hown : key ∈ tprops.*1).
  { apply lookup_key_Some in Ht. apply list_elem_of_fmap. by exists (key, tv). }
  split_and!.
  - intros sitems Hnot. rewrite deepMerge_objects_unfold, forEach_cons.
    rewrite Ht. cbv zeta. rewrite assign_old by done.
    destruct tv; try done. by destruct (Hnot items).
  - intros sps Htv. rewrite deepMerge_objects_unfold, forEach_cons.
    rewrite (lookup_key_key_in _ _ _ Ht), Ht. cbn [negb].
    rewrite deepMerge_not_objects_eq by (by rewrite Htv).
    cbn [mbind result_bind ok forEach]. by rewrite assign_old.
  - intros v. split; [by apply lookup_update_eq | apply update_keys].
  - intros sprops props sitems Hnd (props' & [= <-] & Hloop)%deepMerge_objects_inv
      Hin%lookup_key_Some Hnot.
    destruct (forEach_assigned _ _ _ _ _ _ _ Hnd Hin Hloop) as (v & Hv & Hsv).
    rewrite Ht in Hsv. rewrite Hv, Hsv.
    destruct tv; try done. by destruct (Hnot items).
  - intros sprops props sps Hnd (props' & [= <-] & Hloop)%deepMerge_objects_inv
      Hin%lookup_key_Some Htv.
    destruct (forEach_assigned _ _ _ _ _ _ _ Hnd Hin Hloop) as (v & Hv & Hsv).
    rewrite Ht in Hsv. rewrite Hv.
    rewrite deepMerge_not_objects_eq in Hsv by (by rewrite Htv).
    by injection Hsv as ->.
Qed.

Lemma deepMerge_silent_overwrites_witness :
  lookup_key "replicas" [("replicas", VNum one)] = Some (VNum one)
  ∧ deepMerge (VObj [("replicas", VNum one)])
      (VObj [("replicas", VArr [VStr "a"])])
    = ok (VObj [("replicas", VArr [VStr "a"])])
  ∧ deepMerge (VObj [("replicas", VNum one)])
      (VObj [("replicas", VObj [("min", VStr "a")])])
    = ok (VObj [("replicas", VObj [])]).
Proof.
  assert (Ht : lookup_key "replicas" [("replicas", VNum one)] = Some (VNum one))
    by reflexivity.
  destruct (deepMerge_silent_overwrites [("replicas", VNum one)] "replicas"
              (VNum one) Ht) as (Harr & Hobj & _).
  split_and!; [exact Ht | |].
  - by apply (Harr [VStr "a"]).
  - by apply (Hobj [("min", VStr "a")]).
Defined.

(** X5: [deepMerge] throws nothing but the conflict [Error] that names a
    key, at whatever depth it arises; no other failure comes out of it,
    and neither do a run of merges. *)
Theorem deepMerge_throws_conflicts_only :
  (∀ target source e,
     deepMerge target source = throw e → ∃ key, e = merge_conflict key)
  ∧ (∀ acc results e,
       reduce_deepMerge acc results = throw e → ∃ key, e = merge_conflict key).
Proof.
  split.
  - intros target source e. apply deepMerge_throws.
  - intros acc results e. apply reduce_deepMerge_throws.
Qed.

(** ** The renderer: symbols and components *)


Lemma deepMerge_returns_object target source merged :
  deepMerge target source = ok merged → ∃ props, merged = VObj props.
Proof.
  destruct (isObject target && isObject source) eqn:Hboth.
  - destruct target, source; try done.
    intros (props' & -> & _)%deepMerge_objects_inv. eauto.
  - rewrite deepMerge_not_objects_eq by done. intros [= <-]. eauto.
Qed.


Section Symbols.

Variable StringToNumber : string → number.
Variables race race' : list exn → nat.

#[local] Abbreviation render := (renderToObject StringToNumber race).
#[local] Abbreviation render' := (renderToObject StringToNumber race').

Lemma render_symbol_list children callStack :
  render (VNode (TSymbol ListSymbol) children) callStack
  = try_catch callStack
      (Promise_all race ((λ c, render c callStack) <$> children)
       ≫= λ results, ok (VArr results)).
Proof. reflexivity. Qed.

Lemma render_symbol_fragment children callStack :
  render (VNode (TSymbol FragmentSymbol) children) callStack
  = try_catch callStack
      (Promise_all race ((λ c, render c callStack) <$> children)
       ≫= λ results, reduce_deepMerge (VObj []) results).
Proof. reflexivity. Qed.

Lemma render_function name returned children callStack :
  render (VNode (TFunction name (inr returned)) children) callStack
  = try_catch (callStack ++ [name]) (render returned (callStack ++ [name])).
Proof. reflexivity. Qed.

Lemma try_catch_ok {A} callStack (body : result A) a :
  try_catch callStack body = ok a ↔ body = ok a.
Proof. by destruct body. Qed.

Lemma rendered_children_ok children callStack results :
  Promise_all race ((λ c, render c callStack) <$> children) = ok results
  ↔ Forall2 (λ c v, render c callStack = ok v) children results.
Proof. by rewrite Promise_all_ok_inv, rendered_all_ok. Qed.

(** A rendering that succeeds gives the same value under any call stack
    and whichever way the host settles the promises of a fan-out. *)
Lemma render_host_irrelevant v : ∀ callStack callStack' w,
  render v callStack = ok w → render' v callStack' = ok w.
Proof.
  induction v as [| p0 | | tag children IHc | name e children IHc
                 | name returned children IHr IHc | sym children IHc]
    using vnode_ind; intros callStack callStack' w; try done.
  - (* string tag *)
    assert (Hall : ∀ cs cs' results,
              Promise_all race ((λ c, render c cs) <$> children) = ok results →
              Promise_all race' ((λ c, render' c cs') <$> children) = ok results).
    { intros cs cs' results. rewrite !Promise_all_ok_inv, !rendered_all_ok.
      intros Hall. eapply Forall2_impl_Forall; [exact Hall |].
      eapply Forall_impl; [exact IHc |]. simpl. eauto. }
    destruct (decide (length children = 1)) as [Hone | Hmany].
    + destruct children as [| child [| child' children]]; try done.
      apply Forall_cons in IHc as [IHchild _]. rewrite !render_single.
      destruct (render child (callStack ++ [tag])) as [e | v] eqn:Hchild; [done |].
      by rewrite (IHchild _ (callStack' ++ [tag]) _ Hchild).
    + rewrite !render_many by done.
      destruct (Promise_all race ((λ c, render c (callStack ++ [tag])) <$> children))
        as [e | results] eqn:Hres; [done |].
      rewrite (Hall _ (callStack' ++ [tag]) _ Hres). unfold try_catch. simpl.
      by destruct (reduce_deepMerge (VObj []) results).
  - (* a component that returns *)
    simpl. unfold try_catch.
    destruct (render returned (callStack ++ [name])) as [e | v] eqn:Hret; [done |].
    by rewrite (IHr _ (callStack' ++ [name]) _ Hret).
  - (* a symbol *)
    assert (Hall : ∀ results,
              Promise_all race ((λ c, render c callStack) <$> children) = ok results →
              Promise_all race' ((λ c, render' c callStack') <$> children) = ok results).
    { intros results. rewrite !Promise_all_ok_inv, !rendered_all_ok.
      intros Hall. eapply Forall2_impl_Forall; [exact Hall |].
      eapply Forall_impl; [exact IHc |]. simpl. eauto. }
    simpl. unfold try_catch. destruct sym as [| | description]; [| | done].
    + destruct (Promise_all race ((λ c, render c callStack) <$> children))
        as [e | results] eqn:Hres; [done |].
      rewrite (Hall results eq_refl). simpl.
      by destruct (reduce_deepMerge (VObj []) results).
    + destruct (Promise_all race ((λ c, render c callStack) <$> children))
        as [e | results] eqn:Hres; [done |].
      by rewrite (Hall results eq_refl).
Qed.

End Symbols.

Section RendererFacts.

Variable StringToNumber : string → number.
Variable race : list exn → nat.

#[local] Abbreviation render := (renderToObject StringToNumber race).

Lemma render_symbol_list_ok children callStack w :
  render (VNode (TSymbol ListSymbol) children) callStack = ok w
  ↔ ∃ results,
      w = VArr results
      ∧ Forall2 (λ c v, render c callStack = ok v) children results.
Proof.
  rewrite render_symbol_list, try_catch_ok, bind_ok. split.
  - intros (results & Hres & [= <-]). exists results. split; [done |].
    by apply rendered_children_ok.
  - intros (results & -> & Hres). exists results. split; [| done].
    by apply rendered_children_ok.
Qed.

(** X6: a [List] node renders to an array with one item per child, the
    children's results in the order of the children, and it renders
    exactly when every child does. The items are taken as they are: a
    child that is itself a list stays an array inside the array, and a
    [null] child stays a [null] item. *)
Theorem render_list (children : list vnode) (callStack : list string) (w : value) :
  render (VNode (TSymbol ListSymbol) children) callStack = ok w
  ↔ ∃ results,
      w = VArr results
      ∧ Forall2 (λ c v, render c callStack = ok v) children results.
Proof. apply render_symbol_list_ok. Qed.

(** X7: a [Fragment] node renders to the results of its children merged
    one after the other into an object that starts empty, and it renders
    exactly when every child does and no merge throws. A string tag with
    no child or with several is that tag around the fragment of its
    children. *)
Theorem render_fragment (children : list vnode) (callStack : list string) :
  (∀ w, render (VNode (TSymbol FragmentSymbol) children) callStack = ok w
        ↔ ∃ results,
            Forall2 (λ c v, render c callStack = ok v) children results
            ∧ reduce_deepMerge (VObj []) results = ok w)
  ∧ (∀ tag callStack' m,
       length children ≠ 1 →
       render (VNode (TString tag) children) callStack' = ok (VObj [(tag, m)])
       ↔ render (VNode (TSymbol FragmentSymbol) children) callStack = ok m).
Proof.
  assert (Hfrag : ∀ cs w,
            render (VNode (TSymbol FragmentSymbol) children) cs = ok w
            ↔ ∃ results,
                Forall2 (λ c v, render c cs = ok v) children results
                ∧ reduce_deepMerge (VObj []) results = ok w).
  { intros cs w. rewrite render_symbol_fragment, try_catch_ok, bind_ok.
    by setoid_rewrite rendered_children_ok. }
  split; [apply Hfrag |].
  intros tag callStack' m Hlen.
  rewrite render_many, try_catch_ok, bind_ok by done.
  setoid_rewrite rendered_children_ok. setoid_rewrite bind_ok. split.
  - intros (results & Hres & merged & Hmerged & [= ->]).
    apply (render_host_irrelevant _ race race _ (callStack' ++ [tag])).
    apply Hfrag. eauto.
  - intros Hm.
    apply (render_host_irrelevant _ race race _ _ (callStack' ++ [tag])) in Hm.
    apply Hfrag in Hm as (results & Hres & Hmerged). eauto.
Qed.

(** X8: a function component renders to whatever the node it returns
    renders to, and it renders exactly when that node does. The children
    written under the component are not rendered by the renderer: they
    reach the result only through what the component returns. *)
Theorem render_component (name : string) (children : list vnode)
    (callStack : list string) :
  (∀ returned w,
     render (VNode (TFunction name (inr returned)) children) callStack = ok w
     ↔ render returned callStack = ok w)
  ∧ (∀ call children',
       render (VNode (TFunction name call) children) callStack
       = render (VNode (TFunction name call) children') callStack).
Proof.
  split.
  - intros returned w. rewrite render_function, try_catch_ok.
    split; apply render_host_irrelevant.
  - by intros [e | returned] children'.
Qed.

(** X9: a rendering that succeeds does so with the same value under every
    call stack and whichever way the host settles the promises that run
    side by side: only failures depend on them. *)
Theorem render_success_deterministic (race' : list exn → nat) (v : vnode)
    (callStack callStack' : list string) (w : value) :
  render v callStack = ok w →
  renderToObject StringToNumber race' v callStack' = ok w.
Proof. apply render_host_irrelevant. Qed.


End RendererFacts.

Lemma render_success_deterministic_witness :
  let v :=
    VNode (TString "metadata")
      [VNode (TString "name") [Prim (PString "web")];
       VNode (TString "namespace") [Prim (PString "testing")]] in
  renderToObject decimal (λ es, length es - 1) v ["Deployment"]
  = ok (VObj [("metadata",
               VObj [("name", VStr "web"); ("namespace", VStr "testing")])]).
Proof.
  intros v.
  apply (render_success_deterministic decimal first_listed (λ es, length es - 1)
           v [] ["Deployment"]).
  reflexivity.
Defined.


(** ** The resolver: what comes out, and what more input does *)

Lemma keep_first_sub l : ∀ seen s, s ∈ keep_first seen l → s ∈ l.
Proof.
  induction l as [| t l IH]; intros seen s; simpl; [done |].
  case_decide.
  - intros Hs. right. by eapply IH.
  - intros [-> | Hs]%elem_of_cons; [left | right; by eapply IH].
Qed.

Lemma keep_first_id l : ∀ seen,
  NoDup (ref_of <$> l) → (∀ t, t ∈ l → ref_of t ∉ seen) →
  keep_first seen l = l.
Proof.
  induction l as [| t l IH]; intros seen Hnd Hseen; simpl; [done |].
  apply NoDup_cons in Hnd as [Ht Hnd].
  rewrite decide_False by (apply Hseen; left). f_equal.
  apply IH; [done |]. intros s Hs.
  rewrite not_elem_of_union, not_elem_of_singleton. split.
  - intros Heq. apply Ht. rewrite <-Heq. apply list_elem_of_fmap. eauto.
  - apply Hseen. by right.
Qed.

Lemma NoDup_fmap_eq {A B} (f : A → B) (l : list A) x y :
  NoDup (f <$> l) → x ∈ l → y ∈ l → f x = f y → x = y.
Proof.
  induction l as [| a l IH]; intros Hnd Hx Hy Hxy; [by apply elem_of_nil in Hx |].
  apply NoDup_cons in Hnd as [Ha Hnd].
  apply elem_of_cons in Hx as [-> | Hx]; apply elem_of_cons in Hy as [-> | Hy].
  - done.
  - destruct Ha. rewrite Hxy. apply list_elem_of_fmap. eauto.
  - destruct Ha. rewrite <-Hxy. apply list_elem_of_fmap. eauto.
  - by apply IH.
Qed.

Lemma raw_subtrees l :
  Forall (λ t, instanceof_DependantNodeTree t = false) l →
  l ≫= subtrees = l ∧ l ≫= flatten = l.
Proof.
  induction 1 as [| [v | self deps node] l Ht _ [IH1 IH2]]; [done | | done].
  split; csimpl; by f_equal.
Qed.

(** A sequence of raw nodes, each object once, is its own order. *)
Lemma unravel_raw l :
  Forall (λ t, instanceof_DependantNodeTree t = false) l →
  NoDup (ref_of <$> l) →
  unravelOrderOfDependencies l = l.
Proof.
  intros Hraw Hnd. destruct (raw_subtrees l Hraw) as [Hsub Hflat].
  rewrite unravel_first_visit.
  - rewrite Hflat. apply keep_first_id; [done |]. intros t _. set_solver.
  - intros s1 s2. rewrite Hsub. by apply NoDup_fmap_eq.
Qed.

Lemma dfs_order_prefix t : ∀ st, order st `prefix_of` order (dfs t st).
Proof.
  induction t as [v | self deps node IHdeps IHnode] using tree_ind;
    intros st; simpl.
  - case_decide; [done |]. case_decide; [| done]. simpl.
    by apply prefix_app_r.
  - case_decide; [done |].
    etrans; [| apply IHnode].
    change (order st) with (order (visit (RTree self) st)).
    generalize (visit (RTree self) st). clear IHnode.
    induction IHdeps as [| dep deps Hdep _ IH]; intros st'; simpl; [done |].
    etrans; [apply Hdep | apply IH].
Qed.

Lemma foldl_dfs_order_prefix ts : ∀ st,
  order st `prefix_of` order (foldl (λ st t, dfs t st) st ts).
Proof.
  induction ts as [| t ts IH]; intros st; simpl; [done |].
  etrans; [apply dfs_order_prefix | apply IH].
Qed.

Lemma unravel_elem trees s :
  consistent trees →
  s ∈ unravelOrderOfDependencies trees ↔ s ∈ trees ≫= flatten.
Proof.
  intros Hcons. rewrite unravel_first_visit by done.
  split; [apply keep_first_sub |]. intros Hs.
  assert (Hr : ref_of s ∈ ref_of <$> keep_first ∅ (trees ≫= flatten)).
  { apply keep_first_elem. split; [| set_solver].
    apply list_elem_of_fmap. eauto. }
  apply list_elem_of_fmap in Hr as (s' & Heq & Hs').
  assert (Hin : ∀ u, u ∈ trees ≫= flatten → u ∈ trees ≫= subtrees).
  { intros u (t & Hu & Ht)%list_elem_of_bind. apply list_elem_of_bind.
    exists t. split; [by apply flatten_subtrees | done]. }
  rewrite (Hcons s s'); [done | by apply Hin | | done].
  by eapply Hin, keep_first_sub.
Qed.

Lemma unravel_holds_node trees t :
  consistent trees → t ∈ trees →
  Raw (getVNode t) ∈ unravelOrderOfDependencies trees.
Proof.
  intros Hcons Ht. apply unravel_elem; [done |]. apply list_elem_of_bind.
  exists t. split; [apply flatten_getVNode | done].
Qed.

(** X11: for declarations with one object per address, the order holds
    exactly the raw nodes that can be reached from the declarations
    supplied, through [deps] and through [node]; the node each supplied
    declaration stands for is among them. *)
Theorem unravel_exactly_reachable (trees : list tree) :
  consistent trees →
  (∀ s, s ∈ unravelOrderOfDependencies trees ↔ s ∈ trees ≫= flatten)
  ∧ (∀ t, t ∈ trees → Raw (getVNode t) ∈ unravelOrderOfDependencies trees).
Proof.
  intros Hcons. split.
  - intros s. by apply unravel_elem.
  - intros t. by apply unravel_holds_node.
Qed.

Lemma unravel_exactly_reachable_witness :
  let web := Raw {| addr := 1; shape := VNode (TString "kind") [Prim (PString "web")] |} in
  let app := Raw {| addr := 2; shape := VNode (TString "kind") [Prim (PString "app")] |} in
  let trees := [DependantNodeTree 3 [web] app] in
  consistent trees
  ∧ web ∈ unravelOrderOfDependencies trees
  ∧ Raw (getVNode (DependantNodeTree 3 [web] app))
    ∈ unravelOrderOfDependencies trees.
Proof.
  intros web app trees.
  assert (Hcons : consistent trees) by solve_consistent.
  destruct (unravel_exactly_reachable trees Hcons) as [Hiff Hnode].
  split_and!; [done | | apply Hnode; left].
  apply Hiff. left.
Defined.

(** X12: an order already resolved resolves to itself: a sequence of raw
    nodes that holds no object twice comes out as it went in, so
    resolving the result of a resolution changes nothing. *)
Theorem unravel_idempotent (trees : list tree) :
  (∀ l, Forall (λ t, instanceof_DependantNodeTree t = false) l →
        NoDup (ref_of <$> l) →
        unravelOrderOfDependencies l = l)
  ∧ unravelOrderOfDependencies (unravelOrderOfDependencies trees)
    = unravelOrderOfDependencies trees.
Proof.
  split; [apply unravel_raw |].
  destruct (order_inv_unravel trees) as [Hraw Hnd _]. by apply unravel_raw.
Qed.

(** X13: declarations supplied after others change nothing of what those
    resolve to: the order of a sequence begins with the order of each of
    its beginnings. *)
Theorem unravel_prefix (trees more : list tree) :
  unravelOrderOfDependencies trees
  `prefix_of` unravelOrderOfDependencies (trees ++ more).
Proof.
  unfold unravelOrderOfDependencies. rewrite foldl_app.
  apply foldl_dfs_order_prefix.
Qed.

(** ** The batch driver: the order of the results *)

Section Sort.

Context {A : Type} (cmp : A → A → Z).

Lemma insert_sorted_elem a l x : x ∈ insert_sorted cmp a l ↔ x = a ∨ x ∈ l.
Proof. by rewrite insert_sorted_Permutation, elem_of_cons. Qed.

Lemma sort_elem l x : x ∈ sort cmp l ↔ x ∈ l.
Proof. by rewrite sort_Permutation. Qed.

(** An element that nothing in [l] is to come after goes last. *)
Lemma insert_sorted_last a l :
  Forall (λ b, (cmp b a ≤ 0)%Z) l → insert_sorted cmp a l = l ++ [a].
Proof.
  induction 1 as [| b l Hb _ IH]; simpl; [done |].
  destruct (Z.ltb_spec 0 (cmp b a)); [lia | by rewrite IH].
Qed.

(** A sequence already in order is left as it is. *)
Lemma sort_in_order l :
  StronglySorted (λ b a, (cmp b a ≤ 0)%Z) l → sort cmp l = l.
Proof.
  unfold sort. intros Hl.
  cut (∀ acc, Forall (λ b, Forall (λ a, (cmp b a ≤ 0)%Z) l) acc →
              foldl (λ sorted a, insert_sorted cmp a sorted) acc l = acc ++ l).
  { intros Hcut. by rewrite Hcut. }
  induction Hl as [| a l _ IH Ha]; intros acc Hacc; simpl.
  - by rewrite app_nil_r.
  - rewrite insert_sorted_last.
    + rewrite IH; [by rewrite <-app_assoc |].
      apply Forall_app. split; [| by repeat constructor].
      eapply Forall_impl; [exact Hacc |]. simpl. by intros b [_ ?]%Forall_cons.
    + eapply Forall_impl; [exact Hacc |]. simpl. by intros b [? _]%Forall_cons.
Qed.

(** Sorting by the difference of a weight puts the weights in order. *)
Lemma sort_sorted (weight : A → Z) l :
  (∀ a b, a ∈ l → b ∈ l → cmp a b = (weight a - weight b)%Z) →
  StronglySorted (λ a b, (weight a ≤ weight b)%Z) (sort cmp l).
Proof.
  intros Hcmp. unfold sort.
  cut (∀ acc, (∀ a, a ∈ acc → a ∈ l) → (∀ a, a ∈ l → a ∈ l) →
              StronglySorted (λ a b, (weight a ≤ weight b)%Z) acc →
              ∀ l', (∀ a, a ∈ l' → a ∈ l) →
              StronglySorted (λ a b, (weight a ≤ weight b)%Z)
                (foldl (λ sorted a, insert_sorted cmp a sorted) acc l')).
  { intros Hcut. apply (Hcut []); try done; [by intros a ?%elem_of_nil | constructor]. }
  intros acc Hacc _ Hsorted l'. revert acc Hacc Hsorted.
  induction l' as [| a l' IH]; intros acc Hacc Hsorted Hl'; simpl; [done |].
  assert (Ha : a ∈ l) by (apply Hl'; left).
  apply IH.
  - intros x [-> | Hx]%insert_sorted_elem; auto.
  - clear IH Hl'. induction Hsorted as [| b acc Hsorted IHacc Hb]; simpl.
    + repeat constructor.
    + assert (Hbl : b ∈ l) by (apply Hacc; left).
      rewrite (Hcmp b a) by done.
      destruct (Z.ltb_spec 0 (weight b - weight a)).
      * constructor; [by constructor |]. constructor; [lia |].
        eapply Forall_impl; [exact Hb |]. simpl. lia.
      * constructor.
        -- apply IHacc. intros x Hx. apply Hacc. by right.
        -- apply Forall_forall. intros x [-> | Hx]%insert_sorted_elem; [lia |].
           by eapply Forall_forall in Hb.
  - intros x Hx. apply Hl'. by right.
Qed.

End Sort.

Lemma StronglySorted_lookup_intro {A} (R : relation A) (l : list A) :
  (∀ i j x y, i < j → l !! i = Some x → l !! j = Some y → R x y) →
  StronglySorted R l.
Proof.
  induction l as [| a l IH]; intros Hl; constructor.
  - apply IH. intros i j x y Hij Hi Hj. apply (Hl (S i) (S j)); [lia | done..].
  - apply Forall_forall. intros y [j Hj]%list_elem_of_lookup.
    apply (Hl 0 (S j)); [lia | done..].
Qed.

Lemma StronglySorted_omap {A B} (R : relation A) (R' : relation B)
    (g : A → option B) (l : list A) :
  (∀ a b a' b', g a = Some a' → g b = Some b' → R a b → R' a' b') →
  StronglySorted R l → StronglySorted R' (omap g l).
Proof.
  intros Hg. induction 1 as [| a l _ IH Ha]; csimpl; [constructor |].
  destruct (g a) as [a' |] eqn:Hga; [| done]. constructor; [done |].
  apply Forall_forall. intros b' (b & Hb & Hgb)%list_elem_of_omap.
  eapply Hg; [done | done |]. by eapply Forall_forall in Ha.
Qed.

Lemma indexOf_from_found l : ∀ k node,
  (∃ x, x ∈ l ∧ addr x = addr node) → (k ≤ indexOf_from k l node)%Z.
Proof.
  induction l as [| y l IH]; intros k node (x & Hx & Hxn);
    [by apply elem_of_nil in Hx |].
  simpl. unfold same_object. case_bool_decide as Hy; [lia |].
  apply elem_of_cons in Hx as [-> | Hx]; [done |].
  etrans; [| apply IH; eauto]. lia.
Qed.

Lemma indexOf_from_lookup l : ∀ k i x,
  NoDup (addr <$> l) → l !! i = Some x →
  indexOf_from k l x = (k + Z.of_nat i)%Z.
Proof.
  induction l as [| y l IH]; intros k i x Hnd Hi; [done |].
  apply NoDup_cons in Hnd as [Hy Hnd]. simpl. unfold same_object.
  destruct i as [| i]; simpl in Hi.
  - injection Hi as ->. rewrite bool_decide_eq_true_2 by done. lia.
  - rewrite bool_decide_eq_false_2.
    + rewrite (IH _ i) by done. lia.
    + intros Heq. apply Hy. rewrite Heq. apply list_elem_of_fmap.
      exists x. split; [done |]. by eapply list_elem_of_lookup_2.
Qed.

Section DriverOrder.

Variable StringToNumber : string → number.
Variable race : list exn → nat.

#[local] Abbreviation render := (renderToObject StringToNumber race).

(** The results of [renderFile] before they are told apart: one outcome
    per entry, the entries sorted by the place of their node. *)
Lemma renderFile_sorted exports :
  NoDup exports.*1 →
  Forall (λ key, array_index key = None) exports.*1 →
  let orderOfExecution := getVNode <$> unravelOrderOfDependencies exports.*2 in
  let sorted :=
    sort (λ a b : string * VNodeObj,
            indexOf orderOfExecution a.2 - indexOf orderOfExecution b.2)%Z
      ((λ kv, (kv.1, getVNode kv.2)) <$> exports) in
  let results := (λ kn, (kn.1, render (shape kn.2) [])) <$> sorted in
  failures (renderFile StringToNumber race exports) = omap rejected results
  ∧ fulfilled (renderFile StringToNumber race exports) = omap resolved results.
Proof.
  intros Hnd Hplain orderOfExecution sorted results. unfold renderFile.
  fold orderOfExecution. fold sorted.
  assert (Hsame : sorted.*1 ≡ₚ exports.*1).
  { unfold sorted. rewrite sort_Permutation, <-list_fmap_compose.
    by rewrite (list_fmap_ext _ fst exports) by done. }
  assert (Hkeys : NoDup sorted.*1) by (by rewrite Hsame).
  assert (Hidx : Forall (λ key, array_index key = None) sorted.*1)
    by (by rewrite Hsame).
  rewrite (foldl_assign_fresh (λ n, render (shape n) [])) by
    (done || intros; apply not_elem_of_nil).
  rewrite app_nil_l, zip_fst_snd. by split.
Qed.

(** Each of the two lists is sorted by the place of the nodes. *)
Lemma renderFile_sorted_by_position exports :
  NoDup exports.*1 →
  Forall (λ key, array_index key = None) exports.*1 →
  let batch := renderFile StringToNumber race exports in
  let earlier := λ k1 k2, (position exports k1 ≤ position exports k2)%Z in
  StronglySorted (λ a b, earlier a.1 b.1) (fulfilled batch)
  ∧ StronglySorted (λ a b, earlier a.1 b.1) (failures batch).
Proof.
  intros Hnd Hplain batch earlier.
  destruct (renderFile_sorted exports Hnd Hplain) as [Hfail Hful].
  cbv zeta in Hfail, Hful. subst batch. rewrite Hfail, Hful. clear Hfail Hful.
  set (orderOfExecution := getVNode <$> unravelOrderOfDependencies exports.*2).
  set (entries := (λ kv : string * tree, (kv.1, getVNode kv.2)) <$> exports).
  set (cmp := λ a b : string * VNodeObj,
                (indexOf orderOfExecution a.2 - indexOf orderOfExecution b.2)%Z).
  assert (Hpos : ∀ kn, kn ∈ entries →
            position exports kn.1 = indexOf orderOfExecution kn.2).
  { intros kn ([k t] & -> & Hin)%list_elem_of_fmap. unfold position. simpl.
    by rewrite (lookup_key_elem k t exports Hnd Hin). }
  assert (Hsorted : StronglySorted (λ a b : string * VNodeObj, earlier a.1 b.1)
                      (sort cmp entries)).
  { assert (Hw : StronglySorted
              (λ a b : string * VNodeObj,
                 (indexOf orderOfExecution a.2 ≤ indexOf orderOfExecution b.2)%Z)
              (sort cmp entries)) by (by apply sort_sorted).
    apply StronglySorted_lookup_intro. intros i j x y Hij Hi Hj.
    unfold earlier. rewrite !Hpos by (by eapply sort_elem, list_elem_of_lookup_2).
    apply list_elem_of_lookup_2 in Hi as Hx.
    apply take_drop_middle in Hj as Hsplit.
    rewrite <-Hsplit in Hw.
    apply (StronglySorted_app_1_elem_of _ _ _ x y) in Hw; [done | | left].
    apply list_elem_of_lookup. exists i. rewrite lookup_take_lt by done. done. }
  assert (Hres : StronglySorted
            (λ a b : string * result value, earlier a.1 b.1)
            ((λ kn : string * VNodeObj, (kn.1, render (shape kn.2) []))
               <$> sort cmp entries)).
  { eapply StronglySorted_fmap; [| exact Hsorted]. done. }
  split.
  - eapply StronglySorted_omap; [| exact Hres].
    intros [k1 [e1 | v1]] [k2 [e2 | v2]] a' b'; unfold resolved; simpl;
      intros; by simplify_eq.
  - eapply StronglySorted_omap; [| exact Hres].
    intros [k1 [e1 | v1]] [k2 [e2 | v2]] a' b'; unfold rejected; simpl;
      intros; by simplify_eq.
Qed.

(** X14: the results come back in the order of execution, not in the
    order of the exports: in the list of the fulfilled and in the list of
    the failures alike, an entry never comes before one whose node has an
    earlier place in the resolver's order. With one object per address
    every exported node has a place there. This is for export names that
    are no array indices: those, the object that collects the promises
    lists first. *)
Theorem renderFile_in_execution_order (exports : list (string * tree)) :
  NoDup exports.*1 →
  Forall (λ key, array_index key = None) exports.*1 →
  let batch := renderFile StringToNumber race exports in
  let earlier := λ k1 k2, (position exports k1 ≤ position exports k2)%Z in
  StronglySorted earlier (fulfilled batch).*1
  ∧ StronglySorted earlier (failures batch).*1
  ∧ (consistent exports.*2 →
     ∀ key, key ∈ exports.*1 → (0 ≤ position exports key)%Z).
Proof.
  intros Hnd Hplain batch earlier.
  destruct (renderFile_sorted_by_position exports Hnd Hplain) as [Hful Hfail].
  split_and!.
  - eapply StronglySorted_fmap; [| exact Hful]. done.
  - eapply StronglySorted_fmap; [| exact Hfail]. done.
  - intros Hcons key ([k t] & -> & Hin)%list_elem_of_fmap. unfold position.
    simpl. rewrite (lookup_key_elem k t exports Hnd Hin).
    apply (indexOf_from_found _ 0%Z). exists (getVNode t). split; [| done].
    apply list_elem_of_fmap. exists (Raw (getVNode t)). split; [done |].
    apply unravel_holds_node; [done |].
    apply list_elem_of_fmap. by exists (k, t).
Qed.

(** X15: exports that are raw nodes, each object once, are resolved to
    themselves, so nothing is moved: each of the two lists holds its
    entries in the order of the exports, no export name being an array
    index or [__proto__]. *)
Theorem renderFile_keeps_export_order (exports : list (string * tree)) :
  NoDup exports.*1 →
  Forall (λ key, array_index key = None ∧ key ≠ "__proto__") exports.*1 →
  Forall (λ t, instanceof_DependantNodeTree t = false) exports.*2 →
  NoDup (ref_of <$> exports.*2) →
  let batch := renderFile StringToNumber race exports in
  fulfilled batch = omap resolved (settles StringToNumber race <$> exports)
  ∧ failures batch = omap rejected (settles StringToNumber race <$> exports).
Proof.
  intros Hnd Hnames Hraw Hobj batch.
  assert (Hplain : Forall (λ key, array_index key = None) exports.*1).
  { eapply Forall_impl; [exact Hnames |]. by intros key [? _]. }
  destruct (renderFile_sorted exports Hnd Hplain) as [Hfail Hful].
  cbv zeta in Hfail, Hful. subst batch. rewrite Hfail, Hful. clear Hfail Hful.
  rewrite (unravel_raw _ Hraw Hobj).
  set (entries := (λ kv : string * tree, (kv.1, getVNode kv.2)) <$> exports).
  assert (Horder : getVNode <$> exports.*2 = entries.*2).
  { unfold entries. by rewrite <-!list_fmap_compose. }
  assert (Haddr : NoDup (addr <$> entries.*2)).
  { rewrite <-Horder. apply (NoDup_fmap_1 RVNode).
    replace (RVNode <$> (addr <$> (getVNode <$> exports.*2)))
      with (ref_of <$> exports.*2); [done |].
    clear -Hraw. induction Hraw as [| [v |] l Ht _ IH]; [done | | done].
    csimpl. by f_equal. }
  rewrite Horder. rewrite sort_in_order.
  - unfold entries. rewrite <-list_fmap_compose. done.
  - apply StronglySorted_lookup_intro. intros i j x y Hij Hi Hj.
    unfold indexOf.
    rewrite (indexOf_from_lookup _ _ i x.2 Haddr),
            (indexOf_from_lookup _ _ j y.2 Haddr);
      [lia | by rewrite list_lookup_fmap, Hj | by rewrite list_lookup_fmap, Hi].
Qed.

End DriverOrder.

Lemma renderFile_in_execution_order_witness :
  let web := Raw {| addr := 1; shape := VNode (TString "kind") [Prim (PString "web")] |} in
  let app := Raw {| addr := 2; shape := VNode (TString "kind") [Prim (PString "app")] |} in
  let exports := [("app", DependantNodeTree 3 [web] app); ("web", web)] in
  NoDup exports.*1
  ∧ (fulfilled (renderFile decimal first_listed exports)).*1 = ["web"; "app"]
  ∧ StronglySorted
      (λ k1 k2, (position exports k1 ≤ position exports k2)%Z) ["web"; "app"].
Proof.
  intros web app exports.
  assert (Hnd : NoDup exports.*1).
  { apply NoDup_cons. split; [| apply NoDup_singleton].
    intros [=]%list_elem_of_singleton. }
  assert (Hplain : Forall (λ key, array_index key = None) exports.*1)
    by compute_done.
  destruct (renderFile_in_execution_order decimal first_listed exports Hnd Hplain)
    as (Hful & _ & _).
  split_and!; [exact Hnd | reflexivity | exact Hful].
Defined.

Lemma renderFile_keeps_export_order_witness :
  let web := Raw {| addr := 1; shape := VNode (TString "kind") [Prim (PString "web")] |} in
  let app := Raw {| addr := 2; shape := VNode (TString "kind") [Prim (PString "app")] |} in
  let exports := [("web", web); ("app", app)] in
  fulfilled (renderFile decimal first_listed exports)
  = [("web", VObj [("kind", VStr "web")]); ("app", VObj [("kind", VStr "app")])].
Proof.
  intros web app exports.
  destruct (renderFile_keeps_export_order decimal first_listed exports)
    as [Hful _].
  - apply NoDup_cons. split; [| apply NoDup_singleton].
    intros [=]%list_elem_of_singleton.
  - compute_done.
  - repeat constructor.
  - apply NoDup_cons. split; [| apply NoDup_singleton].
    intros [=]%list_elem_of_singleton.
  - rewrite Hful. reflexivity.
Defined.

(** ** The renderer: where a failure says it comes from *)

Section ErrorPath.

Variable StringToNumber : string → number.
Variable race : list exn → nat.

#[local] Abbreviation render := (renderToObject StringToNumber race).

Lemma paths_child type children child q :
  (∀ name call, type ≠ TFunction name call) →
  child ∈ children → q ∈ paths child →
  stack_of type [] ++ q ∈ paths (VNode type children).
Proof.
  intros Htype Hchild Hq. simpl. right. apply list_elem_of_fmap.
  exists q. split; [done |].
  assert (q ∈ children ≫= paths) by (apply list_elem_of_bind; eauto).
  destruct type as [tag | name call |]; [done | | done].
  by destruct (Htype name call).
Qed.

Lemma render_origin_path v : ∀ callStack m p,
  plain_throws v = true →
  render v callStack = throw (OriginError m p) →
  ∃ q, q ∈ paths v ∧ p = callStack ++ q.
Proof.
  induction v as [| p0 | | tag children IHc | name e children IHc
                 | name returned children IHr IHc | sym children IHc]
    using vnode_ind; intros callStack m p Hplain; try done.
  - intros [= _ <-]. exists []. split; [left | by rewrite app_nil_r].
  - (* string tag *)
    simpl. intros (e0 & Hbody & Heq)%try_catch_throws.
    assert (Hhere : ∃ q, q ∈ paths (VNode (TString tag) children)
                         ∧ callStack ++ [tag] = callStack ++ q).
    { exists [tag]. split; [left | done]. }
    assert (Hchild : ∀ e, e ∈ rejections ((λ c, render c (callStack ++ [tag])) <$> children) →
              rethrow (callStack ++ [tag]) e = OriginError m p →
              ∃ q, q ∈ paths (VNode (TString tag) children) ∧ p = callStack ++ q).
    { intros e (c & Hc & Hr)%rejections_fmap Hre.
      destruct e as [m' | m' p' |]; simplify_eq/=; [done |].
      rewrite Forall_forall in IHc.
      assert (Hpc : plain_throws c = true).
      { rewrite forallb_forall in Hplain. apply Hplain. by apply list_elem_of_In. }
      destruct (IHc c Hc _ _ _ Hpc Hr) as (q & Hq & ->).
      exists ([tag] ++ q). split; [| by rewrite <-app_assoc].
      by apply (paths_child (TString tag) children c q). }
    destruct children as [| child [| child' children]].
    + apply bind_throw in Hbody as [Hall | (rs & _ & Hbody)].
      * apply Promise_all_throws in Hall. by apply (Hchild e0).
      * apply bind_throw in Hbody as [Hm | (? & _ & [=])].
        apply reduce_deepMerge_throws in Hm as (key & ->). by simplify_eq/=.
    + apply bind_throw in Hbody as [Hr | (? & _ & [=])].
      apply (Hchild e0); [| done]. simpl. unfold rejections. simpl.
      rewrite Hr. by left.
    + apply bind_throw in Hbody as [Hall | (rs & _ & Hbody)].
      * apply Promise_all_throws in Hall. by apply (Hchild e0).
      * apply bind_throw in Hbody as [Hm | (? & _ & [=])].
        apply reduce_deepMerge_throws in Hm as (key & ->). by simplify_eq/=.
  - (* a component that throws *)
    simpl. intros [= Heq]. destruct e; simplify_eq/=.
    exists [name]. split; [left | done].
  - (* a component that returns *)
    simpl. intros (e0 & Hbody & Heq)%try_catch_throws.
    simpl in Hplain. apply andb_prop in Hplain as [Hplain _].
    destruct e0 as [m' | m' p' |]; simplify_eq/=.
    + exists [name]. split; [left | done].
    + destruct (IHr _ _ _ Hplain Hbody) as (q & Hq & ->).
      exists ([name] ++ q). split; [| by rewrite <-app_assoc].
      right. apply list_elem_of_fmap. eauto.
  - (* a symbol *)
    simpl. intros (e0 & Hbody & Heq)%try_catch_throws.
    assert (Hhere : ∃ q, q ∈ paths (VNode (TSymbol sym) children)
                         ∧ callStack = callStack ++ q).
    { exists []. split; [left | by rewrite app_nil_r]. }
    assert (Hchild : ∀ e, e ∈ rejections ((λ c, render c callStack) <$> children) →
              rethrow callStack e = OriginError m p →
              ∃ q, q ∈ paths (VNode (TSymbol sym) children) ∧ p = callStack ++ q).
    { intros e (c & Hc & Hr)%rejections_fmap Hre.
      destruct e as [m' | m' p' |]; simplify_eq/=; [done |].
      rewrite Forall_forall in IHc.
      assert (Hpc : plain_throws c = true).
      { rewrite forallb_forall in Hplain. apply Hplain. by apply list_elem_of_In. }
      destruct (IHc c Hc _ _ _ Hpc Hr) as (q & Hq & ->).
      exists q. split; [| done].
      by apply (paths_child (TSymbol sym) children c q). }
    destruct sym as [| | description].
    + apply bind_throw in Hbody as [Hall | (rs & _ & Hm)].
      * apply Promise_all_throws in Hall. by apply (Hchild e0).
      * apply reduce_deepMerge_throws in Hm as (key & ->). by simplify_eq/=.
    + apply bind_throw in Hbody as [Hall | (rs & _ & [=])].
      apply Promise_all_throws in Hall. by apply (Hchild e0).
    + by simplify_eq/=.
Qed.

(** X16: when no component of the tree throws an [OriginError] of its own
    making, the call stack that a failure carries is the call stack the
    rendering started with, followed by the names met on the way down from
    the root to one node of the tree: the tags and the names of the
    components, in that order, a [Fragment] or a [List] leaving no name;
    under a component the way down goes through what it returns. *)
Theorem render_error_path (v : vnode) (callStack : list string)
    (m : string) (p : list string) :
  plain_throws v = true →
  render v callStack = throw (OriginError m p) →
  ∃ q, q ∈ paths v ∧ p = callStack ++ q.
Proof. apply render_origin_path. Qed.

End ErrorPath.

Lemma render_error_path_witness :
  let failing := VNode (TFunction "Containers" (inl (Error "boom"))) [] in
  let v :=
    VNode (TString "spec")
      [VNode (TSymbol FragmentSymbol)
         [VNode (TString "replicas") [Prim (PString "3")]; failing]] in
  renderToObject decimal first_listed v ["Deployment"]
  = throw (OriginError "boom" ["Deployment"; "spec"; "Containers"])
  ∧ ∃ q, q ∈ paths v ∧ ["Deployment"; "spec"; "Containers"] = ["Deployment"] ++ q.
Proof.
  intros failing v. split; [reflexivity |].
  apply (render_error_path decimal first_listed v ["Deployment"] "boom");
    reflexivity.
Defined.

(** ** Wrappers without dependencies *)

Lemma consistent_sub l l' :
  (∀ s, s ∈ l' ≫= subtrees → s ∈ l ≫= subtrees) →
  consistent l → consistent l'.
Proof. intros Hsub Hcons s1 s2 Hs1 Hs2. apply Hcons; by apply Hsub. Qed.

(** X17: a declaration whose wrappers name no dependency resolves like the
    bare node it stands for: with one object per address, putting
    [depends([], n)], or any chain of such wrappers, in the place of [n]
    leaves the order as it is. *)
Theorem unravel_no_deps_transparent (pre post : list tree) (t : tree) :
  no_deps t →
  consistent (pre ++ t :: post) →
  unravelOrderOfDependencies (pre ++ t :: post)
  = unravelOrderOfDependencies (pre ++ Raw (getVNode t) :: post).
Proof.
  intros Hno Hcons. rewrite !unravel_first_visit.
  - rewrite !bind_app, !bind_cons. by rewrite (flatten_no_deps t Hno).
  - eapply consistent_sub; [| exact Hcons]. intros s.
    rewrite !bind_app, !bind_cons, !elem_of_app.
    intros [Hs | [Hs | Hs]]; [by left | | by right; right].
    right; left. apply list_elem_of_singleton in Hs as ->.
    apply flatten_subtrees, flatten_getVNode.
  - done.
Qed.

Lemma unravel_no_deps_transparent_witness :
  let web := Raw {| addr := 1; shape := VNode (TString "kind") [Prim (PString "web")] |} in
  let app := Raw {| addr := 2; shape := VNode (TString "kind") [Prim (PString "app")] |} in
  let wrapped := DependantNodeTree 3 [] app in
  unravelOrderOfDependencies ([web] ++ wrapped :: [])
  = unravelOrderOfDependencies ([web] ++ Raw (getVNode wrapped) :: []).
Proof.
  intros web app wrapped.
  apply (unravel_no_deps_transparent [web] [] wrapped).
  - by split.
  - solve_consistent.
Defined.

(** ** The batch driver: what a failure looks like *)

Section DriverFailures.

Variable StringToNumber : string → number.
Variable race : list exn → nat.

#[local] Abbreviation render := (renderToObject StringToNumber race).

Lemma render_throws_shape v callStack e :
  render v callStack = throw e →
  (∃ m p, e = OriginError m p) ∨ e = Error "Unknown error".
Proof.
  destruct v as [| p0 | | type children]; try done.
  - intros [= <-]. left. eauto.
  - simpl. intros (e0 & _ & ->)%try_catch_throws. apply rethrow_shape.
Qed.

(** X18: every failure that [renderFile] reports for an export is an
    [OriginError], or the plain [Error] "Unknown error" that stands for a
    thrown value that was no [Error]; and when no component of the
    exported tree throws an [OriginError] of its own making, the call
    stack of the failure is a way down from the root of that tree. *)
Theorem renderFile_failure_shape (exports : list (string * tree))
    (key : string) (e : exn) :
  NoDup exports.*1 →
  (key, e) ∈ failures (renderFile StringToNumber race exports) →
  ∃ t, (key, t) ∈ exports
       ∧ ((∃ m p, e = OriginError m p
                  ∧ (plain_throws (shape (getVNode t)) = true →
                     p ∈ paths (shape (getVNode t))))
          ∨ e = Error "Unknown error").
Proof.
  intros Hnd Hin.
  destruct (renderFile_results StringToNumber race exports Hnd)
    as (results & Hperm & Hfail & _).
  rewrite Hfail in Hin.
  apply list_elem_of_omap in Hin as ([k r] & Hin & Hres).
  rewrite Hperm in Hin.
  apply list_elem_of_fmap in Hin as ([k' t] & [= -> ->] & Hin).
  unfold rejected in Hres. simpl in Hres.
  destruct (render (shape (getVNode t)) []) as [e' | v] eqn:Hr; simplify_eq.
  exists t. split; [done |].
  destruct (render_throws_shape _ _ _ Hr) as [(m & p & ->) | ->]; [left | by right].
  exists m, p. split; [done |]. intros Hplain.
  by destruct (render_origin_path _ _ _ _ _ _ Hplain Hr) as (q & Hq & ->).
Qed.

End DriverFailures.

Lemma renderFile_failure_shape_witness :
  let good :=
    Raw {| addr := 1; shape := VNode (TString "x") [Prim (PString "hello")] |} in
  let bad :=
    Raw {| addr := 2;
           shape := VNode (TString "spec")
                      [VNode (TFunction "Broken" (inl (Error "boom"))) []] |} in
  let exports := [("a", good); ("b", bad)] in
  failures (renderFile decimal first_listed exports)
  = [("b", OriginError "boom" ["spec"; "Broken"])]
  ∧ ∃ t, ("b", t) ∈ exports
         ∧ ((∃ m p, OriginError "boom" ["spec"; "Broken"] = OriginError m p
                    ∧ (plain_throws (shape (getVNode t)) = true →
                       p ∈ paths (shape (getVNode t))))
            ∨ OriginError "boom" ["spec"; "Broken"] = Error "Unknown error").
Proof.
  intros good bad exports. split; [reflexivity |].
  apply (renderFile_failure_shape decimal first_listed exports "b").
  - apply NoDup_cons. split; [| apply NoDup_singleton].
    intros [=]%list_elem_of_singleton.
  - left.
Defined.

(** ** The store-level merge: what the result shares with its arguments *)

Section Sharing.

Import Heap.

Lemma writes_only_pure {A} out ks (m : M A) :
  (∀ h, (m h).1 = h) → writes_only out ks m.
Proof. intros Hm h o Ho. rewrite Hm. eauto. Qed.

Lemma writes_only_bind {A B} out ks (m : M A) (k : A → M B) :
  writes_only out ks m → (∀ a, writes_only out ks (k a)) →
  writes_only out ks (m ≫= k).
Proof.
  intros Hm Hk h o Ho. destruct (Hm h o Ho) as (o1 & Ho1 & Hsame1).
  rewrite M_bind_run. destruct (m h) as [h1 [a | e |]]; simpl in *; eauto.
  destruct (Hk a h1 o1 Ho1) as (o2 & Ho2 & Hsame2).
  exists o2. split; [done |]. intros key Hkey.
  by rewrite Hsame2, Hsame1.
Qed.

Lemma writes_only_weaken {A} out ks ks' (m : M A) :
  (∀ k, k ∈ ks → k ∈ ks') → writes_only out ks m → writes_only out ks' m.
Proof.
  intros Hsub Hm h o Ho. destruct (Hm h o Ho) as (o' & Ho' & Hsame).
  exists o'. split; [done |]. intros k Hk. apply Hsame. auto.
Qed.

Lemma writes_only_keeps {A} out (m : M A) :
  keeps {[out]} m → writes_only out [] m.
Proof.
  intros Hm h o Ho. destruct (Hm h) as [_ Hsame].
  - apply singleton_subseteq_l, elem_of_dom. eauto.
  - exists o. split; [| done]. rewrite Hsame; [done | set_solver].
Qed.

Lemma writes_only_alloc_bind {B} out ks (obj : object) (k : nat → M B) :
  (∀ l, writes_only out ks (k l)) → writes_only out ks (alloc obj ≫= k).
Proof.
  intros Hk h o Ho. rewrite M_bind_run. unfold alloc.
  apply Hk. rewrite lookup_insert_ne; [done |].
  intros <-. apply (is_fresh (dom h)), elem_of_dom. eauto.
Qed.

Lemma writes_only_set_prop out key v :
  writes_only out [key] (set_prop out key v).
Proof.
  intros h o Ho. rewrite (set_prop_run _ _ _ _ _ Ho). simpl.
  exists (assign key v o). split; [apply lookup_insert_eq |].
  intros k Hk. apply lookup_assign_ne. intros ->. apply Hk. left.
Qed.

Lemma writes_only_each merge target source out key :
  (∀ tv sv, keeps {[out]} (merge tv sv)) →
  writes_only out [key] (each merge target source out key).
Proof.
  intros Hmerge. unfold each.
  apply writes_only_bind; [by apply writes_only_pure |]. intros sv.
  apply writes_only_bind; [by apply writes_only_pure |]. intros [|].
  - apply writes_only_bind; [by apply writes_only_pure |]. intros [|]; simpl.
    + apply writes_only_bind; [by apply writes_only_pure |]. intros tv.
      apply writes_only_bind.
      * eapply writes_only_weaken; [| apply writes_only_keeps, Hmerge].
        by intros k ?%elem_of_nil.
      * intros merged. apply writes_only_set_prop.
    + apply writes_only_set_prop.
  - apply writes_only_bind; [by apply writes_only_pure |]. intros [|].
    + apply writes_only_bind; [by apply writes_only_pure |]. intros tv.
      apply writes_only_bind; [by apply writes_only_pure |]. intros tarr.
      apply writes_only_bind; [by destruct tarr; apply writes_only_pure |].
      intros titems.
      apply writes_only_bind; [by apply writes_only_pure |]. intros sitems.
      apply writes_only_alloc_bind. intros copy. apply writes_only_set_prop.
    + apply writes_only_bind; [by apply writes_only_pure |]. intros [|].
      * by apply writes_only_pure.
      * apply writes_only_set_prop.
Qed.

Lemma writes_only_forEach merge target source out ks :
  (∀ tv sv, keeps {[out]} (merge tv sv)) →
  writes_only out ks (forEach merge target source out ks).
Proof.
  intros Hmerge. induction ks as [| key ks IH]; simpl.
  - by apply writes_only_pure.
  - apply writes_only_bind.
    + eapply writes_only_weaken; [| by apply writes_only_each].
      intros k ->%list_elem_of_singleton. left.
    + intros _. eapply writes_only_weaken; [| exact IH]. intros k Hk. by right.
Qed.

Lemma forEach_app merge target source out ks1 ks2 h :
  forEach merge target source out (ks1 ++ ks2) h
  = (_ ← forEach merge target source out ks1;
     forEach merge target source out ks2) h.
Proof.
  revert h. induction ks1 as [| key ks1 IH]; intros h; [done |].
  cbn [app forEach]. rewrite !M_bind_run.
  destruct (each merge target source out key h) as [h1 [[] | e |]]; [| done..].
  rewrite IH. by rewrite M_bind_run.
Qed.

(** The round of a key under which the source holds an object that the
    target has nothing to merge with, not even an inherited function: the
    key is given that very reference, and no later round takes it back. *)
Lemma forEach_adopts fuel lt ls out tjprops sjprops key l o
    (h0 : gmap nat object) :
  h0 !! lt = Some (Obj tjprops) → h0 !! ls = Some (Obj sjprops) →
  h0 !! l = Some (Obj o) →
  lookup_key key sjprops = Some (JRef l) → lookup_key key tjprops = None →
  inherited key = false →
  ∀ ks, NoDup ks → key ∈ ks →
  ∀ h oj h', out ∉ dom h0 → h0 ⊆ h → h !! out = Some (Obj oj) →
    forEach (deepMerge fuel) (JRef lt) (JRef ls) out ks h = (h', Ok tt) →
    ∃ oj', h' !! out = Some (Obj oj') ∧ lookup_key key oj' = Some (JRef l).
Proof.
  intros Hlt Hls Hl Hs Ht Hinh ks Hnd Hkey h oj h' Hout Hsub Hoj.
  apply list_elem_of_split in Hkey as (ks1 & ks2 & ->).
  apply NoDup_app in Hnd as (_ & Hdis & [Hkey2 _]%NoDup_cons).
  rewrite forEach_app, M_bind_run.
  destruct (forEach (deepMerge fuel) (JRef lt) (JRef ls) out ks1 h)
    as [h1 r1] eqn:Hrun1.
  destruct (writes_only_forEach (deepMerge fuel) (JRef lt) (JRef ls) out ks1
              (λ tv sv, keeps_deepMerge fuel _ tv sv) h oj Hoj)
    as (oj1 & Hoj1 & _).
  destruct (keeps_forEach (dom h0) (deepMerge fuel) (JRef lt) (JRef ls) out ks1
              (λ tv sv, keeps_deepMerge fuel _ tv sv) Hout h)
    as [_ Hsame]; [by apply subseteq_dom |].
  rewrite Hrun1 in Hoj1, Hsame. simpl in Hoj1, Hsame.
  assert (Hin1 : ∀ a x, h0 !! a = Some x → h1 !! a = Some x).
  { intros a x Ha. rewrite Hsame by (apply elem_of_dom; eauto).
    by eapply lookup_weaken. }
  destruct r1 as [[] | e |]; [| done..].
  cbn [forEach]. rewrite M_bind_run.
  rewrite (each_adopt _ lt ls out tjprops sjprops key (JRef l) h1
             (Hin1 _ _ Hlt) (Hin1 _ _ Hls) Hs o (Hin1 _ _ Hl) Ht Hinh).
  rewrite (set_prop_run _ _ _ _ _ Hoj1).
  set (h2 := <[out := Obj (assign key (JRef l) oj1)]> h1).
  intros Hrun2.
  destruct (writes_only_forEach (deepMerge fuel) (JRef lt) (JRef ls) out ks2
              (λ tv sv, keeps_deepMerge fuel _ tv sv) h2
              (assign key (JRef l) oj1))
    as (oj' & Hoj' & Hsame2); [apply lookup_insert_eq |].
  rewrite Hrun2 in Hoj'. simpl in Hoj'.
  exists oj'. split; [done |]. rewrite Hsame2 by done. apply lookup_assign_eq.
Qed.

(** X19: the result of a merge of two objects is a new object, not a deep
    copy. What the target holds under the keys the source lacks is in the
    result as it was, an object or an array by reference; and an object
    that the source holds under a key that the target neither has nor
    inherits from [Object.prototype] is adopted by reference: the result
    shares it with the source. *)
Theorem deepMerge_shares_structure (fuel lt ls : nat)
    (tjprops sjprops : list (string * jsval))
    (h h' : gmap nat object) (v : jsval) :
  h !! lt = Some (Obj tjprops) →
  h !! ls = Some (Obj sjprops) →
  NoDup sjprops.*1 →
  deepMerge (S fuel) (JRef lt) (JRef ls) h = (h', Ok v) →
  ∃ out oprops,
    v = JRef out ∧ (out ∉ dom h) ∧ (h' !! out = Some (Obj oprops))
    ∧ (∀ key, key ∉ sjprops.*1 →
         lookup_key key oprops = lookup_key key tjprops)
    ∧ (∀ key l o,
         lookup_key key sjprops = Some (JRef l) → h !! l = Some (Obj o) →
         lookup_key key tjprops = None → inherited key = false →
         lookup_key key oprops = Some (JRef l)).
Proof.
  intros Hlt Hls Hnd.
  set (out := fresh (dom h)).
  assert (Hout : out ∉ dom h) by apply is_fresh.
  set (h1 := <[out := Obj tjprops]> h).
  assert (Hsub : h ⊆ h1).
  { apply insert_subseteq. by apply not_elem_of_dom. }
  assert (Hrun0 : deepMerge (S fuel) (JRef lt) (JRef ls) h
                  = (_ ← forEach (deepMerge fuel) (JRef lt) (JRef ls) out
                           sjprops.*1;
                     mret (JRef out)) h1).
  { cbn [deepMerge]. rewrite M_bind_run. unfold own_props at 1.
    cbn [deref]. rewrite Hlt.
    unfold alloc. rewrite M_bind_run. fold out. fold h1.
    rewrite M_bind_run. unfold isObject at 1.
    rewrite M_bind_run. unfold isObject at 1.
    cbn [deref]. rewrite (lookup_weaken _ _ _ _ Hlt Hsub).
    rewrite (lookup_weaken _ _ _ _ Hls Hsub). cbn [andb].
    rewrite !M_bind_run. unfold keys at 1. cbn [deref].
    by rewrite (lookup_weaken _ _ _ _ Hls Hsub). }
  rewrite Hrun0, M_bind_run.
  destruct (forEach (deepMerge fuel) (JRef lt) (JRef ls) out sjprops.*1 h1)
    as [h2 r] eqn:Hrun.
  destruct r as [[] | e |]; [| done..]. intros [= <- <-].
  assert (Hobj1 : h1 !! out = Some (Obj tjprops)) by apply lookup_insert_eq.
  destruct (writes_only_forEach (deepMerge fuel) (JRef lt) (JRef ls) out
              sjprops.*1 (λ tv sv, keeps_deepMerge fuel _ tv sv) h1 tjprops Hobj1)
    as (oprops & Hoprops & Hsame).
  rewrite Hrun in Hoprops. simpl in Hoprops.
  exists out, oprops. split_and!; try done.
  intros key l o Hs Hl Ht Hinh.
  destruct (forEach_adopts fuel lt ls out tjprops sjprops key l o h
              Hlt Hls Hl Hs Ht Hinh sjprops.*1 Hnd) with (h := h1) (oj := tjprops)
              (h' := h2) as (oj' & Hoj' & Hkey); try done.
  - apply lookup_key_Some in Hs. apply list_elem_of_fmap. by exists (key, JRef l).
  - rewrite Hoprops in Hoj'. by injection Hoj' as <-.
Qed.

End Sharing.

Lemma deepMerge_shares_structure_witness :
  let h : gmap nat Heap.object :=
    {[ 0 := Heap.Obj [("name", Heap.JStr "web")];
       1 := Heap.Obj [("kind", Heap.JStr "Service")];
       2 := Heap.Obj [("metadata", Heap.JRef 0)] ]} in
  let run := Heap.deepMerge 2 (Heap.JRef 1) (Heap.JRef 2) h in
  ∃ out oprops,
    run.2 = Heap.Ok (Heap.JRef out)
    ∧ run.1 !! out = Some (Heap.Obj oprops)
    ∧ lookup_key "kind" oprops = Some (Heap.JStr "Service")
    ∧ lookup_key "metadata" oprops = Some (Heap.JRef 0).
Proof.
  intros h run.
  destruct run as [h' [v | e |]] eqn:Hrun;
    [| vm_compute in Hrun; discriminate Hrun..].
  destruct (deepMerge_shares_structure 1 1 2
              [("kind", Heap.JStr "Service")] [("metadata", Heap.JRef 0)]
              h h' v)
    as (out & oprops & -> & _ & Hout & Hkeep & Hadopt);
    [reflexivity | reflexivity | apply NoDup_singleton | exact Hrun |].
  exists out, oprops. split_and!; [done | done | |].
  - rewrite Hkeep; [reflexivity |]. by intros [=]%list_elem_of_singleton.
  - by apply (Hadopt "metadata" 0 [("name", Heap.JStr "web")]).
Defined.

(** ** jsx-runtime: building nodes *)

Lemma flat_ones (cs : list vnode) : flat (One <$> cs) = One <$> cs.
Proof. induction cs as [| c cs IH]; [done |]. unfold flat in *. csimpl. by f_equal. Qed.

Lemma flat_groups (groups : list (list vnode)) :
  as_child <$> flat ((λ g, Many (One <$> g)) <$> groups) = concat groups.
Proof.
  induction groups as [| g groups IH]; [done |].
  unfold flat in *. csimpl. rewrite fmap_app. rewrite IH. f_equal.
  rewrite <-list_fmap_compose. by rewrite list_fmap_id.
Qed.

Lemma flat_keeps_deep items inner deeper :
  Many inner ∈ items → Many deeper ∈ inner → Many deeper ∈ flat items.
Proof.
  intros Hinner Hdeeper. apply list_elem_of_bind. by exists (Many inner).
Qed.

Section Jsx.

Variable StringToNumber : string → number.
Variable race : list exn → nat.

#[local] Abbreviation render := (renderToObject StringToNumber race).

Lemma rejections_elem {A} (rs : list (result A)) e :
  throw e ∈ rs → e ∈ rejections rs.
Proof. intros Hin. apply list_elem_of_omap. by exists (throw e). Qed.

Lemma child_throws_all children c callStack :
  c ∈ children → throws (render c callStack) →
  throws (Promise_all race ((λ c, render c callStack) <$> children)).
Proof.
  intros Hc Hthrows.
  destruct (render c callStack) as [e | v] eqn:Hr; [| done].
  destruct (Promise_all_rejects race ((λ c, render c callStack) <$> children))
    as (e' & _ & ->); [| done].
  intros Hnil. eapply elem_of_nil. rewrite <-Hnil.
  apply rejections_elem, list_elem_of_fmap. eauto.
Qed.

Lemma tag_child_throws tag children c callStack :
  c ∈ children → throws (render c (callStack ++ [tag])) →
  throws (render (VNode (TString tag) children) callStack).
Proof.
  intros Hc Hthrows. destruct (decide (length children = 1)) as [Hone | Hmany].
  - destruct children as [| c' [| ? ?]]; try done.
    apply list_elem_of_singleton in Hc as ->. rewrite render_single.
    by destruct (render c' (callStack ++ [tag])).
  - rewrite render_many by done.
    pose proof (child_throws_all children c _ Hc Hthrows) as Hall.
    by destruct (Promise_all race _).
Qed.

(** X20: [jsx] makes the children of a node out of [props.children]: none
    when it is [undefined], the child itself when it is one child that is
    no array, and otherwise the items of the array with every array among
    them opened once, in order. An array nested deeper than that stays an
    array among the children of the node, and rendering a tag that has
    one fails. *)
Theorem jsx_flattens_once {P} (type : jsx_type P) (rest : P) :
  node_children (jsx type rest None) = []
  ∧ (∀ c, node_children (jsx type rest (Some (One c))) = [c])
  ∧ (∀ cs, node_children (jsx type rest (Some (Many (One <$> cs)))) = cs)
  ∧ (∀ groups : list (list vnode),
       node_children
         (jsx type rest (Some (Many ((λ g, Many (One <$> g)) <$> groups))))
       = concat groups)
  ∧ (∀ items inner deeper,
       Many inner ∈ items → Many deeper ∈ inner →
       Malformed ∈ node_children (jsx type rest (Some (Many items)))
       ∧ ∀ tag callStack,
           throws (render (jsx (Tag tag) rest (Some (Many items))) callStack)).
Proof.
  split_and!; try done.
  - intros cs. simpl. rewrite flat_ones, <-list_fmap_compose.
    by rewrite list_fmap_id.
  - intros groups. simpl. apply flat_groups.
  - intros items inner deeper Hinner Hdeeper.
    assert (Hin : Malformed ∈ as_child <$> flat items).
    { apply list_elem_of_fmap. exists (Many deeper). split; [done |].
      by eapply flat_keeps_deep. }
    split; [done |]. intros tag callStack.
    by apply (tag_child_throws tag _ Malformed).
Qed.

(** X21: the element [<>...</>] renders to the merge of its children and
    the element [<List>...</List>] to the array of them, each exactly when
    the node under the symbol does; and a failure that comes out of one of
    them names [Fragment] or [List] right after the call stack the element
    was rendered with, the name its component gives it, the symbol adding
    none. *)
Theorem jsx_fragment_and_list {P} (rest : P) (children : option jsx_child)
    (callStack : list string) :
  let fragment := jsx (Component "Fragment" Fragment) rest children in
  let listed := jsx (Component "List" List) rest children in
  (∀ w, render fragment callStack = ok w
        ↔ render (VNode (TSymbol FragmentSymbol) (node_children fragment))
            callStack = ok w)
  ∧ (∀ w, render listed callStack = ok w
          ↔ ∃ results,
              w = VArr results
              ∧ Forall2 (λ c v, render c callStack = ok v)
                  (node_children listed) results)
  ∧ (∀ m p, forallb plain_throws (node_children fragment) = true →
       render fragment callStack = throw (OriginError m p) →
       (callStack ++ ["Fragment"]) `prefix_of` p)
  ∧ (∀ m p, forallb plain_throws (node_children listed) = true →
       render listed callStack = throw (OriginError m p) →
       (callStack ++ ["List"]) `prefix_of` p).
Proof.
  intros fragment listed.
  assert (Hpath : ∀ name sym cs m p,
            forallb plain_throws cs = true →
            render (VNode (TFunction name (inr (VNode (TSymbol sym) cs))) cs)
              callStack = throw (OriginError m p) →
            (callStack ++ [name]) `prefix_of` p).
  { intros name sym cs m p Hplain Hr.
    rewrite render_function in Hr.
    apply try_catch_throws in Hr as (e0 & Hr & Heq).
    destruct e0 as [m' | m' p' |]; simpl in Heq; simplify_eq; [done |].
    eapply (render_origin_prefix _ _ (VNode (TSymbol sym) cs)); [| exact Hr].
    exact Hplain. }
  split_and!.
  - intros w. unfold fragment, jsx, Fragment. cbn [node_children].
    rewrite render_function, try_catch_ok.
    split; apply render_host_irrelevant.
  - intros w. unfold listed, jsx, List. cbn [node_children].
    rewrite render_function, try_catch_ok.
    rewrite <-(render_symbol_list_ok StringToNumber race _ callStack).
    split; apply render_host_irrelevant.
  - intros m p. apply Hpath.
  - intros m p. apply Hpath.
Qed.

End Jsx.

(** ** The order of the keys after several merges *)

Lemma deepMerge_keys target source merged :
  NoDup (object_keys source) →
  Forall (λ key, array_index key = None) (object_keys source) →
  deepMerge (VObj target) source = ok merged →
  ∃ props, merged = VObj props
           ∧ props.*1 = target.*1
                        ++ filter (λ key, key ∉ target.*1) (object_keys source).
Proof.
  intros Hnd Hplain. destruct source as [| | | | | sprops];
    try (intros [= <-]; eexists; split; [done | by rewrite app_nil_r]).
  intros (props & -> & Hloop)%deepMerge_objects_inv.
  exists props. split; [done |]. by apply (forEach_keys _ _ _ _ _ Hnd Hplain Hloop).
Qed.

(** X22: the keys of what several results merge to, one after the other,
    stand in the order in which the results bring them the first time: the
    keys of the first result in its order, then those the second one adds,
    and so on, a result that is no object bringing none. This is the order
    of the keys under a [Fragment] and under a tag with several children,
    when no key of a result is an array index, which would be listed
    ahead of the others, or [__proto__]. *)
Theorem reduce_deepMerge_key_order (acc : list (string * value))
    (results : list value) (merged : value) :
  Forall (λ r, NoDup (object_keys r)) results →
  Forall (λ r, Forall (λ key, array_index key = None ∧ key ≠ "__proto__")
                 (object_keys r)) results →
  reduce_deepMerge (VObj acc) results = ok merged →
  ∃ props, merged = VObj props ∧ props.*1 = first_met acc.*1 results.
Proof.
  revert acc. induction results as [| r results IH]; intros acc Hnd Hplain.
  - intros [= <-]. eauto.
  - apply Forall_cons in Hnd as [Hr Hnd].
    apply Forall_cons in Hplain as [Hkeys_r Hplain]. simpl.
    intros (acc' & Hacc & Hrest)%bind_ok.
    apply deepMerge_keys in Hacc as (props' & -> & Hkeys); [| done |].
    + destruct (IH props' Hnd Hplain Hrest) as (props & -> & Hprops).
      exists props. split; [done |]. rewrite Hprops. unfold first_met. simpl.
      by rewrite Hkeys.
    + eapply Forall_impl; [exact Hkeys_r |]. by intros key [? _].
Qed.

Lemma reduce_deepMerge_key_order_witness :
  let results :=
    [VObj [("kind", VStr "Service"); ("metadata", VObj [("name", VStr "web")])];
     VStr "stray";
     VObj [("metadata", VObj [("namespace", VStr "testing")]);
           ("spec", VObj [])]] in
  ∃ props,
    reduce_deepMerge (VObj []) results = ok (VObj props)
    ∧ props.*1 = ["kind"; "metadata"; "spec"].
Proof.
  intros results.
  destruct (reduce_deepMerge (VObj []) results) as [e | merged] eqn:Hrun;
    [vm_compute in Hrun; discriminate Hrun |].
  destruct (reduce_deepMerge_key_order [] results merged)
    as (props & -> & Hkeys); [| | exact Hrun |].
  - compute_done.
  - compute_done.
  - exists props. split; [done |]. rewrite Hkeys. reflexivity.
Defined.

(** ** The batch driver: any number of failures *)

Section DriverSettles.

Variable StringToNumber : string → number.
Variable race : list exn → nat.

#[local] Abbreviation render := (renderToObject StringToNumber race).


End DriverSettles.


(** ** Dependencies first *)

(** X24: what a supplied declaration depends on comes first. For a
    wrapper among the declarations supplied, one object per address, whose
    node is met neither from what is supplied before it nor from its own
    dependencies, every node that its dependencies reach, the node of each
    dependency included, is in the order before its own node, however many
    dependencies it has and however deep they go. *)
Theorem unravel_dependencies_first (pre post deps : list tree)
    (self : nat) (node : tree) :
  let trees := pre ++ DependantNodeTree self deps node :: post in
  consistent trees →
  node_ref node ∉ reach (pre ++ deps) →
  (∀ r, r ∈ reach deps →
     precedes r (node_ref node) (unravelOrderOfDependencies trees))
  ∧ (∀ dep, dep ∈ deps →
       precedes (node_ref dep) (node_ref node)
         (unravelOrderOfDependencies trees)).
Proof.
  intros trees Hcons Hnew.
  assert (Hreach : ∀ r, r ∈ reach deps →
            precedes r (node_ref node) (unravelOrderOfDependencies trees)).
  { intros r Hr. rewrite unravel_first_visit by done. unfold trees.
    rewrite bind_app, bind_cons. simpl. rewrite <-app_assoc, app_assoc.
    apply first_visit_precedes.
    - rewrite fmap_app. apply elem_of_app. right. by apply reach_flatten.
    - rewrite fmap_app. apply elem_of_app. left.
      apply list_elem_of_fmap. exists (Raw (getVNode node)).
      split; [done | apply flatten_getVNode].
    - intros Hin. apply Hnew, reach_flatten. by rewrite bind_app. }
  split; [done |]. intros dep Hdep. apply Hreach, reach_flatten.
  apply list_elem_of_fmap. exists (Raw (getVNode dep)). split; [done |].
  apply list_elem_of_bind. exists dep. split; [apply flatten_getVNode | done].
Qed.

Lemma unravel_dependencies_first_witness :
  let web := Raw {| addr := 1; shape := VNode (TString "kind") [Prim (PString "web")] |} in
  let db := Raw {| addr := 2; shape := VNode (TString "kind") [Prim (PString "db")] |} in
  let app := Raw {| addr := 3; shape := VNode (TString "kind") [Prim (PString "app")] |} in
  let deps := [DependantNodeTree 4 [db] web; db] in
  let trees := [] ++ DependantNodeTree 5 deps app :: [web] in
  unravelOrderOfDependencies trees = [db; web; app]
  ∧ precedes (node_ref web) (node_ref app) (unravelOrderOfDependencies trees)
  ∧ precedes (node_ref db) (node_ref app) (unravelOrderOfDependencies trees).
Proof.
  intros web db app deps trees.
  destruct (unravel_dependencies_first [] [web] deps 5 app) as [_ Hdeps].
  - solve_consistent.
  - rewrite reach_flatten. simpl.
    intros [[=] | [[=] | [[=] | []%elem_of_nil]%elem_of_cons]%elem_of_cons]%elem_of_cons.
  - split_and!; [reflexivity | |].
    + apply (Hdeps (DependantNodeTree 4 [db] web)). left.
    + apply (Hdeps db). right. left.
Defined.

(** ** The same scalar key twice among siblings *)

Lemma forEach_keys_incl merge tprops entries : ∀ output r key,
  forEach merge tprops entries output = ok r →
  key ∈ output.*1 ∨ key ∈ entries.*1 → key ∈ r.*1.
Proof.
  induction entries as [| [k sv] entries IH]; intros output r key.
  - intros [= <-] [? | []%elem_of_nil]. done.
  - intros (v & Hrest & _)%forEach_step Hkey.
    apply (IH _ _ _ Hrest). rewrite elem_of_assign_keys. csimpl in Hkey.
    rewrite elem_of_cons in Hkey. tauto.
Qed.

Lemma deepMerge_keys_incl acc r merged key :
  deepMerge (VObj acc) r = ok merged →
  key ∈ acc.*1 ∨ key ∈ object_keys r →
  ∃ acc', merged = VObj acc' ∧ key ∈ acc'.*1.
Proof.
  destruct r as [| | | | | sprops];
    try (intros [= <-] [? | []%elem_of_nil]; eauto).
  intros (props & -> & Hloop)%deepMerge_objects_inv Hkey.
  exists props. split; [done |]. by eapply forEach_keys_incl.
Qed.

Lemma reduce_deepMerge_scalar_again results : ∀ acc j rj key sv,
  key ∈ acc.*1 → results !! j = Some (VObj rj) →
  lookup_key key rj = Some sv → is_scalar sv →
  ∃ key', reduce_deepMerge (VObj acc) results = throw (merge_conflict key').
Proof.
  induction results as [| r results IH]; intros acc j rj key sv Hkey Hj Hsv Hscalar;
    [done |].
  simpl. destruct (deepMerge (VObj acc) r) as [e | merged] eqn:Hmerge.
  - apply deepMerge_throws in Hmerge as (key' & ->). eauto.
  - destruct j as [| j]; simpl in Hj.
    + injection Hj as ->.
      apply deepMerge_objects_inv in Hmerge as (props & -> & Hloop).
      destruct (forEach_conflict _ _ key sv _ _ _
                  (lookup_key_Some _ _ _ Hsv) Hscalar (key_in_own _ _ Hkey) Hloop).
    + destruct (deepMerge_keys_incl _ _ _ key Hmerge) as (acc' & -> & Hkey');
        [by left |].
      simpl. by eapply IH.
Qed.

Section Siblings.

Variable StringToNumber : string → number.
Variable race : list exn → nat.

#[local] Abbreviation render := (renderToObject StringToNumber race).

(** X25: a key that one result of a fan-out has, whatever it holds there,
    and that a later result holds a scalar under makes the merge of the
    results throw a merge conflict, whatever else is merged; so a
    [Fragment], or a tag with several children, under which two children
    render to objects that clash in this way fails with an [OriginError]
    that carries the text of a merge conflict and the call stack of that
    node. *)
Theorem render_duplicate_scalar_key (children : list vnode)
    (results : list value) (callStack : list string)
    (i j : nat) (ri rj : list (string * value)) (key : string) (sv : value) :
  Forall2 (λ c v, render c callStack = ok v) children results →
  i < j → results !! i = Some (VObj ri) → results !! j = Some (VObj rj) →
  key ∈ ri.*1 → lookup_key key rj = Some sv → is_scalar sv →
  (∀ acc, ∃ key',
     reduce_deepMerge (VObj acc) results = throw (merge_conflict key'))
  ∧ (∃ m key',
       Error m = merge_conflict key'
       ∧ render (VNode (TSymbol FragmentSymbol) children) callStack
         = throw (OriginError m callStack))
  ∧ (∀ tag callStack', ∃ m key',
       Error m = merge_conflict key'
       ∧ render (VNode (TString tag) children) callStack'
         = throw (OriginError m (callStack' ++ [tag]))).
Proof.
  intros Hres Hij Hi Hj Hkey Hsv Hscalar.
  assert (Hthrows : ∀ acc, ∃ key',
            reduce_deepMerge (VObj acc) results = throw (merge_conflict key')).
  { intros acc. clear Hres. revert acc i j Hij Hi Hj.
    induction results as [| r results IH]; intros acc i j Hij Hi Hj; [done |].
    simpl. destruct (deepMerge (VObj acc) r) as [e | merged] eqn:Hmerge.
    { apply deepMerge_throws in Hmerge as (key' & ->). eauto. }
    destruct j as [| j]; [lia |]. simpl in Hj.
    destruct i as [| i]; simpl in Hi.
    - injection Hi as ->.
      destruct (deepMerge_keys_incl _ _ _ key Hmerge) as (acc' & -> & Hkey');
        [by right |].
      simpl. by eapply reduce_deepMerge_scalar_again.
    - apply deepMerge_returns_object in Hmerge as (acc' & ->).
      simpl. apply (IH acc' i j); [lia | done | done]. }
  split; [done |].
  destruct (Hthrows []) as (key' & Hrun). unfold merge_conflict in Hrun.
  split.
  - eexists _, key'. split; [reflexivity |].
    rewrite render_symbol_fragment.
    apply rendered_children_ok in Hres. rewrite Hres. simpl.
    rewrite Hrun. reflexivity.
  - intros tag callStack'. eexists _, key'. split; [reflexivity |].
    assert (Hlen : length children ≠ 1).
    { apply Forall2_length in Hres. rewrite Hres.
      apply lookup_lt_Some in Hj. lia. }
    rewrite render_many by done.
    assert (Hres' : Promise_all race
              ((λ c, render c (callStack' ++ [tag])) <$> children) = ok results).
    { apply rendered_children_ok.
      eapply Forall2_impl; [exact Hres |]. intros c v.
      apply render_host_irrelevant. }
    rewrite Hres'. simpl. rewrite Hrun. reflexivity.
Qed.

End Siblings.

Lemma render_duplicate_scalar_key_witness :
  let children :=
    [VNode (TString "name") [Prim (PString "web")];
     VNode (TString "kind") [Prim (PString "Service")];
     VNode (TString "name") [Prim (PString "api")]] in
  ∃ m key',
    Error m = merge_conflict key'
    ∧ renderToObject decimal first_listed
        (VNode (TString "metadata") children) ["Deployment"]
      = throw (OriginError m ["Deployment"; "metadata"]).
Proof.
  intros children.
  destruct (render_duplicate_scalar_key decimal first_listed children
              [VObj [("name", VStr "web")]; VObj [("kind", VStr "Service")];
               VObj [("name", VStr "api")]]
              [] 0 2 [("name", VStr "web")] [("name", VStr "api")]
              "name" (VStr "api"))
    as (_ & _ & Htag);
    [repeat constructor | lia | reflexivity | reflexivity | left
    | reflexivity | exact I |].
  apply (Htag "metadata" ["Deployment"]).
Defined.

(** ** Each key once *)

Lemma imap_index_keys {A B} (g : nat → A → B) (l : list A) :
  NoDup (imap (λ i x, (pretty i, g i x)) l).*1.
Proof.
  rewrite fmap_imap.
  rewrite (imap_ext _ (λ i _, pretty i)) by done.
  rewrite imap_seq_0. apply NoDup_fmap_2; [apply _ | apply NoDup_seq].
Qed.

Lemma assign_NoDup {V} key (v : V) o : NoDup o.*1 → NoDup (assign key v o).*1.
Proof. apply NoDup_assign. Qed.

Lemma assign_Forall {V} (P : V → Prop) key v (o : list (string * V)) :
  Forall (λ kv, P kv.2) o → P v → Forall (λ kv, P kv.2) (assign key v o).
Proof.
  intros Ho Hv. destruct (decide (key ∈ o.*1)) as [Hin | Hout].
  - rewrite assign_old by done. clear Hin.
    induction Ho as [| [k w] o Hw Ho IH]; simpl; [constructor |].
    case_decide; constructor; done.
  - rewrite (assign_Permutation key v o Hout). by constructor.
Qed.

Lemma lookup_key_Forall {V} (P : V → Prop) key v (o : list (string * V)) :
  Forall (λ kv, P kv.2) o → lookup_key key o = Some v → P v.
Proof.
  intros Ho Hv%lookup_key_Some. by eapply Forall_forall in Ho; [| exact Hv].
Qed.

Lemma spread_well_formed v : well_formed v → well_formed (VObj (spread v)).
Proof.
  intros Hv. destruct v as [| | | s | items | props]; try done;
    try (apply well_formed_obj; split; [constructor | constructor]).
  - apply well_formed_obj. split; [apply imap_index_keys |].
    apply Forall_forall. intros kv (i & c & -> & _)%elem_of_lookup_imap. done.
  - apply well_formed_arr in Hv. apply well_formed_obj.
    split; [apply (imap_index_keys (λ _ x, x)) |].
    apply Forall_forall. intros kv (i & x & -> & Hx)%elem_of_lookup_imap.
    simpl. eapply Forall_forall in Hv; [exact Hv |].
    by eapply list_elem_of_lookup_2.
Qed.

Lemma forEach_well_formed merge tprops entries : ∀ output r,
  Forall (λ kv, well_formed kv.2) tprops →
  Forall (λ kv, well_formed kv.2 ∧
                ∀ tv m, well_formed tv → merge tv kv.2 = ok m → well_formed m)
    entries →
  NoDup output.*1 → Forall (λ kv, well_formed kv.2) output →
  forEach merge tprops entries output = ok r →
  NoDup r.*1 ∧ Forall (λ kv, well_formed kv.2) r.
Proof.
  induction entries as [| [key sv] entries IH]; intros output r Ht Hes Hnd Hout.
  - by intros [= <-].
  - apply Forall_cons in Hes as [[Hsv Hmerge] Hes]. simpl in Hsv, Hmerge.
    intros (v & Hrest & Hv)%forEach_step.
    apply (IH _ _ Ht Hes (assign_NoDup key v output Hnd)); [| done].
    apply assign_Forall; [done |].
    destruct sv as [| | | | sitems | sps]; [by destruct Hv as [-> _].. | |].
    + subst v. apply well_formed_arr. apply well_formed_arr in Hsv.
      destruct (lookup_key key tprops) as [[| | | | titems |] |] eqn:Hlk;
        try done.
      apply Forall_app. split; [| done].
      by apply well_formed_arr, (lookup_key_Forall well_formed key _ tprops).
    + destruct (lookup_key key tprops) as [tv |] eqn:Hlk;
        [| subst v; destruct (inherited key);
           [apply well_formed_obj; split; constructor | done]].
      eapply Hmerge; [| exact Hv].
      by apply (lookup_key_Forall well_formed key _ tprops).
Qed.

Lemma deepMerge_well_formed source : ∀ target merged,
  well_formed target → well_formed source →
  deepMerge target source = ok merged → well_formed merged.
Proof.
  induction source as [| | | | items _ | sprops IH] using value_ind;
    intros target merged Ht Hs;
    try (rewrite deepMerge_not_objects_eq by (by rewrite andb_false_r);
         intros [= <-]; by apply spread_well_formed).
  destruct (isObject target) eqn:Hobj.
  - destruct target as [| | | | | tprops]; try done.
    intros (props & -> & Hloop)%deepMerge_objects_inv.
    apply well_formed_obj in Ht as [Hnd Ht].
    apply well_formed_obj in Hs as [_ Hs].
    apply well_formed_obj.
    eapply (forEach_well_formed deepMerge tprops sprops tprops); try done.
    apply Forall_forall. intros kv Hkv. split.
    + by eapply Forall_forall in Hs.
    + intros tv m Htv. eapply Forall_forall in IH; [| exact Hkv].
      apply IH; [done |]. by eapply Forall_forall in Hs.
  - rewrite deepMerge_not_objects_eq by (by rewrite Hobj).
    intros [= <-]. by apply spread_well_formed.
Qed.

Lemma reduce_deepMerge_well_formed results : ∀ acc merged,
  well_formed acc → Forall well_formed results →
  reduce_deepMerge acc results = ok merged → well_formed merged.
Proof.
  induction results as [| r results IH]; intros acc merged Hacc Hrs.
  - by intros [= <-].
  - apply Forall_cons in Hrs as [Hr Hrs]. simpl.
    intros (acc' & Hacc' & Hrest)%bind_ok.
    eapply IH; [| done | exact Hrest].
    exact (deepMerge_well_formed r acc acc' Hacc Hr Hacc').
Qed.

Section WellFormed.

Variable StringToNumber : string → number.
Variable race : list exn → nat.

#[local] Abbreviation render := (renderToObject StringToNumber race).

Lemma coerce_well_formed p : well_formed (coerce StringToNumber p).
Proof. unfold coerce. by destruct p; repeat case_match. Qed.

Lemma render_well_formed_all v : ∀ callStack w,
  render v callStack = ok w → well_formed w.
Proof.
  induction v as [| p0 | | tag children IHc | name e children IHc
                 | name returned children IHr IHc | sym children IHc]
    using vnode_ind; intros callStack w; try done.
  - intros [= <-]. done.
  - intros [= <-]. apply coerce_well_formed.
  - (* string tag *)
    assert (Hmany : ∀ cs results,
              Forall2 (λ c v, render c cs = ok v) children results →
              Forall well_formed results).
    { intros cs results Hres. apply Forall_forall. intros v Hv.
      apply list_elem_of_lookup in Hv as [i Hi].
      destruct (Forall2_lookup_r _ _ _ _ _ Hres Hi) as (c & Hc & Hr).
      eapply Forall_forall in IHc; [| by eapply list_elem_of_lookup_2].
      by eapply IHc. }
    destruct (decide (length children = 1)) as [Hone | Hlen].
    + destruct children as [| child [| ? ?]]; try done.
      rewrite render_single, try_catch_ok, bind_ok.
      intros (v & Hv & [= <-]). apply well_formed_obj.
      split; [apply NoDup_singleton |]. repeat constructor. simpl.
      apply Forall_cons in IHc as [IHchild _]. by eapply IHchild.
    + rewrite render_many, try_catch_ok, bind_ok by done.
      intros (results & Hres%rendered_children_ok & Hbody).
      apply bind_ok in Hbody as (merged & Hmerged & [= <-]).
      apply well_formed_obj. split; [apply NoDup_singleton |].
      repeat constructor. simpl.
      eapply reduce_deepMerge_well_formed; [| by eapply Hmany | exact Hmerged].
      apply well_formed_obj. split; constructor.
  - (* a component that returns *)
    rewrite render_function, try_catch_ok. apply IHr.
  - (* a symbol *)
    assert (Hmany : ∀ results,
              Forall2 (λ c v, render c callStack = ok v) children results →
              Forall well_formed results).
    { intros results Hres. apply Forall_forall. intros v Hv.
      apply list_elem_of_lookup in Hv as [i Hi].
      destruct (Forall2_lookup_r _ _ _ _ _ Hres Hi) as (c & Hc & Hr).
      eapply Forall_forall in IHc; [| by eapply list_elem_of_lookup_2].
      by eapply IHc. }
    destruct sym as [| | description]; [| | done].
    + rewrite render_symbol_fragment, try_catch_ok, bind_ok.
      intros (results & Hres%rendered_children_ok & Hmerged).
      eapply reduce_deepMerge_well_formed; [| by eapply Hmany | exact Hmerged].
      apply well_formed_obj. split; constructor.
    + rewrite render_symbol_list, try_catch_ok, bind_ok.
      intros (results & Hres%rendered_children_ok & [= <-]).
      by apply well_formed_arr, Hmany.
Qed.

(** X26: every object in a rendered value, at any depth, holds each of
    its keys once, and [deepMerge] keeps it so: merging two values whose
    objects hold each key once gives one of the same kind. What the
    renderer merges therefore always meets the condition under which the
    merge is described key by key. *)
Theorem render_well_formed (v : vnode) (callStack : list string) :
  (∀ w, render v callStack = ok w → well_formed w)
  ∧ (∀ target source merged,
       well_formed target → well_formed source →
       deepMerge target source = ok merged → well_formed merged).
Proof.
  split.
  - intros w. apply render_well_formed_all.
  - intros target source. apply deepMerge_well_formed.
Qed.

End WellFormed.

(** ** The batch driver: dependencies first *)

Lemma indexOf_from_addr l : ∀ k a b,
  addr a = addr b → indexOf_from k l a = indexOf_from k l b.
Proof.
  induction l as [| x l IH]; intros k a b Hab; [done |].
  simpl. unfold same_object. rewrite Hab. case_bool_decide; [done |].
  by apply IH.
Qed.

Lemma raw_addr_NoDup l :
  Forall (λ t, instanceof_DependantNodeTree t = false) l →
  NoDup (ref_of <$> l) → NoDup (addr <$> (getVNode <$> l)).
Proof.
  intros Hraw Hnd. apply (NoDup_fmap_1 RVNode).
  replace (RVNode <$> (addr <$> (getVNode <$> l))) with (ref_of <$> l); [done |].
  clear Hnd. induction Hraw as [| [v |] l Ht _ IH]; [done | | done].
  csimpl. by f_equal.
Qed.

Lemma precedes_indexOf l a b :
  Forall (λ t, instanceof_DependantNodeTree t = false) l →
  NoDup (ref_of <$> l) →
  precedes (RVNode (addr a)) (RVNode (addr b)) l →
  (indexOf (getVNode <$> l) a < indexOf (getVNode <$> l) b)%Z.
Proof.
  intros Hraw Hnd (i & j & Hij & Hi & Hj).
  pose proof (raw_addr_NoDup l Hraw Hnd) as Haddr.
  assert (Hat : ∀ n c, ref_of <$> l !! n = Some (RVNode (addr c)) →
            indexOf (getVNode <$> l) c = Z.of_nat n).
  { intros n c Hn. apply fmap_Some in Hn as (s & Hs & Href).
    eapply Forall_forall in Hraw; [| by eapply list_elem_of_lookup_2].
    destruct s as [x |]; [| done]. simpl in Href. injection Href as Hx.
    unfold indexOf. rewrite (indexOf_from_addr _ _ c x) by done.
    rewrite (indexOf_from_lookup _ _ n x Haddr); [lia |].
    by rewrite list_lookup_fmap, Hs. }
  rewrite (Hat i a Hi), (Hat j b Hj). lia.
Qed.

Lemma StronglySorted_lookup {A} (R : relation A) (l : list A) i j x y :
  StronglySorted R l → i < j → l !! i = Some x → l !! j = Some y → R x y.
Proof.
  intros Hl Hij Hi Hj.
  apply take_drop_middle in Hj as Hsplit. rewrite <-Hsplit in Hl.
  apply (StronglySorted_app_1_elem_of _ _ _ x y) in Hl; [done | | left].
  apply list_elem_of_lookup. exists i. by rewrite lookup_take_lt.
Qed.

Section DriverDependencies.

Variable StringToNumber : string → number.
Variable race : list exn → nat.

(** X27: an export comes back after the exports it depends on. For an
    exported wrapper, one object per address, whose node is reachable
    neither from the exports before it nor from its own dependencies, an
    export that stands for the node of one of its dependencies has an
    earlier place in the order of execution; so when the two are in the
    same list, the fulfilled or the failures, the dependency is listed
    first, no export name being an array index. *)
Theorem renderFile_dependency_first (before after : list (string * tree))
    (k1 k2 : string) (t1 dep node : tree) (self : nat) (deps : list tree) :
  let exports := before ++ (k2, DependantNodeTree self deps node) :: after in
  let batch := renderFile StringToNumber race exports in
  NoDup exports.*1 → consistent exports.*2 →
  (k1, t1) ∈ exports → dep ∈ deps → node_ref t1 = node_ref dep →
  node_ref node ∉ reach (before.*2 ++ deps) →
  (position exports k1 < position exports k2)%Z
  ∧ (Forall (λ key, array_index key = None) exports.*1 →
     (∀ i j v1 v2,
        fulfilled batch !! i = Some (k1, v1) →
        fulfilled batch !! j = Some (k2, v2) → i < j)
     ∧ (∀ i j e1 e2,
          failures batch !! i = Some (k1, e1) →
          failures batch !! j = Some (k2, e2) → i < j)).
Proof.
  intros exports batch Hnd Hcons Hk1 Hdep Hsame Hnew.
  assert (Hk2 : (k2, DependantNodeTree self deps node) ∈ exports).
  { apply elem_of_app. right. left. }
  assert (Htrees : exports.*2
                   = before.*2 ++ DependantNodeTree self deps node :: after.*2).
  { unfold exports. by rewrite fmap_app. }
  assert (Hpos : (position exports k1 < position exports k2)%Z).
  { unfold position.
    rewrite (lookup_key_elem k1 t1 exports Hnd Hk1).
    rewrite (lookup_key_elem k2 _ exports Hnd Hk2). simpl.
    destruct (order_inv_unravel exports.*2) as [Hraw Hndr _].
    apply precedes_indexOf; [done | done |].
    change (RVNode (addr (getVNode t1))) with (node_ref t1).
    change (RVNode (addr (getVNode node))) with (node_ref node).
    rewrite Hsame, unravel_first_visit by done.
    rewrite Htrees, bind_app, bind_cons. simpl. rewrite <-app_assoc, app_assoc.
    apply first_visit_precedes.
    - rewrite fmap_app. apply elem_of_app. right.
      apply list_elem_of_fmap. exists (Raw (getVNode dep)). split; [done |].
      apply list_elem_of_bind. exists dep. split; [apply flatten_getVNode | done].
    - rewrite fmap_app. apply elem_of_app. left.
      apply list_elem_of_fmap. exists (Raw (getVNode node)).
      split; [done | apply flatten_getVNode].
    - intros Hin. apply Hnew, reach_flatten. by rewrite bind_app. }
  split; [done |].
  assert (Hfirst : ∀ {B} (l : list (string * B)) i j (b1 b2 : B),
            StronglySorted
              (λ a b, (position exports a.1 ≤ position exports b.1)%Z) l →
            l !! i = Some (k1, b1) → l !! j = Some (k2, b2) → i < j).
  { intros B l i j b1 b2 Hs Hi Hj.
    destruct (decide (i < j)) as [| Hge]; [done |].
    destruct (decide (i = j)) as [-> | Hne].
    - rewrite Hi in Hj. injection Hj as -> _. lia.
    - assert (Hji : j < i) by lia.
      pose proof (StronglySorted_lookup _ _ j i _ _ Hs Hji Hj Hi) as Hle.
      simpl in Hle. lia. }
  intros Hplain.
  destruct (renderFile_sorted_by_position StringToNumber race exports Hnd Hplain)
    as [Hful Hfail].
  split.
  - intros i j v1 v2. by apply Hfirst.
  - intros i j e1 e2. by apply Hfirst.
Qed.

End DriverDependencies.

Lemma renderFile_dependency_first_witness :
  let web := Raw {| addr := 1; shape := VNode (TString "kind") [Prim (PString "web")] |} in
  let app := Raw {| addr := 2; shape := VNode (TString "kind") [Prim (PString "app")] |} in
  let exports := [] ++ ("app", DependantNodeTree 3 [web] app) :: [("web", web)] in
  (position exports "web" < position exports "app")%Z
  ∧ fulfilled (renderFile decimal first_listed exports)
    = [("web", VObj [("kind", VStr "web")]); ("app", VObj [("kind", VStr "app")])].
Proof.
  intros web app exports.
  destruct (renderFile_dependency_first decimal first_listed [] [("web", web)]
              "web" "app" web web app 3 [web])
    as (Hpos & _).
  - compute_done.
  - solve_consistent.
  - right. left.
  - left.
  - reflexivity.
  - rewrite reach_flatten. simpl.
    intros [[=] | []%elem_of_nil]%elem_of_cons.
  - split; [exact Hpos | reflexivity].
Defined.

(** ** What a leaf can render to *)

Section Leaves.

Variable StringToNumber : string → number.
Variable race : list exn → nat.

(** X28: read backwards, the coercion of a leaf says where each kind of
    result can come from. A string comes out only of that very string,
    empty or neither a number for [Number] nor ["true"] or ["false"]; a
    boolean comes out only of the strings ["true"] and ["false"], never of
    a boolean leaf; a number is [Number] of the leaf, which is then not
    the empty string; and a leaf renders to nothing else. *)
Theorem render_leaf_inverse (p : primitive) (callStack : list string) (w : value) :
  renderToObject StringToNumber race (Prim p) callStack = ok w →
  match w with
  | VStr s =>
      p = PString s
      ∧ (s = "" ∨ (isNaN (StringToNumber s) = true ∧ s ≠ "true" ∧ s ≠ "false"))
  | VBool b =>
      p = PString (if b then "true" else "false")
      ∧ isNaN (StringToNumber (if b then "true" else "false")) = true
  | VNum n => n = Number StringToNumber p ∧ p ≠ PString ""
  | VNull | VArr _ | VObj _ => False
  end.
Proof.
  intros [= <-]. unfold coerce.
  destruct p as [s | n | b]; simpl.
  - case_bool_decide as Hlen.
    { destruct s; [| done]. simpl. split; [done | by left]. }
    assert (Hs : s ≠ "") by (by intros ->).
    destruct (isNaN (StringToNumber s)) eqn:Hnan; simpl; [| by split; [| intros [=]]].
    repeat case_bool_decide; subst; simpl; try done.
    split; [done |]. by right.
  - by destruct (isNaN n).
  - by destruct b.
Qed.

End Leaves.

Lemma render_leaf_inverse_witness :
  PString "true" = PString "true"
  ∧ isNaN (decimal "true") = true.
Proof.
  apply (render_leaf_inverse decimal first_listed (PString "true") []
           (VBool true)).
  reflexivity.
Defined.

(** ** The store-level merge: arrays are copied *)

Section Copies.

Import Heap.



End Copies.


(** ** A chain of dependencies, supplied in any order *)

Lemma flatten_chain v0 links :
  flatten (chain v0 links) = Raw v0 :: (Raw <$> links.*2).
Proof.
  induction links as [| [a v] links IH] using rev_ind; [done |].
  unfold chain in *. rewrite foldl_snoc. simpl. rewrite IH.
  by rewrite !fmap_app, app_nil_r.
Qed.

Section Prefixes.

Variable L : list tree.
Hypothesis L_once : NoDup (ref_of <$> L).

Lemma seen_take_max n m :
  list_to_set (ref_of <$> take m L) ∪ list_to_set (ref_of <$> take n L)
  =@{gset ref} list_to_set (ref_of <$> take (m `max` n) L).
Proof.
  assert (Hmono : ∀ i j, i ≤ j →
            list_to_set (ref_of <$> take i L)
            ⊆@{gset ref} list_to_set (ref_of <$> take j L)).
  { intros i j Hij r. rewrite !elem_of_list_to_set, !list_elem_of_fmap.
    intros (t & -> & Ht). exists t. split; [done |].
    apply elem_of_take in Ht as (k & Hk & Hlt). apply elem_of_take.
    exists k. split; [done | lia]. }
  destruct (Nat.max_spec m n) as [[Hlt ->] | [Hle ->]].
  - specialize (Hmono m n). set_solver by lia.
  - specialize (Hmono n m). set_solver by lia.
Qed.

Lemma keep_first_take n m :
  keep_first (list_to_set (ref_of <$> take n L)) (take m L)
  = drop n (take m L).
Proof.
  destruct (decide (m ≤ n)) as [Hle | Hgt].
  - rewrite drop_ge by (rewrite length_take; lia).
    apply keep_first_seen. intros t Ht.
    apply elem_of_list_to_set, list_elem_of_fmap. exists t. split; [done |].
    apply elem_of_take in Ht as (k & Hk & Hlt). apply elem_of_take.
    exists k. split; [done | lia].
  - rewrite <-(take_drop n (take m L)) at 1.
    rewrite take_take, Nat.min_l by lia. rewrite keep_first_app.
    rewrite keep_first_seen.
    2:{ intros t Ht. apply elem_of_list_to_set, list_elem_of_fmap. eauto. }
    simpl. apply keep_first_id.
    + rewrite fmap_drop, fmap_take.
      eapply sublist_NoDup; [exact L_once |].
      etrans; [apply sublist_drop | apply sublist_take].
    + intros t Ht. rewrite union_idemp_L.
      rewrite elem_of_list_to_set. intros Hseen.
      apply list_elem_of_lookup in Ht as [i Hi].
      rewrite lookup_drop in Hi. apply lookup_take_Some in Hi as [Hi _].
      rewrite <-(take_drop n L), fmap_app in L_once.
      apply NoDup_app in L_once as (_ & Hdis & _).
      apply (Hdis _ Hseen). apply list_elem_of_fmap. exists t. split; [done |].
      apply list_elem_of_lookup. exists i. by rewrite lookup_drop.
Qed.

Lemma foldr_max_shift m n ms :
  foldr Nat.max (m `max` n) ms = m `max` foldr Nat.max n ms.
Proof. induction ms as [| k ms IH]; simpl; [done |]. rewrite IH. lia. Qed.

(** Beginnings of one sequence, met one after the other: what comes out
    new is the sequence up to the longest of them. *)
Lemma keep_first_takes ms : ∀ n,
  keep_first (list_to_set (ref_of <$> take n L)) (ms ≫= λ m, take m L)
  = drop n (take (foldr Nat.max n ms) L).
Proof.
  induction ms as [| m ms IH]; intros n.
  - simpl. by rewrite drop_ge by (rewrite length_take; lia).
  - rewrite bind_cons, keep_first_app, keep_first_take.
    rewrite seen_take_max, IH, foldr_max_shift. simpl.
    set (M := m `max` foldr Nat.max n ms).
    destruct (decide (m ≤ n)) as [Hle | Hgt].
    + rewrite (drop_ge (take m L)) by (rewrite length_take; lia).
      by rewrite Nat.max_r by done.
    + rewrite Nat.max_l by lia.
      rewrite <-(drop_take_drop (take M L) n m) by lia.
      by rewrite take_take, Nat.min_l by lia.
Qed.

End Prefixes.

(** X30: a chain of dependencies comes out in the order of the chain
    however it is supplied. When the declarations supplied are taken from
    one chain, in any order and any number of times, one object per
    address and the nodes of the chain being different objects, the order
    is the nodes of the chain from its first node up to the node of the
    longest declaration supplied; so with the whole chain among them, all
    its nodes in the order of the chain. *)
Theorem unravel_chain (v0 : VNodeObj) (links : list (nat * VNodeObj))
    (picks : list nat) :
  let trees := (λ i, chain v0 (take i links)) <$> picks in
  consistent trees →
  NoDup (addr <$> v0 :: links.*2) →
  unravelOrderOfDependencies trees
  = take (foldr Nat.max 0 (S <$> picks)) (Raw v0 :: (Raw <$> links.*2))
  ∧ ((∃ i, i ∈ picks ∧ length links ≤ i) →
     unravelOrderOfDependencies trees = Raw v0 :: (Raw <$> links.*2)).
Proof.
  intros trees Hcons Haddr.
  set (L := Raw v0 :: (Raw <$> links.*2)).
  assert (Honce : NoDup (ref_of <$> L)).
  { replace (ref_of <$> L) with (RVNode <$> (addr <$> v0 :: links.*2)).
    - assert (Inj (=) (=) RVNode) by (by intros ?? [=]).
      by apply (NoDup_fmap_2 RVNode).
    - unfold L. csimpl. f_equal. by rewrite <-!list_fmap_compose. }
  assert (Hflat : trees ≫= flatten = (S <$> picks) ≫= λ m, take m L).
  { unfold trees. clear. induction picks as [| i picks IH]; [done |].
    csimpl. rewrite IH. f_equal. rewrite flatten_chain. unfold L. simpl.
    by rewrite !fmap_take. }
  assert (Hout : unravelOrderOfDependencies trees
                 = take (foldr Nat.max 0 (S <$> picks)) L).
  { rewrite unravel_first_visit by done. rewrite Hflat.
    pose proof (keep_first_takes L Honce (S <$> picks) 0) as Hk.
    simpl in Hk. by rewrite Hk. }
  split; [done |]. intros (i & Hi & Hlen). rewrite Hout.
  apply take_ge. unfold L. simpl. rewrite !length_fmap.
  assert (Hmax : ∀ k ks, k ∈ ks → k ≤ foldr Nat.max 0 ks).
  { intros k ks. induction ks as [| k' ks IH]; [by intros ?%elem_of_nil |].
    intros [-> | Hk]%elem_of_cons; simpl; [lia |]. specialize (IH Hk). lia. }
  assert (Hin : S i ∈ S <$> picks) by (apply list_elem_of_fmap; eauto).
  specialize (Hmax (S i) (S <$> picks) Hin). lia.
Qed.

Lemma unravel_chain_witness :
  let web := {| addr := 1; shape := VNode (TString "kind") [Prim (PString "web")] |} in
  let app := {| addr := 2; shape := VNode (TString "kind") [Prim (PString "app")] |} in
  let svc := {| addr := 3; shape := VNode (TString "kind") [Prim (PString "svc")] |} in
  let links := [(4, app); (5, svc)] in
  unravelOrderOfDependencies
    ((λ i, chain web (take i links)) <$> [1; 2; 0])
  = [Raw web; Raw app; Raw svc].
Proof.
  intros web app svc links.
  destruct (unravel_chain web links [1; 2; 0]) as [_ Hall].
  - solve_consistent.
  - compute_done.
  - apply Hall. exists 2. split; [right; left | reflexivity].
Defined.
